(** * Arithmetic expression compiler: lexer, recursive-descent parser, evaluator

    A shallow embedding of [src/main.cpp] (classes [Lexer], [ASTNode] and its
    three subclasses, [Parser], [ArithmeticCompiler]) together with the
    properties of the pipeline.

    - C++ [double] is IEEE-754 binary64, taken from the standard library's
      executable specification [SpecFloat] ([prec = 53], [emax = 1024]).
    - C++ exceptions are an explicit [Throw] in the [outcome] monad; the
      [while] loops and the mutual recursion of the parser run on fuel, and
      [Timeout] is the outcome of a run that exhausts it.  Every entry point
      computes its own fuel and is proved never to time out
      ([compile_and_evaluate_terminates]), and more fuel never changes an
      outcome ([parser_fuel_step]).
    - The call stack is unbounded: the exhaustion of the C++ stack by deeply
      nested input is outside the model. *)

From Stdlib Require Import ZArith NArith Lia List Bool Ascii String QArith Qabs.
From Stdlib Require Import Floats.SpecFloat.
Import ListNotations.

Local Open Scope string_scope.
Local Open Scope nat_scope.

(** ** Numbers: C++ [double] *)

Definition prec : Z := 53.
Definition emax : Z := 1024.

Definition double : Type := spec_float.

Definition double_add : double -> double -> double := SFadd prec emax.
Definition double_sub : double -> double -> double := SFsub prec emax.
Definition double_mul : double -> double -> double := SFmul prec emax.
Definition double_div : double -> double -> double := SFdiv prec emax.
Definition double_neg : double -> double := SFopp.

(** The C++ comparison [x == y] on doubles: IEEE equality, under which the two
    zeros are equal and a NaN equals nothing. *)
Definition double_eqb : double -> double -> bool := SFeqb.

(** The double nearest to an integer (conversion of an [int] literal such as
    the [0] of [right_val == 0] or the default argument [v = 0] of [Token]). *)
Definition double_of_Z (z : Z) : double := binary_normalize prec emax z 0 false.

Definition double_zero : double := double_of_Z 0.

(** The rational number a finite double stands for. *)
Definition double_to_Q (d : double) : option Q :=
  match d with
  | S754_zero _ => Some (0 # 1)%Q
  | S754_finite s m e =>
      let z := if s then Zneg m else Zpos m in
      Some (match e with
            | Zneg k => Qmake z (Pos.pow 2 k)
            | _ => inject_Z (z * 2 ^ e)
            end)
  | S754_infinity _ | S754_nan => None
  end.

(** ** Exceptions and outcomes *)

(** The three standard exception classes the program can raise, each carrying
    the string that [what()] returns. *)
Inductive exception : Type :=
| runtime_error (what_arg : string)
| invalid_argument (what_arg : string)
| out_of_range (what_arg : string).

Definition what (e : exception) : string :=
  match e with
  | runtime_error w | invalid_argument w | out_of_range w => w
  end.

Inductive outcome (A : Type) : Type :=
| Return (a : A)
| Throw (e : exception)
| Timeout.

Arguments Return {A} a.
Arguments Throw {A} e.
Arguments Timeout {A}.

Definition bind {A B : Type} (c : outcome A) (k : A -> outcome B) : outcome B :=
  match c with
  | Return a => k a
  | Throw e => Throw e
  | Timeout => Timeout
  end.

Declare Scope outcome_scope.
Delimit Scope outcome_scope with outcome.
Notation "x <- c ;; k" := (bind c (fun x => k))
  (at level 61, c at next level, right associativity) : outcome_scope.
Notation "' pat <- c ;; k" := (bind c (fun x => match x with pat => k end))
  (at level 61, pat pattern, c at next level, right associativity) : outcome_scope.
Local Open Scope outcome_scope.

(** The error conditions of the program, by the message each one is thrown
    with in [src/main.cpp]. *)
Definition InvalidCharacter (c : ascii) : exception :=
  runtime_error ("Invalid character: " ++ String c "").
Definition UnexpectedToken : exception :=
  runtime_error "Unexpected token".
Definition UnexpectedTokenAtEnd : exception :=
  runtime_error "Unexpected token at end of expression".
Definition InvalidSyntax : exception :=
  runtime_error "Invalid syntax".
Definition DivisionByZero : exception :=
  runtime_error "Division by zero".
Definition UnknownBinaryOperator : exception :=
  runtime_error "Unknown binary operator".
Definition UnknownUnaryOperator : exception :=
  runtime_error "Unknown unary operator".
Definition CompilationError (cause : exception) : exception :=
  runtime_error ("Compilation error: " ++ what cause).

(** ** Characters *)

Definition NUL : ascii := "000"%char.

Definition is_nul (c : ascii) : bool := Ascii.eqb c NUL.

(** [std::isspace] and [std::isdigit] in the "C" locale: the six whitespace
    characters and the ten digits.  A [char] above 127 is in neither class. *)
Definition isspace (c : ascii) : bool :=
  let n := N_of_ascii c in
  ((9 <=? n) && (n <=? 13) || (n =? 32))%N.

Definition isdigit (c : ascii) : bool :=
  let n := N_of_ascii c in
  ((48 <=? n) && (n <=? 57))%N.

Definition is_dot (c : ascii) : bool := Ascii.eqb c "."%char.

(** ** [std::stod] *)

(** The longest prefix of [s] whose characters all satisfy [f], and the rest. *)
Fixpoint span (f : ascii -> bool) (s : string) : string * string :=
  match s with
  | String c s' =>
      if f c then let (run, rest) := span f s' in (String c run, rest)
      else ("", s)
  | "" => ("", "")
  end.

Definition digit_value (c : ascii) : Z := Z.of_N (N_of_ascii c) - 48.

Fixpoint decimal_value (acc : Z) (s : string) : Z :=
  match s with
  | String c s' => decimal_value (10 * acc + digit_value c) s'
  | "" => acc
  end.

(** The double nearest (ties to even) to [n / 10 ^ k], or an infinity when
    that is beyond the largest finite double. *)
Definition decimal_to_double (n : Z) (k : nat) : double :=
  match n with
  | Zpos m =>
      SFdiv prec emax (S754_finite false m 0)
                      (S754_finite false (Z.to_pos (10 ^ Z.of_nat k)) 0)
  | _ => S754_zero false
  end.

(** [represents d n k]: the double [d] is exactly [n / 10 ^ k]. *)
Definition represents (d : double) (n : Z) (k : nat) : bool :=
  match d with
  | S754_zero _ => (n =? 0)%Z
  | S754_finite false m (Zneg e) => (Zpos m * 10 ^ Z.of_nat k =? n * Zpos (Pos.pow 2 e))%Z
  | S754_finite false m e => (Zpos m * 2 ^ e * 10 ^ Z.of_nat k =? n)%Z
  | _ => false
  end.

(** Zero or subnormal: below the smallest normal double. *)
Definition tiny (d : double) : bool :=
  match d with
  | S754_zero _ => true
  | S754_finite _ m _ => (Zpos (digits2_pos m) <? prec)%Z
  | _ => false
  end.

(** Modelled from the spec: [std::stod] is the C++ standard library's
    numeric-string-to-double conversion and is not part of [src/]; the spec
    calls it the conversion whose own failure behaviour governs the result,
    and which parses the longest valid prefix and ignores the rest.

    [Lexer::number] only ever passes it a string of decimal digits and ['.']
    characters, and this definition is the conversion on such strings (no
    sign, exponent, hexadecimal or inf/nan form can start there, and any other
    character ends the prefix).  The longest valid prefix is a run of digits,
    optionally followed by ['.'] and a further run of digits, with at least
    one digit in all.  With no such prefix the call throws
    [std::invalid_argument]; otherwise the prefix denotes [n / 10 ^ k] and the
    result is the nearest double (ties to even).  [std::out_of_range] is
    thrown when [strtod] reports [ERANGE]: on overflow, and on underflow,
    which the C standard leaves to the implementation and which is taken
    here, as in glibc, to be a rounded result that is zero or subnormal and
    differs from the exact value.  The [what()] strings are libstdc++'s. *)
Definition stod (str : string) : outcome double :=
  let (int_part, rest) := span isdigit str in
  let frac_part :=
    match rest with
    | String c rest' => if is_dot c then fst (span isdigit rest') else ""
    | "" => ""
    end in
  match int_part ++ frac_part with
  | "" => Throw (invalid_argument "stod")
  | digits =>
      let n := decimal_value 0 digits in
      let k := String.length frac_part in
      let d := decimal_to_double n k in
      match d with
      | S754_infinity _ => Throw (out_of_range "stod")
      | _ => if tiny d && negb (represents d n k)
             then Throw (out_of_range "stod")
             else Return d
      end
  end.

(** ** Tokens *)

Inductive TokenType : Type :=
| NUMBER | PLUS | MINUS | MULTIPLY | DIVIDE | LPAREN | RPAREN | END_OF_FILE.

Definition TokenType_eqb (a b : TokenType) : bool :=
  match a, b with
  | NUMBER, NUMBER | PLUS, PLUS | MINUS, MINUS | MULTIPLY, MULTIPLY
  | DIVIDE, DIVIDE | LPAREN, LPAREN | RPAREN, RPAREN
  | END_OF_FILE, END_OF_FILE => true
  | _, _ => false
  end.

Record Token : Type := mkToken { type : TokenType; value : double }.

(** [Token(t)], with the default argument [v = 0]. *)
Definition Token1 (t : TokenType) : Token := mkToken t double_zero.

(** ** Lexer *)

(** [position] is a [size_t]; it is only ever incremented while the current
    character is not the sentinel, so it never exceeds [input.length()] plus
    one and the increment cannot wrap: a [nat] models it exactly. *)
Record Lexer : Type := mkLexer {
  input : string;
  position : nat;
  current_char : ascii
}.

(** [input[i]] for an index inside the string. *)
Definition char_at (s : string) (i : nat) : ascii :=
  match String.get i s with
  | Some c => c
  | None => NUL
  end.

Definition advance (lx : Lexer) : Lexer :=
  let position' := S (position lx) in
  if String.length (input lx) <=? position'
  then mkLexer (input lx) position' NUL
  else mkLexer (input lx) position' (char_at (input lx) position').

(** Fuel for the loops of the lexer: each iteration advances, and after the
    first advance the current character is the sentinel as soon as the
    position reaches the length. *)
Definition loop_bound (lx : Lexer) : nat :=
  S (S (String.length (input lx) - position lx)).

Fixpoint skip_whitespace_loop (fuel : nat) (lx : Lexer) : outcome Lexer :=
  match fuel with
  | O => Timeout
  | S fuel' =>
      if negb (is_nul (current_char lx)) && isspace (current_char lx)
      then skip_whitespace_loop fuel' (advance lx)
      else Return lx
  end.

Definition skip_whitespace (lx : Lexer) : outcome Lexer :=
  skip_whitespace_loop (loop_bound lx) lx.

Fixpoint number_loop (fuel : nat) (num_str : string) (lx : Lexer)
  : outcome (string * Lexer) :=
  match fuel with
  | O => Timeout
  | S fuel' =>
      if negb (is_nul (current_char lx))
         && (isdigit (current_char lx) || is_dot (current_char lx))
      then number_loop fuel' (num_str ++ String (current_char lx) "") (advance lx)
      else Return (num_str, lx)
  end.

Definition number (lx : Lexer) : outcome (double * Lexer) :=
  '(num_str, lx') <- number_loop (loop_bound lx) "" lx;;
  v <- stod num_str;;
  Return (v, lx').

(** [Lexer(text)] *)
Definition new_Lexer (text : string) : Lexer :=
  mkLexer text 0 (match text with "" => NUL | String c _ => c end).

Fixpoint get_next_token_loop (fuel : nat) (lx : Lexer) : outcome (Token * Lexer) :=
  match fuel with
  | O => Timeout
  | S fuel' =>
      let c := current_char lx in
      if is_nul c then Return (Token1 END_OF_FILE, lx)
      else if isspace c then
        lx' <- skip_whitespace lx;; get_next_token_loop fuel' lx'
      else if isdigit c || is_dot c then
        '(v, lx') <- number lx;; Return (mkToken NUMBER v, lx')
      else if Ascii.eqb c "+" then Return (Token1 PLUS, advance lx)
      else if Ascii.eqb c "-" then Return (Token1 MINUS, advance lx)
      else if Ascii.eqb c "*" then Return (Token1 MULTIPLY, advance lx)
      else if Ascii.eqb c "/" then Return (Token1 DIVIDE, advance lx)
      else if Ascii.eqb c "(" then Return (Token1 LPAREN, advance lx)
      else if Ascii.eqb c ")" then Return (Token1 RPAREN, advance lx)
      else Throw (InvalidCharacter c)
  end.

Definition get_next_token (lx : Lexer) : outcome (Token * Lexer) :=
  get_next_token_loop (loop_bound lx) lx.

(** ** Abstract syntax tree and evaluation *)

Inductive ASTNode : Type :=
| NumberNode (val : double)
| BinaryOpNode (l : ASTNode) (operation : TokenType) (r : ASTNode)
| UnaryOpNode (operation : TokenType) (node : ASTNode).

Fixpoint evaluate (n : ASTNode) : outcome double :=
  match n with
  | NumberNode val => Return val
  | BinaryOpNode l op r =>
      left_val <- evaluate l;;
      right_val <- evaluate r;;
      match op with
      | PLUS => Return (double_add left_val right_val)
      | MINUS => Return (double_sub left_val right_val)
      | MULTIPLY => Return (double_mul left_val right_val)
      | DIVIDE =>
          if double_eqb right_val (double_of_Z 0)
          then Throw DivisionByZero
          else Return (double_div left_val right_val)
      | _ => Throw UnknownBinaryOperator
      end
  | UnaryOpNode op operand =>
      val <- evaluate operand;;
      match op with
      | PLUS => Return val
      | MINUS => Return (double_neg val)
      | _ => Throw UnknownUnaryOperator
      end
  end.

(** ** Parser *)

Record Parser : Type := mkParser { lexer : Lexer; current_token : Token }.

Definition eat (token_type : TokenType) (p : Parser) : outcome Parser :=
  if TokenType_eqb (type (current_token p)) token_type
  then '(tok, lx) <- get_next_token (lexer p);; Return (mkParser lx tok)
  else Throw UnexpectedToken.

(** The three grammar rules and the two [while] loops, on common fuel: every
    call and every iteration spends one unit. *)
Fixpoint factor (fuel : nat) (p : Parser) {struct fuel} : outcome (ASTNode * Parser) :=
  match fuel with
  | O => Timeout
  | S fuel' =>
      let token := current_token p in
      match type token with
      | PLUS =>
          p1 <- eat PLUS p;;
          '(operand, p2) <- factor fuel' p1;;
          Return (UnaryOpNode PLUS operand, p2)
      | MINUS =>
          p1 <- eat MINUS p;;
          '(operand, p2) <- factor fuel' p1;;
          Return (UnaryOpNode MINUS operand, p2)
      | NUMBER =>
          p1 <- eat NUMBER p;;
          Return (NumberNode (value token), p1)
      | LPAREN =>
          p1 <- eat LPAREN p;;
          '(node, p2) <- expr fuel' p1;;
          p3 <- eat RPAREN p2;;
          Return (node, p3)
      | _ => Throw InvalidSyntax
      end
  end

with term (fuel : nat) (p : Parser) {struct fuel} : outcome (ASTNode * Parser) :=
  match fuel with
  | O => Timeout
  | S fuel' =>
      '(node, p1) <- factor fuel' p;;
      term_loop fuel' node p1
  end

with term_loop (fuel : nat) (node : ASTNode) (p : Parser) {struct fuel}
  : outcome (ASTNode * Parser) :=
  match fuel with
  | O => Timeout
  | S fuel' =>
      let token := current_token p in
      match type token with
      | MULTIPLY =>
          p1 <- eat MULTIPLY p;;
          '(rhs, p2) <- factor fuel' p1;;
          term_loop fuel' (BinaryOpNode node (type token) rhs) p2
      | DIVIDE =>
          p1 <- eat DIVIDE p;;
          '(rhs, p2) <- factor fuel' p1;;
          term_loop fuel' (BinaryOpNode node (type token) rhs) p2
      | _ => Return (node, p)
      end
  end

with expr (fuel : nat) (p : Parser) {struct fuel} : outcome (ASTNode * Parser) :=
  match fuel with
  | O => Timeout
  | S fuel' =>
      '(node, p1) <- term fuel' p;;
      expr_loop fuel' node p1
  end

with expr_loop (fuel : nat) (node : ASTNode) (p : Parser) {struct fuel}
  : outcome (ASTNode * Parser) :=
  match fuel with
  | O => Timeout
  | S fuel' =>
      let token := current_token p in
      match type token with
      | PLUS =>
          p1 <- eat PLUS p;;
          '(rhs, p2) <- term fuel' p1;;
          expr_loop fuel' (BinaryOpNode node (type token) rhs) p2
      | MINUS =>
          p1 <- eat MINUS p;;
          '(rhs, p2) <- term fuel' p1;;
          expr_loop fuel' (BinaryOpNode node (type token) rhs) p2
      | _ => Return (node, p)
      end
  end.

(** [Parser(text)]: the members are initialised to [Lexer(text)] and
    [Token(END_OF_FILE)], and the body reads the first token. *)
Definition new_Parser (text : string) : outcome Parser :=
  let p := mkParser (new_Lexer text) (Token1 END_OF_FILE) in
  '(tok, lx) <- get_next_token (lexer p);;
  Return (mkParser lx tok).

(** What is left to read: the characters from [position] on, and the buffered
    token unless it is the end marker. *)
Definition remaining (p : Parser) : nat :=
  (String.length (input (lexer p)) - position (lexer p))
  + (if TokenType_eqb (type (current_token p)) END_OF_FILE then 0 else 1).

Definition parse_fuel (p : Parser) : nat := 4 * remaining p + 3.

Definition parse (p : Parser) : outcome (ASTNode * Parser) :=
  '(node, p') <- expr (parse_fuel p) p;;
  if negb (TokenType_eqb (type (current_token p')) END_OF_FILE)
  then Throw UnexpectedTokenAtEnd
  else Return (node, p').

(** ** ArithmeticCompiler *)

Definition compile_and_evaluate (expression : string) : outcome double :=
  match (p <- new_Parser expression;;
         '(ast, _) <- parse p;;
         evaluate ast) with
  | Return result => Return result
  | Throw e => Throw (CompilationError e)
  | Timeout => Timeout
  end.

(** ** Lexer states as a split of the input

    [lexer_at pre suf] is the lexer over the text [pre ++ suf] whose scan
    point stands after [pre]: it is the form of every state the program
    reaches, and it satisfies the invariant of the class (the position is
    within the input and the cached character is the one at the position, or
    the sentinel at the end). *)

Definition head (s : string) : ascii :=
  match s with
  | "" => NUL
  | String c _ => c
  end.

Definition lexer_at (pre suf : string) : Lexer :=
  mkLexer (pre ++ suf) (String.length pre) (head suf).

Definition is_numeric (c : ascii) : bool := isdigit c || is_dot c.

Definition single_char_token (c : ascii) : option TokenType :=
  if Ascii.eqb c "+" then Some PLUS
  else if Ascii.eqb c "-" then Some MINUS
  else if Ascii.eqb c "*" then Some MULTIPLY
  else if Ascii.eqb c "/" then Some DIVIDE
  else if Ascii.eqb c "(" then Some LPAREN
  else if Ascii.eqb c ")" then Some RPAREN
  else None.

(** The next token as a function of the text after the scan point: what
    [get_next_token] computes, without the cursor (lemma
    [get_next_token_at]).  [scan_token] is the case of a scan point that is
    not at whitespace. *)
Definition scan_token (pre s1 : string) : outcome (Token * Lexer) :=
  match s1 with
  | "" => Return (Token1 END_OF_FILE, lexer_at pre s1)
  | String c s2 =>
      if is_nul c then Return (Token1 END_OF_FILE, lexer_at pre s1)
      else if is_numeric c then
        let (run, rest) := span is_numeric s1 in
        v <- stod run;;
        Return (mkToken NUMBER v, lexer_at (pre ++ run) rest)
      else match single_char_token c with
           | Some t => Return (Token1 t, lexer_at (pre ++ String c "") s2)
           | None => Throw (InvalidCharacter c)
           end
  end.

Definition scan (pre suf : string) : outcome (Token * Lexer) :=
  let (ws, s1) := span isspace suf in scan_token (pre ++ ws) s1.

(** The parser state after reading one token at a scan point: what the
    constructor of [Parser] and every successful [eat] leave. *)
Definition start (pre s : string) : outcome Parser :=
  '(tok, lx) <- get_next_token (lexer_at pre s);;
  Return (mkParser lx tok).

(** ** The grammar

    Concrete syntax trees of the grammar of the expressions, in its usual
    left-recursive form, which is what gives the operators their standard
    precedence and left-associativity:
<<
    expr   ::= term   | expr ADDOP term        ADDOP is + or -
    term   ::= factor | term MULOP factor      MULOP is * or /
    factor ::= NUMBER | ADDOP factor | ( expr )
>>
    Every token carries the whitespace written before it. *)

Inductive additive : Type := Add | Sub.
Inductive multiplicative : Type := Mul | Div.

Inductive gfactor : Type :=
| GNumber (ws : string) (literal : string)
| GUnary (ws : string) (sign : additive) (f : gfactor)
| GParen (ws1 : string) (e : gexpr) (ws2 : string)
with gterm : Type :=
| GFactor (f : gfactor)
| GMulDiv (t : gterm) (ws : string) (op : multiplicative) (f : gfactor)
with gexpr : Type :=
| GTerm (t : gterm)
| GAddSub (e : gexpr) (ws : string) (op : additive) (t : gterm).

Scheme gfactor_ind3 := Induction for gfactor Sort Prop
  with gterm_ind3 := Induction for gterm Sort Prop
  with gexpr_ind3 := Induction for gexpr Sort Prop.
Combined Scheme grammar_ind from gfactor_ind3, gterm_ind3, gexpr_ind3.

Definition additive_char (op : additive) : ascii :=
  match op with Add => "+" | Sub => "-" end%char.

Definition multiplicative_char (op : multiplicative) : ascii :=
  match op with Mul => "*" | Div => "/" end%char.

Definition additive_type (op : additive) : TokenType :=
  match op with Add => PLUS | Sub => MINUS end.

Definition multiplicative_type (op : multiplicative) : TokenType :=
  match op with Mul => MULTIPLY | Div => DIVIDE end.

(** The text of a tree. *)
Fixpoint render_factor (f : gfactor) : string :=
  match f with
  | GNumber ws literal => ws ++ literal
  | GUnary ws sign f' => ws ++ String (additive_char sign) (render_factor f')
  | GParen ws1 e ws2 => ws1 ++ String "(" (render_expr e ++ ws2 ++ ")")
  end
with render_term (t : gterm) : string :=
  match t with
  | GFactor f => render_factor f
  | GMulDiv t' ws op f =>
      render_term t' ++ ws ++ String (multiplicative_char op) (render_factor f)
  end
with render_expr (e : gexpr) : string :=
  match e with
  | GTerm t => render_term t
  | GAddSub e' ws op t =>
      render_expr e' ++ ws ++ String (additive_char op) (render_term t)
  end.

Fixpoint string_forall (f : ascii -> bool) (s : string) : bool :=
  match s with
  | "" => true
  | String c s' => f c && string_forall f s'
  end.

Definition nonempty (s : string) : bool :=
  match s with "" => false | _ => true end.

(** Well-formed trees: whitespace is whitespace, and a literal is a non-empty
    run of the characters that [Lexer::number] reads. *)
Fixpoint wf_factor (f : gfactor) : bool :=
  match f with
  | GNumber ws literal =>
      string_forall isspace ws && nonempty literal && string_forall is_numeric literal
  | GUnary ws _ f' => string_forall isspace ws && wf_factor f'
  | GParen ws1 e ws2 =>
      string_forall isspace ws1 && wf_expr e && string_forall isspace ws2
  end
with wf_term (t : gterm) : bool :=
  match t with
  | GFactor f => wf_factor f
  | GMulDiv t' ws _ f => wf_term t' && string_forall isspace ws && wf_factor f
  end
with wf_expr (e : gexpr) : bool :=
  match e with
  | GTerm t => wf_term t
  | GAddSub e' ws _ t => wf_expr e' && string_forall isspace ws && wf_term t
  end.

(** Trees with integer literals and binary operators only. *)
Fixpoint integer_factor (f : gfactor) : bool :=
  match f with
  | GNumber _ literal => string_forall isdigit literal
  | GUnary _ _ _ => false
  | GParen _ e _ => integer_expr e
  end
with integer_term (t : gterm) : bool :=
  match t with
  | GFactor f => integer_factor f
  | GMulDiv t' _ _ f => integer_term t' && integer_factor f
  end
with integer_expr (e : gexpr) : bool :=
  match e with
  | GTerm t => integer_term t
  | GAddSub e' _ _ t => integer_expr e' && integer_term t
  end.

(** The abstract syntax tree the grammar gives a text, each literal converted
    by [stod]. *)
Fixpoint ast_factor (f : gfactor) : outcome ASTNode :=
  match f with
  | GNumber _ literal => v <- stod literal;; Return (NumberNode v)
  | GUnary _ sign f' =>
      operand <- ast_factor f';;
      Return (UnaryOpNode (additive_type sign) operand)
  | GParen _ e _ => ast_expr e
  end
with ast_term (t : gterm) : outcome ASTNode :=
  match t with
  | GFactor f => ast_factor f
  | GMulDiv t' _ op f =>
      l <- ast_term t';;
      r <- ast_factor f;;
      Return (BinaryOpNode l (multiplicative_type op) r)
  end
with ast_expr (e : gexpr) : outcome ASTNode :=
  match e with
  | GTerm t => ast_term t
  | GAddSub e' _ op t =>
      l <- ast_expr e';;
      r <- ast_term t;;
      Return (BinaryOpNode l (additive_type op) r)
  end.

(** The value of a text read by the grammar, in double arithmetic: a literal
    is the double [stod] converts it to, every operator is the operation on
    doubles, and a division by a zero divisor has no value. *)
Definition apply_additive (op : additive) (a b : double) : double :=
  match op with Add => double_add a b | Sub => double_sub a b end.

Definition apply_multiplicative (op : multiplicative) (a b : double) : outcome double :=
  match op with
  | Mul => Return (double_mul a b)
  | Div => if double_eqb b (double_of_Z 0) then Throw DivisionByZero
           else Return (double_div a b)
  end.

Fixpoint value_factor (f : gfactor) : outcome double :=
  match f with
  | GNumber _ literal => stod literal
  | GUnary _ sign f' =>
      v <- value_factor f';;
      Return (match sign with Add => v | Sub => double_neg v end)
  | GParen _ e _ => value_expr e
  end
with value_term (t : gterm) : outcome double :=
  match t with
  | GFactor f => value_factor f
  | GMulDiv t' _ op f =>
      a <- value_term t';;
      b <- value_factor f;;
      apply_multiplicative op a b
  end
with value_expr (e : gexpr) : outcome double :=
  match e with
  | GTerm t => value_term t
  | GAddSub e' _ op t =>
      a <- value_expr e';;
      b <- value_term t;;
      Return (apply_additive op a b)
  end.

(** The value of a text read by the grammar, in exact rational arithmetic;
    [None] where a divisor is zero. *)
Fixpoint exact_factor (f : gfactor) : option Q :=
  match f with
  | GNumber _ literal => Some (inject_Z (decimal_value 0 literal))
  | GUnary _ sign f' =>
      match exact_factor f' with
      | Some q => Some (match sign with Add => q | Sub => Qopp q end)
      | None => None
      end
  | GParen _ e _ => exact_expr e
  end
with exact_term (t : gterm) : option Q :=
  match t with
  | GFactor f => exact_factor f
  | GMulDiv t' _ op f =>
      match exact_term t', exact_factor f with
      | Some a, Some b =>
          match op with
          | Mul => Some (Qmult a b)
          | Div => if Qeq_bool b (0 # 1) then None else Some (Qdiv a b)
          end
      | _, _ => None
      end
  end
with exact_expr (e : gexpr) : option Q :=
  match e with
  | GTerm t => exact_term t
  | GAddSub e' _ op t =>
      match exact_expr e', exact_term t with
      | Some a, Some b =>
          Some (match op with Add => Qplus a b | Sub => Qminus a b end)
      | _, _ => None
      end
  end.

(** The character the next token starts with. *)
Definition lookahead (s : string) : ascii := head (snd (span isspace s)).

(** What may follow a term, and an expression, for the rule to stop there. *)
Definition follow_term (rest : string) : bool :=
  match single_char_token (lookahead rest) with
  | Some MULTIPLY | Some DIVIDE => false
  | _ => true
  end.

Definition follow_expr (rest : string) : bool :=
  match single_char_token (lookahead rest) with
  | Some MULTIPLY | Some DIVIDE | Some PLUS | Some MINUS => false
  | _ => true
  end.

(** [Parser(text).parse()]: the tree of a text. *)
Definition parse_text (text : string) : outcome ASTNode :=
  p <- new_Parser text;;
  '(node, _) <- parse p;;
  Return node.

(** [n] successive calls of [get_next_token]. *)
Fixpoint next_tokens (n : nat) (lx : Lexer) : outcome (list Token * Lexer) :=
  match n with
  | O => Return ([], lx)
  | S n' =>
      '(tok, lx1) <- get_next_token lx;;
      '(toks, lx2) <- next_tokens n' lx1;;
      Return (tok :: toks, lx2)
  end.

(** Trees whose operators are those of the grammar. *)
Fixpoint operators_ok (n : ASTNode) : bool :=
  match n with
  | NumberNode _ => true
  | BinaryOpNode l op r =>
      match op with
      | PLUS | MINUS | MULTIPLY | DIVIDE => operators_ok l && operators_ok r
      | _ => false
      end
  | UnaryOpNode op operand =>
      match op with
      | PLUS | MINUS => operators_ok operand
      | _ => false
      end
  end.

(** A run of unary signs before a factor, and the nest of unary nodes it
    stands for. *)
Fixpoint unary_run (signs : list (string * additive)) (f : gfactor) : gfactor :=
  match signs with
  | [] => f
  | (ws, sign) :: signs' => GUnary ws sign (unary_run signs' f)
  end.

Fixpoint unary_nest (signs : list (string * additive)) (node : ASTNode) : ASTNode :=
  match signs with
  | [] => node
  | (_, sign) :: signs' => UnaryOpNode (additive_type sign) (unary_nest signs' node)
  end.

(** The number of unary nodes on the spine of a tree. *)
Fixpoint unary_depth (node : ASTNode) : nat :=
  match node with
  | UnaryOpNode _ operand => S (unary_depth operand)
  | _ => 0
  end.

(** ** Notions used by the proofs *)

(** [Timeout] is the least outcome: [approx r r'] when [r'] is [r] or [r] is
    out of fuel. *)
Definition approx {A : Type} (r r' : outcome A) : Prop := r = Timeout \/ r = r'.

(** The parser states of the program: the lexer is at a split of its input,
    and it has reached the sentinel when the buffered token is the end
    marker. *)
Definition parser_ok (p : Parser) : Prop :=
  exists pre suf,
    lexer p = lexer_at pre suf
    /\ (type (current_token p) = END_OF_FILE -> is_nul (head suf) = true).

(** A rule has finished, on a state of the program and without reading
    backwards. *)
Definition settles (p : Parser) (r : outcome (ASTNode * Parser)) : Prop :=
  match r with
  | Return (_, p') =>
      parser_ok p' /\ remaining p' <= remaining p
      /\ input (lexer p') = input (lexer p)
  | Throw _ => True
  | Timeout => False
  end.

(** From some fuel on, the outcome is [r]. *)
Definition eventually {A : Type} (f : nat -> outcome A) (r : outcome A) : Prop :=
  exists fuel0, forall fuel, fuel0 <= fuel -> f fuel = r.

(** What each rule does on a text of its nonterminal that is followed by
    [rest]: it returns the tree of the text and stops before [rest].  For the
    two rules that loop, the loop is entered with that tree. *)
Definition factor_spec (f : gfactor) : Prop :=
  wf_factor f = true ->
  forall node, ast_factor f = Return node ->
  forall pre rest, is_numeric (head rest) = false ->
  eventually (fun fuel => p <- start pre (render_factor f ++ rest);; factor fuel p)
             (p' <- start (pre ++ render_factor f) rest;; Return (node, p')).

Definition term_spec (t : gterm) : Prop :=
  wf_term t = true ->
  forall node, ast_term t = Return node ->
  forall pre rest, is_numeric (head rest) = false ->
  forall r,
    eventually (fun fuel => p' <- start (pre ++ render_term t) rest;;
                            term_loop fuel node p') r ->
    eventually (fun fuel => p <- start pre (render_term t ++ rest);; term fuel p) r.

Definition expr_spec (e : gexpr) : Prop :=
  wf_expr e = true ->
  forall node, ast_expr e = Return node ->
  forall pre rest, is_numeric (head rest) = false -> follow_term rest = true ->
  forall r,
    eventually (fun fuel => p' <- start (pre ++ render_expr e) rest;;
                            expr_loop fuel node p') r ->
    eventually (fun fuel => p <- start pre (render_expr e ++ rest);; expr fuel p) r.

(** The step of the pipeline that raised [cause]: the constructor of the
    parser (the first token), the parse, or the evaluation of the tree. *)
Definition fails_with (text : string) (cause : exception) : Prop :=
  new_Parser text = Throw cause
  \/ (exists p, new_Parser text = Return p /\ parse p = Throw cause)
  \/ (exists p ast p',
         new_Parser text = Return p /\ parse p = Return (ast, p')
         /\ evaluate ast = Throw cause).

Definition no_nul (s : string) : bool :=
  string_forall (fun c => negb (is_nul c)) s.

Definition spaces_before (signs : list (string * additive)) : bool :=
  forallb (fun x => string_forall isspace (fst x)) signs.

(** ** Exact values

    The exact value of a text, and the doubles that are integers. *)

(** The claim of exactness: the pipeline returns a double that stands for the
    exact rational value of the text. *)
Definition evaluates_exactly (e : gexpr) (ws : string) : Prop :=
  forall q, exact_expr e = Some q ->
  exists v q',
    compile_and_evaluate (render_expr e ++ ws) = Return v
    /\ double_to_Q v = Some q' /\ (q' == q)%Q.

Section IntegerValues.
Local Open Scope Z_scope.

(** [scaled m e n]: the mantissa [m] with the exponent [e] stands for the
    integer [n], that is [m * 2^e = n]. *)
Definition scaled (m : positive) (e : Z) (n : Z) : Prop :=
  Zpos m * 2 ^ Z.max 0 e = n * 2 ^ Z.max 0 (- e).

(** [is_integer d z]: the double [d] is the integer [z]. *)
Definition is_integer (d : double) (z : Z) : Prop :=
  match d with
  | S754_zero _ => z = 0
  | S754_finite s m e => scaled m e (if s then - z else z)
  | _ => False
  end.

(** Integers of magnitude below [2^53]. *)
Definition small (z : Z) : bool := (- 2 ^ 53 <? z) && (z <? 2 ^ 53).

(** The value of a text in integer arithmetic, where every literal and every
    intermediate result is an integer of magnitude below [2^53] (so that no
    operation rounds) and no divisor is zero; [None] otherwise. *)
Fixpoint integer_value_factor (f : gfactor) : option Z :=
  match f with
  | GNumber _ literal =>
      let n := decimal_value 0 literal in
      if small n then Some n else None
  | GUnary _ _ _ => None
  | GParen _ e _ => integer_value_expr e
  end
with integer_value_term (t : gterm) : option Z :=
  match t with
  | GFactor f => integer_value_factor f
  | GMulDiv t' _ op f =>
      match integer_value_term t', integer_value_factor f with
      | Some a, Some b =>
          match op with
          | Mul => if small (a * b) then Some (a * b) else None
          | Div => if b =? 0 then None
                   else if a mod b =? 0 then Some (a / b) else None
          end
      | _, _ => None
      end
  end
with integer_value_expr (e : gexpr) : option Z :=
  match e with
  | GTerm t => integer_value_term t
  | GAddSub e' _ op t =>
      match integer_value_expr e', integer_value_term t with
      | Some a, Some b =>
          let c := match op with Add => a + b | Sub => a - b end in
          if small c then Some c else None
      | _, _ => None
      end
  end.

End IntegerValues.

(** ** Texts and values used as examples *)

Definition one_third : gexpr :=
  GTerm (GMulDiv (GFactor (GNumber "" "1")) " " Div (GNumber " " "3")).

Definition three_tenths : gexpr :=
  GTerm (GMulDiv (GMulDiv (GFactor (GNumber "" "1")) " " Div (GNumber " " "10"))
                 " " Mul (GNumber " " "3")).

Definition two_plus_three_times_four : gexpr :=
  GAddSub (GTerm (GFactor (GNumber "" "2"))) " " Add
          (GMulDiv (GFactor (GNumber " " "3")) " " Mul (GNumber " " "4")).

Definition one_point_two : double := S754_finite false 5404319552844595 (-52).

(** ** Output

    [std::cout] is the list of the insertions made so far: a text, a double
    (left to the stream to format) or [std::endl].  A computation that writes
    returns the insertions together with its outcome: what was inserted
    before an exception stays inserted.  What has been output for certain is
    the part that [std::endl] has flushed ([flushed], below). *)

Inductive out_item : Type :=
| Text (s : string)
| Value (d : double)
| Endl.

Definition ostream : Type := list out_item.

Definition io (A : Type) : Type := ostream -> ostream * outcome A.

Definition io_ret {A : Type} (a : A) : io A := fun out => (out, Return a).

Definition io_bind {A B : Type} (c : io A) (k : A -> io B) : io B :=
  fun out =>
    match c out with
    | (out', Return a) => k a out'
    | (out', Throw e) => (out', Throw e)
    | (out', Timeout) => (out', Timeout)
    end.

(** [std::cout << item1 << item2 ...] *)
Definition put (items : list out_item) : io unit :=
  fun out => ((out ++ items)%list, Return tt).

(** A computation that writes nothing. *)
Definition lift {A : Type} (c : outcome A) : io A := fun out => (out, c).

Declare Scope io_scope.
Delimit Scope io_scope with io.
Notation "x <- c ;; k" := (io_bind c (fun x => k))
  (at level 61, c at next level, right associativity) : io_scope.
Notation "' pat <- c ;; k" := (io_bind c (fun x => match x with pat => k end))
  (at level 61, pat pattern, c at next level, right associativity) : io_scope.
Notation "c ;; k" := (io_bind c (fun _ => k))
  (at level 61, right associativity) : io_scope.

(** ** [ArithmeticCompiler::print_tokens] *)

(** The double quote character. *)
Definition quote : ascii := "034"%char.

(** The first line that [print_tokens] writes. *)
Definition print_header (expression : string) : list out_item :=
  [Text ("Tokens for " ++ String quote ""); Text expression;
   Text (String quote ":"); Endl].

(** The [switch] of [print_tokens]. *)
Definition print_token (token : Token) : list out_item :=
  match type token with
  | NUMBER => [Text "NUMBER("; Value (value token); Text ") "]
  | PLUS => [Text "PLUS "]
  | MINUS => [Text "MINUS "]
  | MULTIPLY => [Text "MULTIPLY "]
  | DIVIDE => [Text "DIVIDE "]
  | LPAREN => [Text "LPAREN "]
  | RPAREN => [Text "RPAREN "]
  | END_OF_FILE => []
  end.

Fixpoint print_tokens_loop (fuel : nat) (lx : Lexer) (token : Token) : io unit :=
  match fuel with
  | O => lift Timeout
  | S fuel' =>
      if negb (TokenType_eqb (type token) END_OF_FILE)
      then (put (print_token token);;
            '(token', lx') <- lift (get_next_token lx);;
            print_tokens_loop fuel' lx' token')%io
      else io_ret tt
  end.

(** Every token but the end marker consumes a character, which bounds the
    iterations of the loop: the fuel given here is never exhausted. *)
Definition print_tokens (expression : string) : io unit :=
  (put (print_header expression);;
   '(token, lx) <- lift (get_next_token (new_Lexer expression));;
   print_tokens_loop (String.length expression + 2) lx token;;
   put [Text "EOF"; Endl; Endl])%io.

(** The loop of [print_tokens] entered at a scan point. *)
Definition print_from (fuel : nat) (pre s : string) : io unit :=
  fun out =>
    match start pre s with
    | Return p => print_tokens_loop fuel (lexer p) (current_token p) out
    | Throw e => (out, Throw e)
    | Timeout => (out, Timeout)
    end.

(** ** [main]

    What the loop of [main] does with one line, once [std::getline] has read
    it into [expression]: it leaves the loop ([Break]) or goes on to the next
    line ([Continue]); an exception that no handler of [main] catches leaves
    the loop as a [Throw], with the insertions made before it.  Such an
    exception leaves [main] too: [std::terminate] ends the program, and of
    those insertions only the flushed ones are sure to have been output. *)
Inductive loop_control : Type := Break | Continue.

(** [s.substr(pos, len)] and [s.substr(pos)], for [pos] within [s] (as it is
    at both calls in [main]). *)
Definition substr (s : string) (pos len : nat) : string := String.substring pos len s.

Definition substr_from (s : string) (pos : nat) : string :=
  String.substring pos (String.length s - pos) s.

Definition main_iteration (expression : string) : io loop_control :=
  if String.eqb expression "quit" then io_ret Break
  else if String.eqb (substr expression 0 6) "tokens" then
    if 7 <? String.length expression
    then (print_tokens (substr_from expression 7);; io_ret Continue)%io
    else (put [Text "Usage: tokens <expression>"; Endl];; io_ret Continue)%io
  else if String.eqb expression "" then io_ret Continue
  else
    ((match compile_and_evaluate expression with
      | Return result => put [Text "Result: "; Value result; Endl]
      | Throw e => put [Text "Error: "; Text (what e); Endl]
      | Timeout => lift Timeout
      end);;
     put [Endl];;
     io_ret Continue)%io.

(** ** Further notions used by the proofs *)

(** Characters that start no token. *)
Definition unrecognized (c : ascii) : bool :=
  negb (is_nul c) && negb (isspace c) && negb (is_numeric c)
  && match single_char_token c with Some _ => false | None => true end.

(** A text without its whitespace characters. *)
Fixpoint remove_spaces (s : string) : string :=
  match s with
  | "" => ""
  | String c s' => if isspace c then remove_spaces s' else String c (remove_spaces s')
  end.

(** A tree without the whitespace written in it. *)
Fixpoint strip_factor (f : gfactor) : gfactor :=
  match f with
  | GNumber _ literal => GNumber "" literal
  | GUnary _ sign f' => GUnary "" sign (strip_factor f')
  | GParen _ e _ => GParen "" (strip_expr e) ""
  end
with strip_term (t : gterm) : gterm :=
  match t with
  | GFactor f => GFactor (strip_factor f)
  | GMulDiv t' _ op f => GMulDiv (strip_term t') "" op (strip_factor f)
  end
with strip_expr (e : gexpr) : gexpr :=
  match e with
  | GTerm t => GTerm (strip_term t)
  | GAddSub e' _ op t => GAddSub (strip_expr e') "" op (strip_term t)
  end.

(** The number of minus signs in a run of unary signs. *)
Fixpoint minus_signs (signs : list (string * additive)) : nat :=
  match signs with
  | [] => 0
  | (_, Sub) :: signs' => S (minus_signs signs')
  | (_, Add) :: signs' => minus_signs signs'
  end.

(** Sequences of tokens as they are written: a lexeme is the text of one
    token with the whitespace before it. *)
Inductive lexeme : Type :=
| LNumber (ws literal : string)
| LSymbol (ws : string) (c : ascii).

Fixpoint render_lexemes (ls : list lexeme) : string :=
  match ls with
  | [] => ""
  | LNumber ws literal :: ls' => ws ++ literal ++ render_lexemes ls'
  | LSymbol ws c :: ls' => ws ++ String c (render_lexemes ls')
  end.

(** Well-formed lexemes before the text [rest]: a literal is a non-empty run
    of digits and ['.'] that the following text does not prolong, and a
    symbol is one of the six of the language. *)
Fixpoint wf_lexemes (ls : list lexeme) (rest : string) : bool :=
  match ls with
  | [] => true
  | LNumber ws literal :: ls' =>
      string_forall isspace ws && nonempty literal
      && string_forall is_numeric literal
      && negb (is_numeric (head (render_lexemes ls' ++ rest)))
      && wf_lexemes ls' rest
  | LSymbol ws c :: ls' =>
      string_forall isspace ws
      && match single_char_token c with Some _ => true | None => false end
      && wf_lexemes ls' rest
  end.

(** The tokens of a sequence of lexemes. *)
Fixpoint tokens_of (ls : list lexeme) : outcome (list Token) :=
  match ls with
  | [] => Return []
  | LNumber _ literal :: ls' =>
      v <- stod literal;;
      toks <- tokens_of ls';;
      Return (mkToken NUMBER v :: toks)
  | LSymbol _ c :: ls' =>
      match single_char_token c with
      | Some t => toks <- tokens_of ls';; Return (Token1 t :: toks)
      | None => Throw (InvalidCharacter c)
      end
  end.

(** What a successful read of a token at a scan point says about the text
    after it: whitespace, then the end of the input (or a NUL character), a
    literal that [std::stod] converts, or one of the six symbols. *)
Inductive starts (pre s : string) (p : Parser) : Prop :=
| starts_end (ws s1 : string) :
    s = ws ++ s1 -> string_forall isspace ws = true ->
    is_nul (head s1) = true ->
    p = mkParser (lexer_at (pre ++ ws) s1) (Token1 END_OF_FILE) ->
    starts pre s p
| starts_number (ws literal rest : string) (v : double) :
    s = ws ++ literal ++ rest -> string_forall isspace ws = true ->
    nonempty literal = true -> string_forall is_numeric literal = true ->
    is_numeric (head rest) = false -> stod literal = Return v ->
    p = mkParser (lexer_at ((pre ++ ws) ++ literal) rest) (mkToken NUMBER v) ->
    starts pre s p
| starts_symbol (ws : string) (c : ascii) (t : TokenType) (rest : string) :
    s = ws ++ String c rest -> string_forall isspace ws = true ->
    single_char_token c = Some t ->
    p = mkParser (lexer_at ((pre ++ ws) ++ String c "") rest) (Token1 t) ->
    starts pre s p.

(** The symbols that cannot start an operand. *)
Definition no_operand (c : ascii) : bool :=
  match single_char_token c with
  | Some MULTIPLY | Some DIVIDE | Some RPAREN => true
  | _ => false
  end.

(** The exceptions of the lexer: its own, and the two of [std::stod]. *)
Definition lexical_error (e : exception) : Prop :=
  (exists c, unrecognized c = true /\ e = InvalidCharacter c)
  \/ e = invalid_argument "stod" \/ e = out_of_range "stod".

(** The exceptions of the grammar rules. *)
Definition syntax_error (e : exception) : Prop :=
  e = InvalidSyntax \/ e = UnexpectedToken \/ lexical_error e.

(** A further example. *)
Definition two_plus_three : gexpr :=
  GAddSub (GTerm (GFactor (GNumber "" "2"))) " " Add (GFactor (GNumber " " "3")).

(** ** Places where an operand is expected

    The texts after which the parser is about to call one of its rules, by
    the rule and by what it has read on the way there: [expr] is called at
    the start of the line and after an opening parenthesis; [term] where
    [expr] is, and after an additive operator that follows an expression;
    [factor] where [term] is, after a multiplicative operator that follows a
    term, and after a unary sign. *)
Inductive expr_place : Type :=
| AtStart
| AfterParen (p : factor_place) (ws : string)
with term_place : Type :=
| TermOfExpr (p : expr_place)
| AfterAdditive (p : expr_place) (e : gexpr) (ws : string) (op : additive)
with factor_place : Type :=
| FactorOfTerm (p : term_place)
| AfterMultiplicative (p : term_place) (t : gterm) (ws : string) (op : multiplicative)
| AfterSign (p : factor_place) (ws : string) (sign : additive).

Scheme expr_place_ind3 := Induction for expr_place Sort Prop
  with term_place_ind3 := Induction for term_place Sort Prop
  with factor_place_ind3 := Induction for factor_place Sort Prop.
Combined Scheme place_ind from expr_place_ind3, term_place_ind3, factor_place_ind3.

(** The text before a place. *)
Fixpoint render_expr_place (p : expr_place) : string :=
  match p with
  | AtStart => ""
  | AfterParen p' ws => render_factor_place p' ++ ws ++ "("
  end
with render_term_place (p : term_place) : string :=
  match p with
  | TermOfExpr p' => render_expr_place p'
  | AfterAdditive p' e ws op =>
      render_expr_place p' ++ render_expr e ++ ws ++ String (additive_char op) ""
  end
with render_factor_place (p : factor_place) : string :=
  match p with
  | FactorOfTerm p' => render_term_place p'
  | AfterMultiplicative p' t ws op =>
      render_term_place p' ++ render_term t ++ ws
      ++ String (multiplicative_char op) ""
  | AfterSign p' ws sign => render_factor_place p' ++ ws ++ String (additive_char sign) ""
  end.

(** Trees whose literals all convert. *)
Definition converts_term (t : gterm) : bool :=
  match ast_term t with Return _ => true | _ => false end.

Definition converts_expr (e : gexpr) : bool :=
  match ast_expr e with Return _ => true | _ => false end.

(** Well-formed places: whitespace is whitespace, and the operands already
    read are well-formed and convert. *)
Fixpoint wf_expr_place (p : expr_place) : bool :=
  match p with
  | AtStart => true
  | AfterParen p' ws => wf_factor_place p' && string_forall isspace ws
  end
with wf_term_place (p : term_place) : bool :=
  match p with
  | TermOfExpr p' => wf_expr_place p'
  | AfterAdditive p' e ws _ =>
      wf_expr_place p' && wf_expr e && converts_expr e && string_forall isspace ws
  end
with wf_factor_place (p : factor_place) : bool :=
  match p with
  | FactorOfTerm p' => wf_term_place p'
  | AfterMultiplicative p' t ws _ =>
      wf_term_place p' && wf_term t && converts_term t && string_forall isspace ws
  | AfterSign p' ws _ => wf_factor_place p' && string_forall isspace ws
  end.

(** The place after a complete expression and a binary operator. *)
Definition after_additive (e : gexpr) (ws : string) (op : additive) : factor_place :=
  FactorOfTerm (AfterAdditive AtStart e ws op).

Definition after_multiplicative (e : gexpr) (ws : string) (op : multiplicative)
  : factor_place :=
  match e with
  | GTerm t => AfterMultiplicative (TermOfExpr AtStart) t ws op
  | GAddSub e' ws' op' t =>
      AfterMultiplicative (AfterAdditive AtStart e' ws' op') t ws op
  end.

(** A text with a place where an operand is expected and none is found: what
    follows is the end of the input (or a NUL character), or a symbol that
    starts no operand. *)
Definition no_operand_at (text : string) : Prop :=
  exists p ws rest,
    text = render_factor_place p ++ ws ++ rest
    /\ wf_factor_place p = true /\ string_forall isspace ws = true
    /\ is_nul (head rest) || no_operand (head rest) = true.

(** Tokens other than the end marker. *)
Definition visible (toks : list Token) : bool :=
  forallb (fun t => negb (TokenType_eqb (type t) END_OF_FILE)) toks.

Definition is_endl (item : out_item) : bool :=
  match item with Endl => true | _ => false end.

(** [std::endl] flushes [std::cout]: of the insertions made so far, those up
    to the last [std::endl] have been output for certain.  When an exception
    leaves [main], [std::terminate] ends the program without flushing
    [std::cout], so that nothing more than this part is sure to be output. *)
Fixpoint flushed (out : ostream) : ostream :=
  match out with
  | [] => []
  | item :: out' => if existsb is_endl out then item :: flushed out' else []
  end.

(** A text with a NUL character in it. *)
Definition nul_text : string := String "2" (String NUL "+3)").

(** ** Facts about strings *)

Lemma string_app_nil_r (s : string) : s ++ "" = s.
Proof. induction s as [|c s IH]; simpl; [reflexivity | now rewrite IH]. Qed.

Lemma string_app_assoc (a b c : string) : (a ++ b) ++ c = a ++ (b ++ c).
Proof. induction a as [|x a IH]; simpl; [reflexivity | now rewrite IH]. Qed.

Lemma string_length_app (a b : string) :
  String.length (a ++ b) = String.length a + String.length b.
Proof. induction a as [|x a IH]; simpl; [reflexivity | now rewrite IH]. Qed.

Lemma get_app_length (a b : string) :
  String.get (String.length a) (a ++ b) = String.get 0 b.
Proof. induction a as [|x a IH]; simpl; [reflexivity | exact IH]. Qed.

Lemma span_app (f : ascii -> bool) (s : string) :
  fst (span f s) ++ snd (span f s) = s.
Proof.
  induction s as [|c s IH]; simpl; [reflexivity|].
  destruct (f c); [|reflexivity].
  destruct (span f s) as [run rest]; simpl in *. now rewrite IH.
Qed.

Lemma span_length (f : ascii -> bool) (s : string) :
  String.length (snd (span f s)) <= String.length s.
Proof.
  induction s as [|c s IH]; simpl; [lia|].
  destruct (f c); simpl; [|lia].
  destruct (span f s) as [run rest]; simpl in *. lia.
Qed.

Lemma span_head (f : ascii -> bool) (s : string) :
  match snd (span f s) with
  | "" => True
  | String c _ => f c = false
  end.
Proof.
  induction s as [|c s IH]; simpl; [exact I|].
  destruct (f c) eqn:E; simpl; [|exact E].
  destruct (span f s) as [run rest]; simpl in *. exact IH.
Qed.

(** ** Facts about characters *)

Lemma is_nul_true (c : ascii) : is_nul c = true -> c = NUL.
Proof. unfold is_nul. apply Ascii.eqb_eq. Qed.

Lemma isspace_not_nul (c : ascii) : isspace c = true -> is_nul c = false.
Proof.
  destruct (is_nul c) eqn:E; [|reflexivity].
  apply is_nul_true in E. subst c. discriminate.
Qed.

Lemma is_numeric_not_nul (c : ascii) : is_numeric c = true -> is_nul c = false.
Proof.
  destruct (is_nul c) eqn:E; [|reflexivity].
  apply is_nul_true in E. subst c. discriminate.
Qed.

Lemma is_numeric_not_space (c : ascii) : is_numeric c = true -> isspace c = false.
Proof.
  unfold is_numeric, isdigit, is_dot, isspace.
  destruct (Ascii.eqb_spec c "."%char) as [->|_]; [reflexivity|].
  rewrite orb_false_r, andb_true_iff, !N.leb_le. intros [H1 H2].
  apply orb_false_iff. split.
  - apply andb_false_iff. right. apply N.leb_gt. lia.
  - apply N.eqb_neq. lia.
Qed.

(** ** The lexer on split states *)

(** The invariant of the class on a split state: the position is within the
    input, and the cached character is the one at the position, or the
    sentinel when the input is exhausted. *)
Lemma lexer_at_invariant (pre suf : string) :
  let lx := lexer_at pre suf in
  position lx <= String.length (input lx)
  /\ current_char lx = char_at (input lx) (position lx)
  /\ (position lx = String.length (input lx) -> current_char lx = NUL).
Proof.
  unfold lexer_at; cbn. rewrite string_length_app. split; [lia|]. split.
  - unfold char_at. rewrite get_app_length. now destruct suf.
  - intros H. destruct suf; [reflexivity | simpl in H; lia].
Qed.

Lemma advance_at (pre : string) (c : ascii) (suf : string) :
  advance (lexer_at pre (String c suf)) = lexer_at (pre ++ String c "") suf.
Proof.
  unfold advance, lexer_at; simpl.
  rewrite string_app_assoc; simpl.
  rewrite !string_length_app; simpl.
  replace (String.length pre + 1) with (S (String.length pre)) by lia.
  destruct suf as [|d suf]; simpl.
  - replace (String.length pre + 1 <=? S (String.length pre)) with true
      by (symmetry; apply Nat.leb_le; lia).
    reflexivity.
  - replace (String.length pre + S (S (String.length suf)) <=? S (String.length pre))
      with false by (symmetry; apply Nat.leb_gt; lia).
    f_equal. unfold char_at.
    replace (S (String.length pre)) with (String.length (pre ++ String c "")).
    + replace (pre ++ String c (String d suf)) with ((pre ++ String c "") ++ String d suf).
      * now rewrite get_app_length.
      * now rewrite string_app_assoc.
    + rewrite string_length_app; simpl; lia.
Qed.

Lemma loop_bound_at (pre suf : string) :
  loop_bound (lexer_at pre suf) = S (S (String.length suf)).
Proof.
  unfold loop_bound, lexer_at; simpl. rewrite string_length_app.
  f_equal. f_equal. lia.
Qed.

Lemma skip_whitespace_loop_at (suf pre : string) (fuel : nat) :
  String.length suf < fuel ->
  skip_whitespace_loop fuel (lexer_at pre suf)
  = Return (lexer_at (pre ++ fst (span isspace suf)) (snd (span isspace suf))).
Proof.
  revert pre fuel. induction suf as [|c suf IH]; intros pre fuel Hf;
    (destruct fuel as [|fuel]; [simpl in Hf; lia|]).
  - simpl. now rewrite string_app_nil_r.
  - cbn [skip_whitespace_loop]. cbn [lexer_at current_char head span].
    destruct (isspace c) eqn:Hc.
    + rewrite (isspace_not_nul _ Hc). cbn [negb andb].
      rewrite advance_at, IH by (simpl in Hf; lia).
      destruct (span isspace suf) as [run rest]; simpl.
      now rewrite string_app_assoc.
    + rewrite andb_false_r. simpl. now rewrite string_app_nil_r.
Qed.

Lemma skip_whitespace_at (pre suf : string) :
  skip_whitespace (lexer_at pre suf)
  = Return (lexer_at (pre ++ fst (span isspace suf)) (snd (span isspace suf))).
Proof.
  unfold skip_whitespace. rewrite loop_bound_at.
  apply skip_whitespace_loop_at. lia.
Qed.

Lemma number_loop_at (suf pre num_str : string) (fuel : nat) :
  String.length suf < fuel ->
  number_loop fuel num_str (lexer_at pre suf)
  = Return (num_str ++ fst (span is_numeric suf),
            lexer_at (pre ++ fst (span is_numeric suf)) (snd (span is_numeric suf))).
Proof.
  revert pre num_str fuel.
  induction suf as [|c suf IH]; intros pre num_str fuel Hf;
    (destruct fuel as [|fuel]; [simpl in Hf; lia|]).
  - simpl. now rewrite !string_app_nil_r.
  - cbn [number_loop]. cbn [lexer_at current_char head span].
    fold (is_numeric c).
    destruct (is_numeric c) eqn:Hc.
    + rewrite (is_numeric_not_nul _ Hc). cbn [negb andb].
      rewrite advance_at, IH by (simpl in Hf; lia).
      destruct (span is_numeric suf) as [run rest]; simpl.
      now rewrite !string_app_assoc.
    + rewrite andb_false_r. simpl. now rewrite !string_app_nil_r.
Qed.

Lemma number_at (pre suf : string) :
  number (lexer_at pre suf)
  = (v <- stod (fst (span is_numeric suf));;
     Return (v, lexer_at (pre ++ fst (span is_numeric suf)) (snd (span is_numeric suf)))).
Proof.
  unfold number. rewrite loop_bound_at, number_loop_at by lia. reflexivity.
Qed.

Lemma get_next_token_loop_token (fuel : nat) (pre s1 : string) :
  isspace (head s1) = false ->
  get_next_token_loop (S fuel) (lexer_at pre s1) = scan_token pre s1.
Proof.
  intros Hs. destruct s1 as [|c s2]; [reflexivity|].
  cbn [head] in Hs.
  cbn [get_next_token_loop scan_token]. cbn [lexer_at current_char head].
  destruct (is_nul c) eqn:Hnul; [reflexivity|].
  rewrite Hs. fold (is_numeric c).
  destruct (is_numeric c) eqn:Hnum.
  - rewrite number_at.
    destruct (span is_numeric (String c s2)) as [run rest]; simpl.
    destruct (stod run); reflexivity.
  - rewrite !advance_at. unfold single_char_token.
    repeat (match goal with |- context [Ascii.eqb c ?x] => destruct (Ascii.eqb c x) end;
            [reflexivity|]).
    reflexivity.
Qed.

Lemma span_isspace_head (s : string) : isspace (head (snd (span isspace s))) = false.
Proof.
  pose proof (span_head isspace s) as H.
  destruct (snd (span isspace s)); [reflexivity | exact H].
Qed.

(** [get_next_token] never runs out of fuel on a state of the program, and
    is the function [scan] of the text that is left. *)
Lemma get_next_token_at (pre suf : string) :
  get_next_token (lexer_at pre suf) = scan pre suf.
Proof.
  unfold get_next_token, scan. rewrite loop_bound_at.
  destruct (isspace (head suf)) eqn:Hs.
  - destruct suf as [|c s2]; [discriminate|]. cbn [head] in Hs.
    cbn [get_next_token_loop]. cbn [lexer_at current_char head].
    rewrite (isspace_not_nul _ Hs), Hs.
    change (mkLexer (pre ++ String c s2) (String.length pre) c)
      with (lexer_at pre (String c s2)).
    rewrite skip_whitespace_at. cbn [bind].
    pose proof (span_isspace_head (String c s2)) as Hh.
    destruct (span isspace (String c s2)) as [ws s1]. cbn [fst snd] in *.
    now apply get_next_token_loop_token.
  - rewrite get_next_token_loop_token by exact Hs.
    destruct suf as [|c s2]; simpl; [now rewrite string_app_nil_r|].
    cbn [head] in Hs. rewrite Hs. now rewrite string_app_nil_r.
Qed.

(** ** Fuel: more fuel never changes an outcome

    [Timeout] is the bottom of a flat order on outcomes; each function of the
    parser is a chain in its fuel. *)

Lemma approx_refl {A : Type} (r : outcome A) : approx r r.
Proof. now right. Qed.

Lemma approx_bind {A B : Type} (c c' : outcome A) (k k' : A -> outcome B) :
  approx c c' -> (forall a, approx (k a) (k' a)) -> approx (bind c k) (bind c' k').
Proof.
  intros [->| <-] Hk; [now left|].
  destruct c as [a| |]; simpl; [apply Hk | now right | now left].
Qed.

Lemma approx_defined {A : Type} (r r' : outcome A) :
  approx r r' -> r <> Timeout -> r' = r.
Proof. intros [->| <-] H; [contradiction | reflexivity]. Qed.

Ltac approx_step :=
  match goal with
  | |- approx (bind _ _) (bind _ _) => apply approx_bind; [|intros ?]
  | |- approx (match ?x with (_, _) => _ end) _ => destruct x
  | |- approx (match type ?t with _ => _ end) _ => destruct (type t)
  | |- approx ?r ?r => apply approx_refl
  | H : _ |- _ => now apply H
  end.

Lemma parser_fuel_step (fuel : nat) :
  (forall p, approx (factor fuel p) (factor (S fuel) p))
  /\ (forall p, approx (term fuel p) (term (S fuel) p))
  /\ (forall node p, approx (term_loop fuel node p) (term_loop (S fuel) node p))
  /\ (forall p, approx (expr fuel p) (expr (S fuel) p))
  /\ (forall node p, approx (expr_loop fuel node p) (expr_loop (S fuel) node p)).
Proof.
  induction fuel as [|fuel (IHf & IHt & IHtl & IHe & IHel)].
  - repeat split; intros; now left.
  - repeat split; intros.
    + change (approx (factor (S fuel) p) (factor (S (S fuel)) p)).
      cbn [factor]. repeat approx_step.
    + cbn [term]. repeat approx_step.
    + cbn [term_loop]. repeat approx_step.
    + cbn [expr]. repeat approx_step.
    + cbn [expr_loop]. repeat approx_step.
Qed.

Lemma approx_trans {A : Type} (a b c : outcome A) : approx a b -> approx b c -> approx a c.
Proof. intros [->| <-] H; [now left | exact H]. Qed.

Lemma factor_fuel_mono (fuel fuel' : nat) (p : Parser) :
  fuel <= fuel' -> approx (factor fuel p) (factor fuel' p).
Proof.
  induction 1 as [|n _ IH]; [apply approx_refl|].
  eapply approx_trans; [exact IH | apply parser_fuel_step].
Qed.

Lemma term_fuel_mono (fuel fuel' : nat) (p : Parser) :
  fuel <= fuel' -> approx (term fuel p) (term fuel' p).
Proof.
  induction 1 as [|n _ IH]; [apply approx_refl|].
  eapply approx_trans; [exact IH | apply parser_fuel_step].
Qed.

Lemma term_loop_fuel_mono (fuel fuel' : nat) (node : ASTNode) (p : Parser) :
  fuel <= fuel' -> approx (term_loop fuel node p) (term_loop fuel' node p).
Proof.
  induction 1 as [|n _ IH]; [apply approx_refl|].
  eapply approx_trans; [exact IH | apply parser_fuel_step].
Qed.

Lemma expr_fuel_mono (fuel fuel' : nat) (p : Parser) :
  fuel <= fuel' -> approx (expr fuel p) (expr fuel' p).
Proof.
  induction 1 as [|n _ IH]; [apply approx_refl|].
  eapply approx_trans; [exact IH | apply parser_fuel_step].
Qed.

Lemma expr_loop_fuel_mono (fuel fuel' : nat) (node : ASTNode) (p : Parser) :
  fuel <= fuel' -> approx (expr_loop fuel node p) (expr_loop fuel' node p).
Proof.
  induction 1 as [|n _ IH]; [apply approx_refl|].
  eapply approx_trans; [exact IH | apply parser_fuel_step].
Qed.

(** ** Fuel: [parse_fuel] is enough *)

Lemma span_numeric_shorter (c : ascii) (s2 : string) :
  is_numeric c = true ->
  String.length (snd (span is_numeric (String c s2))) <= String.length s2.
Proof.
  intros Hc. simpl. rewrite Hc.
  pose proof (span_length is_numeric s2).
  destruct (span is_numeric s2); simpl in *. lia.
Qed.

Lemma scan_token_inv (pre s1 : string) (tok : Token) (lx : Lexer) :
  scan_token pre s1 = Return (tok, lx) ->
  exists pre' suf',
    lx = lexer_at pre' suf'
    /\ pre' ++ suf' = pre ++ s1
    /\ (if TokenType_eqb (type tok) END_OF_FILE
        then suf' = s1 /\ is_nul (head s1) = true
        else String.length suf' < String.length s1).
Proof.
  destruct s1 as [|c s2]; simpl.
  - intros [= <- <-]. now exists pre, "".
  - destruct (is_nul c) eqn:Hnul.
    + intros [= <- <-]. now exists pre, (String c s2).
    + destruct (is_numeric c) eqn:Hnum.
      * pose proof (span_numeric_shorter c s2 Hnum) as Hlen.
        pose proof (span_app is_numeric s2) as Happ.
        simpl in Hlen. rewrite Hnum in Hlen.
        destruct (span is_numeric s2) as [run rest]. simpl in Hlen, Happ.
        destruct (stod (String c run)); simpl; try discriminate.
        intros [= <- <-]. exists (pre ++ String c run), rest.
        split; [reflexivity|]. split; [|simpl; lia].
        rewrite string_app_assoc. simpl. now rewrite Happ.
      * destruct (single_char_token c) as [t|] eqn:Ht; [|discriminate].
        intros [= <- <-]. exists (pre ++ String c ""), s2.
        split; [reflexivity|]. split; [now rewrite string_app_assoc|].
        unfold single_char_token in Ht.
        repeat (match type of Ht with
                | (if ?b then _ else _) = _ => destruct b
                end; [injection Ht as <-; simpl; lia|]).
        discriminate.
Qed.

Lemma scan_inv (pre suf : string) (tok : Token) (lx : Lexer) :
  scan pre suf = Return (tok, lx) ->
  exists pre' suf',
    lx = lexer_at pre' suf'
    /\ pre' ++ suf' = pre ++ suf
    /\ (if TokenType_eqb (type tok) END_OF_FILE
        then String.length suf' <= String.length suf /\ is_nul (head suf') = true
        else String.length suf' < String.length suf).
Proof.
  unfold scan. pose proof (span_length isspace suf) as Hlen.
  pose proof (span_app isspace suf) as Happ.
  destruct (span isspace suf) as [ws s1]. simpl in Hlen, Happ.
  intros H. apply scan_token_inv in H. destruct H as (pre' & suf' & -> & Hin & H).
  exists pre', suf'. split; [reflexivity|]. split.
  - now rewrite Hin, string_app_assoc, Happ.
  - destruct (TokenType_eqb (type tok) END_OF_FILE).
    + destruct H as [-> H]. now split.
    + lia.
Qed.

Lemma stod_terminates (str : string) : stod str <> Timeout.
Proof.
  unfold stod. destruct (span isdigit str) as [ip r].
  match goal with |- context [ip ++ ?f] => destruct (ip ++ f) end; [discriminate|].
  match goal with |- context [decimal_to_double ?n ?k] =>
    destruct (decimal_to_double n k) eqn:E end; try discriminate;
  match goal with |- context [if ?b then _ else _] => destruct b end; discriminate.
Qed.

Lemma scan_terminates (pre suf : string) : scan pre suf <> Timeout.
Proof.
  unfold scan. destruct (span isspace suf) as [ws s1].
  destruct s1 as [|c s2]; cbn [scan_token]; [discriminate|].
  destruct (is_nul c); [discriminate|].
  destruct (is_numeric c).
  - destruct (span is_numeric (String c s2)) as [run rest].
    pose proof (stod_terminates run) as Hr.
    destruct (stod run); simpl; [discriminate | discriminate | contradiction].
  - destruct (single_char_token c); discriminate.
Qed.

Lemma remaining_at (pre suf : string) (tok : Token) :
  remaining (mkParser (lexer_at pre suf) tok)
  = String.length suf
    + (if TokenType_eqb (type tok) END_OF_FILE then 0 else 1).
Proof.
  unfold remaining, lexer_at; simpl. rewrite string_length_app. lia.
Qed.

Lemma eat_terminates (t : TokenType) (p : Parser) :
  parser_ok p -> eat t p <> Timeout.
Proof.
  intros (pre & suf & Hp & _). unfold eat.
  destruct (TokenType_eqb _ _); [|discriminate].
  rewrite Hp, get_next_token_at.
  pose proof (scan_terminates pre suf).
  destruct (scan pre suf) as [[tok lx]| |]; simpl; congruence.
Qed.

Lemma TokenType_eqb_eq (a b : TokenType) : TokenType_eqb a b = true <-> a = b.
Proof. destruct a, b; simpl; split; congruence. Qed.

Lemma eat_inv (t : TokenType) (p p' : Parser) :
  parser_ok p -> eat t p = Return p' ->
  type (current_token p) = t
  /\ parser_ok p'
  /\ (t <> END_OF_FILE -> remaining p' < remaining p)
  /\ input (lexer p') = input (lexer p).
Proof.
  intros (pre & suf & Hp & _). unfold eat.
  destruct (TokenType_eqb _ _) eqn:Ht; [|discriminate].
  apply TokenType_eqb_eq in Ht.
  destruct p as [lx0 tok0]. simpl in Hp, Ht |- *. subst lx0.
  rewrite get_next_token_at.
  destruct (scan pre suf) as [[tok lx]| |] eqn:Hs; simpl; try discriminate.
  intros [= <-]. apply scan_inv in Hs.
  destruct Hs as (pre' & suf' & -> & Hin & Hs).
  split; [exact Ht|]. split; [|split; [|exact Hin]].
  - exists pre', suf'. split; [reflexivity|]. simpl. intros E.
    rewrite E in Hs. simpl in Hs. tauto.
  - intros Hne. rewrite !remaining_at.
    replace (TokenType_eqb (type tok0) END_OF_FILE) with false.
    + destruct (TokenType_eqb (type tok) END_OF_FILE); lia.
    + symmetry. destruct (TokenType_eqb (type tok0) END_OF_FILE) eqn:E; [|reflexivity].
      apply TokenType_eqb_eq in E. congruence.
Qed.

Ltac eat_case Hok :=
  match goal with
  | |- settles _ (bind (eat ?t ?p) _) =>
      let He := fresh "He" in
      let p1 := fresh "p1" in
      let Hok1 := fresh "Hok1" in
      let Hlt := fresh "Hlt" in
      let Hin := fresh "Hin" in
      destruct (eat t p) as [p1| |] eqn:He; cbn [bind];
      [ destruct (eat_inv t p p1 Hok He) as (_ & Hok1 & Hlt & Hin);
        specialize (Hlt ltac:(discriminate))
      | exact I
      | exact (eat_terminates t p Hok He) ]
  end.

Ltac call_case H :=
  match goal with
  | |- settles _ (bind ?c _) =>
      let n := fresh "node" in
      let p2 := fresh "p2" in
      let Hok2 := fresh "Hok2" in
      let Hle := fresh "Hle" in
      let Hin := fresh "Hin" in
      pose proof H as Hcall;
      destruct c as [[n p2]| |]; cbn [bind];
      [ destruct Hcall as (Hok2 & Hle & Hin) | exact I | exact Hcall ]
  end.

Lemma parser_fuel_enough (m : nat) :
  (forall p fuel, parser_ok p -> remaining p <= m -> 4 * m + 1 <= fuel ->
                  settles p (factor fuel p))
  /\ (forall p node fuel, parser_ok p -> remaining p <= m -> 4 * m + 1 <= fuel ->
                          settles p (term_loop fuel node p))
  /\ (forall p fuel, parser_ok p -> remaining p <= m -> 4 * m + 2 <= fuel ->
                     settles p (term fuel p))
  /\ (forall p node fuel, parser_ok p -> remaining p <= m -> 4 * m + 2 <= fuel ->
                          settles p (expr_loop fuel node p))
  /\ (forall p fuel, parser_ok p -> remaining p <= m -> 4 * m + 3 <= fuel ->
                     settles p (expr fuel p)).
Proof.
  induction m as [m IH] using lt_wf_ind.
  assert (Hfactor : forall p fuel, parser_ok p -> remaining p <= m ->
                                   4 * m + 1 <= fuel -> settles p (factor fuel p)).
  { intros p fuel Hok Hrem Hfuel. destruct fuel as [|fuel]; [lia|].
    cbn [factor]. destruct (type (current_token p)); try exact I.
    - eat_case Hok. simpl. split; [assumption | split; [lia | congruence]].
    - eat_case Hok.
      destruct (IH (m - 1) ltac:(lia)) as (IHf & _).
      call_case (IHf p1 fuel Hok1 ltac:(lia) ltac:(lia)).
      simpl. split; [assumption | split; [lia | congruence]].
    - eat_case Hok.
      destruct (IH (m - 1) ltac:(lia)) as (IHf & _).
      call_case (IHf p1 fuel Hok1 ltac:(lia) ltac:(lia)).
      simpl. split; [assumption | split; [lia | congruence]].
    - eat_case Hok.
      destruct (IH (m - 1) ltac:(lia)) as (_ & _ & _ & _ & IHe).
      call_case (IHe p1 fuel Hok1 ltac:(lia) ltac:(lia)).
      destruct (eat RPAREN p2) as [p3| |] eqn:He3; cbn [bind].
      + destruct (eat_inv _ _ _ Hok2 He3) as (_ & Hok3 & Hlt3 & Hin3).
        specialize (Hlt3 ltac:(discriminate)).
        simpl. split; [assumption | split; [lia | congruence]].
      + exact I.
      + exact (eat_terminates _ _ Hok2 He3). }
  assert (Hterm_loop : forall p node fuel, parser_ok p -> remaining p <= m ->
                         4 * m + 1 <= fuel -> settles p (term_loop fuel node p)).
  { intros p node fuel Hok Hrem Hfuel. destruct fuel as [|fuel]; [lia|].
    cbn [term_loop].
    destruct (type (current_token p)); try (simpl; split; [assumption | split; [lia | reflexivity]]).
    - eat_case Hok.
      destruct (IH (m - 1) ltac:(lia)) as (IHf & IHtl & _).
      call_case (IHf p1 fuel Hok1 ltac:(lia) ltac:(lia)).
      pose proof (IHtl p2 (BinaryOpNode node MULTIPLY node0) fuel Hok2
                    ltac:(lia) ltac:(lia)) as Hl.
      destruct (term_loop fuel _ p2) as [[n3 p3]| |]; simpl in *;
        [split; [tauto | split; [lia | destruct Hl as (_ & _ & Hl); congruence]] | exact I | exact Hl].
    - eat_case Hok.
      destruct (IH (m - 1) ltac:(lia)) as (IHf & IHtl & _).
      call_case (IHf p1 fuel Hok1 ltac:(lia) ltac:(lia)).
      pose proof (IHtl p2 (BinaryOpNode node DIVIDE node0) fuel Hok2
                    ltac:(lia) ltac:(lia)) as Hl.
      destruct (term_loop fuel _ p2) as [[n3 p3]| |]; simpl in *;
        [split; [tauto | split; [lia | destruct Hl as (_ & _ & Hl); congruence]] | exact I | exact Hl]. }
  assert (Hterm : forall p fuel, parser_ok p -> remaining p <= m ->
                                 4 * m + 2 <= fuel -> settles p (term fuel p)).
  { intros p fuel Hok Hrem Hfuel. destruct fuel as [|fuel]; [lia|].
    cbn [term].
    call_case (Hfactor p fuel Hok Hrem ltac:(lia)).
    pose proof (Hterm_loop p2 node fuel Hok2 ltac:(lia) ltac:(lia)) as Hl.
    destruct (term_loop fuel node p2) as [[n3 p3]| |]; simpl in *;
      [split; [tauto | split; [lia | destruct Hl as (_ & _ & Hl); congruence]] | exact I | exact Hl]. }
  assert (Hexpr_loop : forall p node fuel, parser_ok p -> remaining p <= m ->
                         4 * m + 2 <= fuel -> settles p (expr_loop fuel node p)).
  { intros p node fuel Hok Hrem Hfuel. destruct fuel as [|fuel]; [lia|].
    cbn [expr_loop].
    destruct (type (current_token p)); try (simpl; split; [assumption | split; [lia | reflexivity]]).
    - eat_case Hok.
      destruct (IH (m - 1) ltac:(lia)) as (_ & _ & IHt & IHel & _).
      call_case (IHt p1 fuel Hok1 ltac:(lia) ltac:(lia)).
      pose proof (IHel p2 (BinaryOpNode node PLUS node0) fuel Hok2
                    ltac:(lia) ltac:(lia)) as Hl.
      destruct (expr_loop fuel _ p2) as [[n3 p3]| |]; simpl in *;
        [split; [tauto | split; [lia | destruct Hl as (_ & _ & Hl); congruence]] | exact I | exact Hl].
    - eat_case Hok.
      destruct (IH (m - 1) ltac:(lia)) as (_ & _ & IHt & IHel & _).
      call_case (IHt p1 fuel Hok1 ltac:(lia) ltac:(lia)).
      pose proof (IHel p2 (BinaryOpNode node MINUS node0) fuel Hok2
                    ltac:(lia) ltac:(lia)) as Hl.
      destruct (expr_loop fuel _ p2) as [[n3 p3]| |]; simpl in *;
        [split; [tauto | split; [lia | destruct Hl as (_ & _ & Hl); congruence]] | exact I | exact Hl]. }
  repeat split; try assumption.
  intros p fuel Hok Hrem Hfuel. destruct fuel as [|fuel]; [lia|].
  cbn [expr].
  call_case (Hterm p fuel Hok Hrem ltac:(lia)).
  pose proof (Hexpr_loop p2 node fuel Hok2 ltac:(lia) ltac:(lia)) as Hl.
  destruct (expr_loop fuel node p2) as [[n3 p3]| |]; simpl in *;
    [split; [tauto | split; [lia | destruct Hl as (_ & _ & Hl); congruence]] | exact I | exact Hl].
Qed.

(** ** Reading one token of a text *)

Lemma span_all (f : ascii -> bool) (a b : string) :
  string_forall f a = true -> f (head b) = false -> span f (a ++ b) = (a, b).
Proof.
  intros Ha Hb. induction a as [|c a IH]; simpl in *.
  - destruct b as [|c b]; simpl in *; [reflexivity | now rewrite Hb].
  - apply andb_true_iff in Ha. destruct Ha as [Hc Ha].
    now rewrite Hc, IH.
Qed.

Lemma head_app (a b : string) (f : ascii -> bool) :
  string_forall f a = true -> f (head b) = false -> nonempty a = true ->
  f (head (a ++ b)) = true.
Proof.
  destruct a as [|c a]; simpl; [discriminate|].
  intros H _ _. now apply andb_true_iff in H.
Qed.

Lemma single_char_token_inv (c : ascii) (t : TokenType) :
  single_char_token c = Some t ->
  isspace c = false /\ is_nul c = false /\ is_numeric c = false.
Proof.
  unfold single_char_token.
  repeat (match goal with
          | |- context [Ascii.eqb c ?x] =>
              destruct (Ascii.eqb_spec c x) as [->|_]; [intros _; now vm_compute|]
          end).
  discriminate.
Qed.

Lemma start_scan (pre s : string) :
  start pre s = ('(tok, lx) <- scan pre s;; Return (mkParser lx tok)).
Proof. unfold start. now rewrite get_next_token_at. Qed.

Lemma start_terminates (pre s : string) : start pre s <> Timeout.
Proof.
  rewrite start_scan. pose proof (scan_terminates pre s) as H.
  destruct (scan pre s) as [[tok lx]| |]; simpl;
    [discriminate | discriminate | now destruct H].
Qed.

Lemma start_ok (pre s : string) (p : Parser) :
  start pre s = Return p -> parser_ok p /\ input (lexer p) = pre ++ s.
Proof.
  rewrite start_scan.
  destruct (scan pre s) as [[tok lx]| |] eqn:Hs; simpl; try discriminate.
  intros [= <-]. apply scan_inv in Hs.
  destruct Hs as (pre' & suf' & -> & Hin & Hs).
  split; [|exact Hin].
  exists pre', suf'. split; [reflexivity|]. simpl. intros E.
  rewrite E in Hs. simpl in Hs. tauto.
Qed.

Lemma eat_at (t : TokenType) (pre s : string) (tok : Token) :
  type tok = t -> eat t (mkParser (lexer_at pre s) tok) = start pre s.
Proof.
  intros <-. unfold eat, start; simpl.
  replace (TokenType_eqb (type tok) (type tok)) with true; [reflexivity|].
  symmetry. now apply TokenType_eqb_eq.
Qed.

Lemma new_Parser_start (text : string) : new_Parser text = start "" text.
Proof. reflexivity. Qed.

Lemma start_symbol (pre ws : string) (c : ascii) (t : TokenType) (rest : string) :
  string_forall isspace ws = true -> single_char_token c = Some t ->
  start pre (ws ++ String c rest)
  = Return (mkParser (lexer_at ((pre ++ ws) ++ String c "") rest) (Token1 t)).
Proof.
  intros Hws Hc. destruct (single_char_token_inv c t Hc) as (Hs & Hn & Hd).
  rewrite start_scan. unfold scan.
  rewrite (span_all isspace ws (String c rest) Hws Hs).
  cbn [scan_token]. now rewrite Hn, Hd, Hc.
Qed.

Lemma start_number (pre ws literal rest : string) :
  string_forall isspace ws = true ->
  nonempty literal = true -> string_forall is_numeric literal = true ->
  is_numeric (head rest) = false ->
  start pre (ws ++ literal ++ rest)
  = (v <- stod literal;;
     Return (mkParser (lexer_at ((pre ++ ws) ++ literal) rest) (mkToken NUMBER v))).
Proof.
  intros Hws Hne Hlit Hrest.
  pose proof (head_app literal rest is_numeric Hlit Hrest Hne) as Hh.
  rewrite start_scan. unfold scan.
  rewrite (span_all isspace ws (literal ++ rest) Hws (is_numeric_not_space _ Hh)).
  pose proof (span_all is_numeric literal rest Hlit Hrest) as Hspan.
  destruct (literal ++ rest) as [|c s2] eqn:E; [discriminate|].
  cbn [head] in Hh. cbn [scan_token].
  rewrite (is_numeric_not_nul _ Hh), Hh, Hspan.
  destruct (stod literal); reflexivity.
Qed.

Lemma start_end (pre ws : string) :
  string_forall isspace ws = true ->
  start pre ws = Return (mkParser (lexer_at (pre ++ ws) "") (Token1 END_OF_FILE)).
Proof.
  intros Hws. rewrite start_scan. unfold scan.
  rewrite <- (string_app_nil_r ws) at 1.
  now rewrite (span_all isspace ws "" Hws eq_refl).
Qed.

Lemma lookahead_symbol (ws : string) (c : ascii) (rest : string) :
  string_forall isspace ws = true -> isspace c = false ->
  lookahead (ws ++ String c rest) = c.
Proof.
  intros Hws Hc. unfold lookahead.
  now rewrite (span_all isspace ws (String c rest) Hws Hc).
Qed.

Lemma lookahead_end (ws : string) :
  string_forall isspace ws = true -> lookahead ws = NUL.
Proof.
  intros Hws. unfold lookahead.
  rewrite <- (string_app_nil_r ws).
  now rewrite (span_all isspace ws "" Hws eq_refl).
Qed.

(** The kind of the token read at a scan point is decided by the character
    the token starts with. *)
Lemma start_lookahead (pre rest : string) (p : Parser) :
  start pre rest = Return p ->
  match type (current_token p) with
  | NUMBER => is_numeric (lookahead rest) = true
  | END_OF_FILE => is_nul (lookahead rest) = true
  | t => single_char_token (lookahead rest) = Some t
  end.
Proof.
  rewrite start_scan. unfold scan, lookahead.
  destruct (span isspace rest) as [ws s1]. cbn [snd].
  destruct s1 as [|c s2]; cbn [scan_token head].
  - intros [= <-]. reflexivity.
  - destruct (is_nul c); [intros [= <-]; reflexivity|].
    destruct (is_numeric c).
    + destruct (span is_numeric (String c s2)) as [run r].
      destruct (stod run); simpl; try discriminate.
      intros [= <-]. reflexivity.
    + unfold single_char_token.
      repeat (match goal with
              | |- context [Ascii.eqb c ?x] =>
                  destruct (Ascii.eqb c x); [intros [= <-]; reflexivity|]
              end).
      discriminate.
Qed.

(** ** The parser on a text of the grammar *)

Lemma eventually_S {A : Type} (f : nat -> outcome A) (r : outcome A) (fuel0 : nat) :
  (forall n, fuel0 <= n -> f (S n) = r) -> eventually f r.
Proof.
  intros H. exists (S fuel0). intros [|n] Hn; [lia|]. apply H. lia.
Qed.

Lemma bind_bind_eq {A B C : Type} (c : outcome A) (k : A -> outcome B)
      (k' : B -> outcome C) (d : outcome B) :
  bind c k = d -> bind c (fun a => bind (k a) k') = bind d k'.
Proof. intros <-. destruct c; reflexivity. Qed.

Lemma term_loop_stops (pre rest : string) (node : ASTNode) :
  follow_term rest = true ->
  eventually (fun fuel => p' <- start pre rest;; term_loop fuel node p')
             (p' <- start pre rest;; Return (node, p')).
Proof.
  intros Hf. apply (eventually_S _ _ 0). intros n _.
  destruct (start pre rest) as [p'| |] eqn:Hs; [|reflexivity|reflexivity].
  apply start_lookahead in Hs. cbn [bind term_loop].
  unfold follow_term in Hf.
  destruct (type (current_token p')); try reflexivity;
    rewrite Hs in Hf; discriminate.
Qed.

Lemma expr_loop_stops (pre rest : string) (node : ASTNode) :
  follow_expr rest = true ->
  eventually (fun fuel => p' <- start pre rest;; expr_loop fuel node p')
             (p' <- start pre rest;; Return (node, p')).
Proof.
  intros Hf. apply (eventually_S _ _ 0). intros n _.
  destruct (start pre rest) as [p'| |] eqn:Hs; [|reflexivity|reflexivity].
  apply start_lookahead in Hs. cbn [bind expr_loop].
  unfold follow_expr in Hf.
  destruct (type (current_token p')); try reflexivity;
    rewrite Hs in Hf; discriminate.
Qed.

Lemma follow_expr_term (rest : string) : follow_expr rest = true -> follow_term rest = true.
Proof.
  unfold follow_expr, follow_term.
  destruct (single_char_token (lookahead rest)) as [[]|]; congruence.
Qed.

(** A term, and an expression, followed by a text at which the rule stops. *)
Lemma term_spec_final (t : gterm) :
  term_spec t -> wf_term t = true ->
  forall node, ast_term t = Return node ->
  forall pre rest, is_numeric (head rest) = false -> follow_term rest = true ->
  eventually (fun fuel => p <- start pre (render_term t ++ rest);; term fuel p)
             (p' <- start (pre ++ render_term t) rest;; Return (node, p')).
Proof.
  intros H Hwf node Hast pre rest Hnum Hf.
  apply (H Hwf node Hast pre rest Hnum). now apply term_loop_stops.
Qed.

Lemma expr_spec_final (e : gexpr) :
  expr_spec e -> wf_expr e = true ->
  forall node, ast_expr e = Return node ->
  forall pre rest, is_numeric (head rest) = false -> follow_expr rest = true ->
  eventually (fun fuel => p <- start pre (render_expr e ++ rest);; expr fuel p)
             (p' <- start (pre ++ render_expr e) rest;; Return (node, p')).
Proof.
  intros H Hwf node Hast pre rest Hnum Hf.
  apply (H Hwf node Hast pre rest Hnum (follow_expr_term _ Hf)).
  now apply expr_loop_stops.
Qed.

Lemma factor_number (ws literal : string) : factor_spec (GNumber ws literal).
Proof.
  intros Hwf node Hast pre rest Hnum. cbn in Hwf, Hast |- *.
  apply andb_true_iff in Hwf. destruct Hwf as [Hwf Hlit].
  apply andb_true_iff in Hwf. destruct Hwf as [Hws Hne].
  destruct (stod literal) as [v| |] eqn:Hv; try discriminate.
  injection Hast as <-.
  rewrite string_app_assoc, start_number, Hv by assumption. cbn [bind].
  apply (eventually_S _ _ 0). intros n _.
  cbn [factor]. cbn [current_token type value].
  rewrite eat_at by reflexivity.
  rewrite <- string_app_assoc.
  destruct (start _ rest); reflexivity.
Qed.

Lemma additive_token (op : additive) :
  single_char_token (additive_char op) = Some (additive_type op).
Proof. destruct op; reflexivity. Qed.

Lemma multiplicative_token (op : multiplicative) :
  single_char_token (multiplicative_char op) = Some (multiplicative_type op).
Proof. destruct op; reflexivity. Qed.

Lemma factor_unary (ws : string) (sign : additive) (f : gfactor) :
  factor_spec f -> factor_spec (GUnary ws sign f).
Proof.
  intros IH Hwf node Hast pre rest Hnum. cbn in Hwf, Hast |- *.
  apply andb_true_iff in Hwf. destruct Hwf as [Hws Hwf].
  destruct (ast_factor f) as [operand| |] eqn:Hf; try discriminate.
  injection Hast as <-.
  rewrite string_app_assoc. cbn [append].
  rewrite (start_symbol _ _ _ _ _ Hws (additive_token sign)). cbn [bind].
  destruct (IH Hwf operand Hf ((pre ++ ws) ++ String (additive_char sign) "")
               rest Hnum) as [fuel0 IHf].
  apply (eventually_S _ _ fuel0). intros n Hn.
  replace (pre ++ ws ++ String (additive_char sign) (render_factor f))
    with (((pre ++ ws) ++ String (additive_char sign) "") ++ render_factor f)
    by (now rewrite !string_app_assoc).
  destruct sign; cbn [factor]; cbn [current_token type Token1 additive_type];
    rewrite eat_at by reflexivity;
    rewrite (bind_bind_eq _ (factor n) _ _ (IHf n Hn));
    destruct (start _ rest); reflexivity.
Qed.

Ltac string_norm :=
  repeat first [rewrite string_app_assoc | progress cbn [append]]; reflexivity.

Lemma head_symbol (ws : string) (c : ascii) (t : TokenType) (rest : string) :
  string_forall isspace ws = true -> single_char_token c = Some t ->
  is_numeric (head (ws ++ String c rest)) = false.
Proof.
  intros Hws Hc. destruct ws as [|a ws]; simpl in *.
  - now apply single_char_token_inv in Hc.
  - apply andb_true_iff in Hws. destruct Hws as [Ha _].
    destruct (is_numeric a) eqn:E; [|reflexivity].
    apply is_numeric_not_space in E. congruence.
Qed.

Lemma lookahead_token (ws : string) (c : ascii) (t : TokenType) (rest : string) :
  string_forall isspace ws = true -> single_char_token c = Some t ->
  single_char_token (lookahead (ws ++ String c rest)) = Some t.
Proof.
  intros Hws Hc. rewrite lookahead_symbol; [exact Hc | exact Hws |].
  now apply single_char_token_inv in Hc.
Qed.

Lemma factor_paren (ws1 : string) (e : gexpr) (ws2 : string) :
  expr_spec e -> factor_spec (GParen ws1 e ws2).
Proof.
  intros IH Hwf node Hast pre rest Hnum. cbn in Hwf, Hast |- *.
  apply andb_true_iff in Hwf. destruct Hwf as [Hwf Hws2].
  apply andb_true_iff in Hwf. destruct Hwf as [Hws1 Hwf].
  assert (Hclose : single_char_token ")" = Some RPAREN) by reflexivity.
  set (pre1 := (pre ++ ws1) ++ "(").
  set (rest' := ws2 ++ String ")" rest).
  replace ((ws1 ++ String "(" (render_expr e ++ ws2 ++ ")")) ++ rest)
    with (ws1 ++ String "(" (render_expr e ++ rest'))
    by (unfold rest'; string_norm).
  rewrite (start_symbol pre ws1 "(" LPAREN _ Hws1 eq_refl). cbn [bind].
  fold pre1.
  destruct (expr_spec_final e IH Hwf node Hast pre1 rest') as [fuel0 IHe].
  { unfold rest'. now apply (head_symbol ws2 ")" RPAREN). }
  { unfold follow_expr, rest'.
    now rewrite (lookahead_token ws2 ")" RPAREN rest Hws2 Hclose). }
  apply (eventually_S _ _ fuel0). intros n Hn.
  cbn [factor]. cbn [current_token type Token1].
  unfold pre1 at 1. rewrite eat_at by reflexivity. fold pre1.
  rewrite (bind_bind_eq _ (expr n) _ _ (IHe n Hn)).
  unfold rest' at 1.
  rewrite (start_symbol _ ws2 ")" RPAREN rest Hws2 Hclose). cbn [bind].
  rewrite eat_at by reflexivity.
  replace (((pre1 ++ render_expr e) ++ ws2) ++ ")")
    with (pre ++ ws1 ++ String "(" (render_expr e ++ ws2 ++ ")"))
    by (unfold pre1; string_norm).
  reflexivity.
Qed.

Lemma term_factor (f : gfactor) : factor_spec f -> term_spec (GFactor f).
Proof.
  intros IH Hwf node Hast pre rest Hnum r [fuel1 Hr]. cbn in Hwf, Hast, Hr |- *.
  destruct (IH Hwf node Hast pre rest Hnum) as [fuel0 IHf].
  apply (eventually_S _ _ (Nat.max fuel0 fuel1)). intros n Hn.
  cbn [term].
  rewrite (bind_bind_eq _ (factor n) _ _ (IHf n ltac:(lia))).
  rewrite <- (Hr n ltac:(lia)).
  destruct (start _ rest); reflexivity.
Qed.

Lemma term_muldiv (t : gterm) (ws : string) (op : multiplicative) (f : gfactor) :
  term_spec t -> factor_spec f -> term_spec (GMulDiv t ws op f).
Proof.
  intros IHt IHf Hwf node Hast pre rest Hnum r [fuel1 Hr].
  cbn in Hwf, Hast, Hr |- *.
  apply andb_true_iff in Hwf. destruct Hwf as [Hwf Hwff].
  apply andb_true_iff in Hwf. destruct Hwf as [Hwft Hws].
  destruct (ast_term t) as [l| |] eqn:Hl; try discriminate.
  destruct (ast_factor f) as [rhs| |] eqn:Hrhs; try discriminate.
  injection Hast as <-.
  pose proof (multiplicative_token op) as Hop.
  set (rest' := ws ++ String (multiplicative_char op) (render_factor f ++ rest)).
  replace ((render_term t ++ ws ++ String (multiplicative_char op) (render_factor f))
           ++ rest)
    with (render_term t ++ rest')
    by (unfold rest'; string_norm).
  apply (IHt Hwft l Hl pre rest').
  { unfold rest'. now apply (head_symbol ws _ _ _ Hws Hop). }
  unfold rest'. rewrite (start_symbol _ ws _ _ _ Hws Hop).
  set (pre2 := ((pre ++ render_term t) ++ ws) ++ String (multiplicative_char op) "").
  destruct (IHf Hwff rhs Hrhs pre2 rest Hnum) as [fuel0 IHf'].
  apply (eventually_S _ _ (Nat.max fuel0 fuel1)). intros n Hn.
  rewrite <- (Hr n ltac:(lia)).
  replace (pre ++ render_term t ++ ws ++ String (multiplicative_char op) (render_factor f))
    with (pre2 ++ render_factor f)
    by (unfold pre2; string_norm).
  cbn [bind].
  destruct op; cbn [term_loop];
    cbn [current_token type Token1 multiplicative_type multiplicative_char];
    unfold pre2 at 1; rewrite eat_at by reflexivity; fold pre2;
    rewrite (bind_bind_eq _ (factor n) _ _ (IHf' n ltac:(lia)));
    destruct (start (pre2 ++ render_factor f) rest); reflexivity.
Qed.

Lemma expr_term (t : gterm) : term_spec t -> expr_spec (GTerm t).
Proof.
  intros IH Hwf node Hast pre rest Hnum Hfollow r [fuel1 Hr].
  cbn in Hwf, Hast, Hr |- *.
  destruct (term_spec_final t IH Hwf node Hast pre rest Hnum Hfollow) as [fuel0 IHt].
  apply (eventually_S _ _ (Nat.max fuel0 fuel1)). intros n Hn.
  cbn [expr].
  rewrite (bind_bind_eq _ (term n) _ _ (IHt n ltac:(lia))).
  rewrite <- (Hr n ltac:(lia)).
  destruct (start _ rest); reflexivity.
Qed.

Lemma expr_addsub (e : gexpr) (ws : string) (op : additive) (t : gterm) :
  expr_spec e -> term_spec t -> expr_spec (GAddSub e ws op t).
Proof.
  intros IHe IHt Hwf node Hast pre rest Hnum Hfollow r [fuel1 Hr].
  cbn in Hwf, Hast, Hr |- *.
  apply andb_true_iff in Hwf. destruct Hwf as [Hwf Hwft].
  apply andb_true_iff in Hwf. destruct Hwf as [Hwfe Hws].
  destruct (ast_expr e) as [l| |] eqn:Hl; try discriminate.
  destruct (ast_term t) as [rhs| |] eqn:Hrhs; try discriminate.
  injection Hast as <-.
  pose proof (additive_token op) as Hop.
  set (rest' := ws ++ String (additive_char op) (render_term t ++ rest)).
  replace ((render_expr e ++ ws ++ String (additive_char op) (render_term t)) ++ rest)
    with (render_expr e ++ rest')
    by (unfold rest'; string_norm).
  apply (IHe Hwfe l Hl pre rest').
  { unfold rest'. now apply (head_symbol ws _ _ _ Hws Hop). }
  { unfold follow_term, rest'. rewrite (lookahead_token ws _ _ _ Hws Hop).
    now destruct op. }
  unfold rest'. rewrite (start_symbol _ ws _ _ _ Hws Hop).
  set (pre2 := ((pre ++ render_expr e) ++ ws) ++ String (additive_char op) "").
  destruct (term_spec_final t IHt Hwft rhs Hrhs pre2 rest Hnum Hfollow) as [fuel0 IHt'].
  apply (eventually_S _ _ (Nat.max fuel0 fuel1)). intros n Hn.
  rewrite <- (Hr n ltac:(lia)).
  replace (pre ++ render_expr e ++ ws ++ String (additive_char op) (render_term t))
    with (pre2 ++ render_term t)
    by (unfold pre2; string_norm).
  cbn [bind].
  destruct op; cbn [expr_loop];
    cbn [current_token type Token1 additive_type additive_char];
    unfold pre2 at 1; rewrite eat_at by reflexivity; fold pre2;
    rewrite (bind_bind_eq _ (term n) _ _ (IHt' n ltac:(lia)));
    destruct (start (pre2 ++ render_term t) rest); reflexivity.
Qed.

(** The three rules read a text of the grammar as the grammar does. *)
Lemma grammar_spec :
  (forall f, factor_spec f) /\ (forall t, term_spec t) /\ (forall e, expr_spec e).
Proof.
  apply grammar_ind.
  - apply factor_number.
  - intros ws sign f. apply factor_unary.
  - intros ws1 e IH ws2. now apply factor_paren.
  - apply term_factor.
  - intros t IHt ws op f IHf. now apply term_muldiv.
  - apply expr_term.
  - intros e IHe ws op t IHt. now apply expr_addsub.
Qed.

(** ** The entry points terminate *)

Lemma evaluate_terminates (n : ASTNode) : evaluate n <> Timeout.
Proof.
  induction n as [val|l IHl op r IHr|op operand IH]; simpl.
  - discriminate.
  - destruct (evaluate l); [|discriminate|contradiction].
    destruct (evaluate r); [|discriminate|contradiction].
    simpl. destruct op; try discriminate.
    destruct (double_eqb _ _); discriminate.
  - destruct (evaluate operand); [|discriminate|contradiction].
    simpl. destruct op; discriminate.
Qed.

Lemma expr_parse_fuel_settles (p : Parser) :
  parser_ok p -> settles p (expr (parse_fuel p) p).
Proof.
  intros Hok.
  destruct (parser_fuel_enough (remaining p)) as (_ & _ & _ & _ & H).
  apply H; [assumption | lia | unfold parse_fuel; lia].
Qed.

(** [parse_fuel] gives the outcome that any sufficient fuel gives. *)
Lemma expr_parse_fuel (p : Parser) (fuel : nat) (r : outcome (ASTNode * Parser)) :
  parser_ok p -> expr fuel p = r -> r <> Timeout -> expr (parse_fuel p) p = r.
Proof.
  intros Hok Hr Hdef.
  pose proof (expr_parse_fuel_settles p Hok) as Hs.
  pose proof (expr_fuel_mono fuel (Nat.max fuel (parse_fuel p)) p ltac:(lia)) as H1.
  pose proof (expr_fuel_mono (parse_fuel p) (Nat.max fuel (parse_fuel p)) p ltac:(lia)) as H2.
  apply approx_defined in H1; [|congruence].
  apply approx_defined in H2.
  - congruence.
  - intros E. rewrite E in Hs. exact Hs.
Qed.

Lemma parse_terminates (p : Parser) : parser_ok p -> parse p <> Timeout.
Proof.
  intros Hok. unfold parse.
  pose proof (expr_parse_fuel_settles p Hok) as Hs.
  destruct (expr (parse_fuel p) p) as [[node p']| |]; simpl;
    [|discriminate|contradiction].
  destruct (negb _); discriminate.
Qed.

Lemma new_Parser_ok (text : string) (p : Parser) :
  new_Parser text = Return p -> parser_ok p.
Proof. rewrite new_Parser_start. intros H. now apply start_ok in H. Qed.

Lemma new_Parser_terminates (text : string) : new_Parser text <> Timeout.
Proof. rewrite new_Parser_start. apply start_terminates. Qed.

Lemma compile_and_evaluate_terminates (expression : string) :
  compile_and_evaluate expression <> Timeout.
Proof.
  unfold compile_and_evaluate.
  pose proof (new_Parser_terminates expression) as Hn.
  destruct (new_Parser expression) as [p| |] eqn:Hp; simpl;
    [|discriminate|contradiction].
  pose proof (parse_terminates p (new_Parser_ok _ _ Hp)) as Hq.
  destruct (parse p) as [[ast p']| |]; simpl; [|discriminate|contradiction].
  pose proof (evaluate_terminates ast) as He.
  destruct (evaluate ast); [discriminate|discriminate|contradiction].
Qed.

(** ** The pipeline on a text of the grammar *)

Lemma head_spaces (ws : string) :
  string_forall isspace ws = true -> is_numeric (head ws) = false.
Proof.
  destruct ws as [|a ws]; simpl; [reflexivity|].
  intros H. apply andb_true_iff in H. destruct H as [Ha _].
  destruct (is_numeric a) eqn:E; [|reflexivity].
  apply is_numeric_not_space in E. congruence.
Qed.

Lemma follow_expr_spaces (ws : string) :
  string_forall isspace ws = true -> follow_expr ws = true.
Proof. intros H. unfold follow_expr. now rewrite lookahead_end. Qed.

(** A text of the grammar, with whitespace after it, parses to the tree the
    grammar gives it, and the parser stops at the end marker. *)
Lemma parse_render (e : gexpr) (ws : string) (node : ASTNode) :
  wf_expr e = true -> string_forall isspace ws = true ->
  ast_expr e = Return node ->
  exists p,
    new_Parser (render_expr e ++ ws) = Return p
    /\ parse p = Return (node, mkParser (lexer_at (render_expr e ++ ws) "")
                                        (Token1 END_OF_FILE)).
Proof.
  intros Hwf Hws Hast.
  destruct grammar_spec as (_ & _ & He).
  destruct (expr_spec_final e (He e) Hwf node Hast "" ws
              (head_spaces ws Hws) (follow_expr_spaces ws Hws)) as [fuel0 H].
  specialize (H fuel0 (le_n _)).
  cbn [append] in H. rewrite (start_end (render_expr e) ws Hws) in H. cbn [bind] in H.
  rewrite new_Parser_start.
  destruct (start "" (render_expr e ++ ws)) as [p| |] eqn:Hp; try discriminate.
  cbn [bind] in H. exists p. split; [reflexivity|].
  unfold parse.
  rewrite (expr_parse_fuel p fuel0 _ (proj1 (start_ok _ _ _ Hp)) H) by discriminate.
  reflexivity.
Qed.

Lemma parse_text_render (e : gexpr) (ws : string) (node : ASTNode) :
  wf_expr e = true -> string_forall isspace ws = true ->
  ast_expr e = Return node ->
  parse_text (render_expr e ++ ws) = Return node.
Proof.
  intros Hwf Hws Hast.
  destruct (parse_render e ws node Hwf Hws Hast) as (p & Hp & Hparse).
  unfold parse_text. now rewrite Hp; cbn [bind]; rewrite Hparse.
Qed.

Lemma compile_and_evaluate_parse_text (text : string) :
  compile_and_evaluate text
  = match (node <- parse_text text;; evaluate node) with
    | Return result => Return result
    | Throw e => Throw (CompilationError e)
    | Timeout => Timeout
    end.
Proof.
  unfold compile_and_evaluate, parse_text.
  destruct (new_Parser text) as [p| |]; cbn [bind]; try reflexivity.
  destruct (parse p) as [[node p']| |]; reflexivity.
Qed.

(** The value the grammar gives a text is the value of its tree. *)
Lemma value_ast :
  (forall f v, value_factor f = Return v ->
               exists node, ast_factor f = Return node /\ evaluate node = Return v)
  /\ (forall t v, value_term t = Return v ->
                  exists node, ast_term t = Return node /\ evaluate node = Return v)
  /\ (forall e v, value_expr e = Return v ->
                  exists node, ast_expr e = Return node /\ evaluate node = Return v).
Proof.
  apply grammar_ind.
  - intros ws literal v H. cbn in H |- *. rewrite H.
    now exists (NumberNode v).
  - intros ws sign f IH v H. cbn in H |- *.
    destruct (value_factor f) as [v'| |]; try discriminate.
    destruct (IH v' eq_refl) as (node & -> & Hev).
    exists (UnaryOpNode (additive_type sign) node). split; [reflexivity|].
    cbn. rewrite Hev. cbn in H |- *. now destruct sign.
  - intros ws1 e IH ws2 v H. cbn in H |- *. now apply IH.
  - intros f IH v H. cbn in H |- *. now apply IH.
  - intros t IHt ws op f IHf v H. cbn in H |- *.
    destruct (value_term t) as [a| |]; try discriminate.
    destruct (value_factor f) as [b| |]; try discriminate.
    destruct (IHt a eq_refl) as (l & -> & Hl).
    destruct (IHf b eq_refl) as (r & -> & Hr).
    exists (BinaryOpNode l (multiplicative_type op) r). split; [reflexivity|].
    cbn. rewrite Hl, Hr. cbn in H |- *. now destruct op.
  - intros t IH v H. cbn in H |- *. now apply IH.
  - intros e IHe ws op t IHt v H. cbn in H |- *.
    destruct (value_expr e) as [a| |]; try discriminate.
    destruct (value_term t) as [b| |]; try discriminate.
    destruct (IHe a eq_refl) as (l & -> & Hl).
    destruct (IHt b eq_refl) as (r & -> & Hr).
    exists (BinaryOpNode l (additive_type op) r). split; [reflexivity|].
    cbn. rewrite Hl, Hr. cbn in H |- *. now destruct op.
Qed.

(** The pipeline returns the value the grammar gives a text. *)
Lemma compile_and_evaluate_value (e : gexpr) (ws : string) (v : double) :
  wf_expr e = true -> string_forall isspace ws = true ->
  value_expr e = Return v ->
  compile_and_evaluate (render_expr e ++ ws) = Return v.
Proof.
  intros Hwf Hws Hv.
  destruct value_ast as (_ & _ & H).
  destruct (H e v Hv) as (node & Hast & Hev).
  rewrite compile_and_evaluate_parse_text.
  rewrite (parse_text_render e ws node Hwf Hws Hast). cbn [bind].
  now rewrite Hev.
Qed.

(** ** Double arithmetic is exact on small integers *)

Section ExactIntegers.
Local Open Scope Z_scope.

Lemma scaled_intro (m : positive) (e n k : Z) :
  0 <= k -> 0 <= e + k -> Zpos m * 2 ^ (e + k) = n * 2 ^ k -> scaled m e n.
Proof.
  intros Hk Hek H. unfold scaled.
  apply (Z.mul_cancel_r _ _ (2 ^ k)); [apply Z.pow_nonzero; lia|].
  rewrite <- !Z.mul_assoc, <- !Z.pow_add_r by lia.
  replace (Z.max 0 e + k) with ((e + k) + Z.max 0 (- e)) by lia.
  rewrite Z.pow_add_r, Z.mul_assoc, H by lia.
  rewrite (Z.add_comm _ k), Z.pow_add_r by lia. ring.
Qed.

Lemma scaled_elim (m : positive) (e n k : Z) :
  scaled m e n -> 0 <= k -> 0 <= e + k -> Zpos m * 2 ^ (e + k) = n * 2 ^ k.
Proof.
  unfold scaled. intros H Hk Hek.
  apply (Z.mul_cancel_r _ _ (2 ^ Z.max 0 (- e))); [apply Z.pow_nonzero; lia|].
  rewrite <- !Z.mul_assoc, <- !Z.pow_add_r by lia.
  replace (e + k + Z.max 0 (- e)) with (Z.max 0 e + k) by lia.
  rewrite Z.pow_add_r, Z.mul_assoc, H by lia.
  rewrite (Z.pow_add_r 2 k) by lia. ring.
Qed.

Lemma scaled_pos (m : positive) (e n : Z) : scaled m e n -> 0 < n.
Proof.
  unfold scaled. intros H.
  assert (0 < 2 ^ Z.max 0 e) by (apply Z.pow_pos_nonneg; lia).
  assert (0 < 2 ^ Z.max 0 (- e)) by (apply Z.pow_pos_nonneg; lia).
  nia.
Qed.

Lemma digits2_pos_size (m : positive) : digits2_pos m = Pos.size m.
Proof. induction m; simpl; congruence. Qed.

Lemma digits_bounds (m : positive) :
  2 ^ (Zpos (digits2_pos m) - 1) <= Zpos m < 2 ^ Zpos (digits2_pos m).
Proof.
  rewrite digits2_pos_size. split.
  - pose proof (Pos.size_le m) as H.
    apply Pos2Z.pos_le_pos in H. rewrite Pos2Z.inj_pow in H.
    replace (Zpos (Pos.size m)) with (Z.succ (Zpos (Pos.size m) - 1)) in H by lia.
    rewrite Z.pow_succ_r in H by lia.
    change (Zpos m~0) with (2 * Zpos m) in H. lia.
  - pose proof (Pos.size_gt m) as H.
    apply Pos2Z.pos_lt_pos in H. now rewrite Pos2Z.inj_pow in H.
Qed.

Lemma pow2_window_unique (a b x : Z) :
  0 <= a - 1 -> 0 <= b - 1 ->
  2 ^ (a - 1) <= x < 2 ^ a -> 2 ^ (b - 1) <= x < 2 ^ b -> a = b.
Proof.
  intros Ha Hb [Ha1 Ha2] [Hb1 Hb2].
  destruct (Z.lt_trichotomy a b) as [H|[H|H]]; [|exact H|].
  - assert (2 ^ a <= 2 ^ (b - 1)) by (apply Z.pow_le_mono_r; lia). lia.
  - assert (2 ^ b <= 2 ^ (a - 1)) by (apply Z.pow_le_mono_r; lia). lia.
Qed.

Lemma iter_pos_nat {A : Type} (f : A -> A) (p : positive) (x : A) :
  iter_pos f p x = Nat.iter (Pos.to_nat p) f x.
Proof.
  revert x. induction p as [p IH|p IH|]; intros x; cbn [iter_pos].
  - rewrite !IH, Pos2Nat.inj_xI.
    replace (S (2 * Pos.to_nat p)) with (Pos.to_nat p + S (Pos.to_nat p))%nat by lia.
    rewrite Nat.iter_add, Nat.iter_succ_r. reflexivity.
  - rewrite !IH, Pos2Nat.inj_xO.
    replace (2 * Pos.to_nat p)%nat with (Pos.to_nat p + Pos.to_nat p)%nat by lia.
    now rewrite Nat.iter_add.
  - reflexivity.
Qed.

Lemma iter_shr_1_nat (k : nat) (c : positive) :
  Nat.iter k shr_1 (Build_shr_record (Zpos c * 2 ^ Z.of_nat k) false false)
  = Build_shr_record (Zpos c) false false.
Proof.
  revert c. induction k as [|k IH]; intros c.
  - change (Z.of_nat 0) with 0. now rewrite Z.pow_0_r, Z.mul_1_r.
  - rewrite Nat.iter_succ.
    replace (Zpos c * 2 ^ Z.of_nat (S k)) with (Zpos c~0 * 2 ^ Z.of_nat k).
    + now rewrite IH.
    + rewrite Nat2Z.inj_succ, Z.pow_succ_r by lia.
      change (Zpos c~0) with (2 * Zpos c). ring.
Qed.

Lemma iter_shr_1_exact (k c : positive) :
  iter_pos shr_1 k (Build_shr_record (Zpos c * 2 ^ Zpos k) false false)
  = Build_shr_record (Zpos c) false false.
Proof.
  rewrite iter_pos_nat. rewrite <- (positive_nat_Z k) at 1.
  apply iter_shr_1_nat.
Qed.

(** The exponent of the format at a magnitude of at most 53 bits. *)
Lemma fexp_small (D : Z) : D <= 53 -> fexp prec emax D = Z.max (D - 53) (-1074).
Proof. reflexivity. Qed.

(** The number of bits of the integer a mantissa and exponent stand for. *)
Lemma scaled_digits (m : positive) (e n : Z) :
  scaled m e n -> n < 2 ^ 53 -> Zpos (digits2_pos m) + e <= 53.
Proof.
  intros Hs Hn. pose proof (digits_bounds m) as [Hlo _].
  set (d := Zpos (digits2_pos m)) in *.
  set (K := Z.max 0 (- e)).
  pose proof (scaled_elim m e n K Hs ltac:(lia) ltac:(lia)) as H.
  assert (Hd : 1 <= d) by (unfold d; lia).
  assert (H1 : 2 ^ (d - 1 + (e + K)) <= n * 2 ^ K).
  { rewrite <- H, Z.pow_add_r by lia.
    apply Z.mul_le_mono_nonneg_r; [apply Z.pow_nonneg; lia | exact Hlo]. }
  assert (H2 : n * 2 ^ K < 2 ^ (53 + K)).
  { rewrite Z.pow_add_r by lia.
    apply Z.mul_lt_mono_pos_r; [apply Z.pow_pos_nonneg; lia | exact Hn]. }
  assert (H3 : 2 ^ (d - 1 + (e + K)) < 2 ^ (53 + K)) by lia.
  apply Z.pow_lt_mono_r_iff in H3; lia.
Qed.

Lemma shr_fexp_none (m : positive) (e : Z) :
  Z.max (Zpos (digits2_pos m) + e - 53) (-1074) - e <= 0 ->
  Zpos (digits2_pos m) + e <= 53 ->
  shr_fexp prec emax (Zpos m) e loc_Exact = (Build_shr_record (Zpos m) false false, e).
Proof.
  intros H HD. unfold shr_fexp. cbn [Zdigits2 shr_record_of_loc].
  rewrite (fexp_small _ HD).
  destruct (Z.max _ _ - e) as [|k|k]; [reflexivity | lia | reflexivity].
Qed.

(** Rounding keeps an integer below [2^53] as it is. *)
Lemma round_exact (s : bool) (m : positive) (e n : Z) :
  scaled m e n -> n < 2 ^ 53 ->
  exists m' e',
    binary_round_aux prec emax s (Zpos m) e loc_Exact = S754_finite s m' e'
    /\ scaled m' e' n.
Proof.
  intros Hs Hn.
  pose proof (scaled_digits m e n Hs Hn) as HD.
  pose proof (scaled_pos m e n Hs) as Hpos.
  pose proof (digits_bounds m) as [Hlo Hhi].
  assert (Hd : 1 <= Zpos (digits2_pos m)) by lia.
  destruct (Z_le_gt_dec (Z.max (Zpos (digits2_pos m) + e - 53) (-1074) - e) 0)
    as [Hshift|Hshift].
  - exists m, e. split; [|exact Hs].
    unfold binary_round_aux. rewrite (shr_fexp_none m e Hshift HD).
    cbn [shr_m loc_of_shr_record round_nearest_even].
    rewrite (shr_fexp_none m e Hshift HD). cbn [shr_m].
    replace (e <=? emax - prec) with true; [reflexivity|].
    symmetry. apply Z.leb_le. unfold emax, prec. lia.
  - set (F := Z.max (Zpos (digits2_pos m) + e - 53) (-1074)) in *.
    assert (HF : F <= 0) by (unfold F; lia).
    pose proof (scaled_elim m e n (- e) Hs ltac:(lia) ltac:(lia)) as Hm.
    replace (e + - e) with 0 in Hm by lia. rewrite Z.pow_0_r, Z.mul_1_r in Hm.
    assert (Hc : 0 < n * 2 ^ (- F)).
    { apply Z.mul_pos_pos; [exact Hpos | apply Z.pow_pos_nonneg; lia]. }
    destruct (n * 2 ^ (- F)) as [|c|c] eqn:Ec; try lia.
    destruct (F - e) as [|k|k] eqn:Ek; try lia.
    assert (Hmc : Zpos m = Zpos c * 2 ^ Zpos k).
    { rewrite Hm, <- Ec, <- Z.mul_assoc, <- Z.pow_add_r by lia.
      f_equal. f_equal. lia. }
    assert (Hsc : scaled c F n).
    { apply (scaled_intro c F n (- F)); try lia.
      replace (F + - F) with 0 by lia. now rewrite Z.pow_0_r, Z.mul_1_r. }
    pose proof (scaled_digits c F n Hsc Hn) as HDc.
    pose proof (digits_bounds c) as [Hclo _].
    assert (Hdc : Zpos (digits2_pos c) + Zpos k <= Zpos (digits2_pos m)).
    { assert (H : 2 ^ (Zpos (digits2_pos c) - 1 + Zpos k) < 2 ^ Zpos (digits2_pos m)).
      { rewrite Z.pow_add_r by lia.
        assert (0 < 2 ^ Zpos k) by (apply Z.pow_pos_nonneg; lia). nia. }
      apply Z.pow_lt_mono_r_iff in H; lia. }
    exists c, F. split; [|exact Hsc].
    unfold binary_round_aux. unfold shr_fexp at 1. cbn [Zdigits2 shr_record_of_loc].
    rewrite (fexp_small _ HD). fold F. rewrite Ek. cbn [shr].
    rewrite Hmc, iter_shr_1_exact.
    cbn [shr_m loc_of_shr_record round_nearest_even].
    replace (e + Zpos k) with F by lia.
    rewrite (shr_fexp_none c F) by (try exact HDc; unfold F in *; lia).
    cbn [shr_m].
    replace (F <=? emax - prec) with true; [reflexivity|].
    symmetry. apply Z.leb_le. unfold emax, prec. lia.
Qed.

Lemma scaled_mul (m1 m2 : positive) (e1 e2 a b : Z) :
  scaled m1 e1 a -> scaled m2 e2 b -> scaled (m1 * m2) (e1 + e2) (a * b).
Proof.
  intros H1 H2.
  set (K1 := Z.max 0 (- e1)). set (K2 := Z.max 0 (- e2)).
  pose proof (scaled_elim m1 e1 a K1 H1 ltac:(lia) ltac:(lia)) as E1.
  pose proof (scaled_elim m2 e2 b K2 H2 ltac:(lia) ltac:(lia)) as E2.
  assert (HK1 : 0 <= K1 /\ 0 <= e1 + K1) by (unfold K1; lia).
  assert (HK2 : 0 <= K2 /\ 0 <= e2 + K2) by (unfold K2; lia).
  clearbody K1 K2.
  apply (scaled_intro _ _ _ (K1 + K2)); try lia.
  replace (e1 + e2 + (K1 + K2)) with ((e1 + K1) + (e2 + K2)) by lia.
  rewrite !Z.pow_add_r, Pos2Z.inj_mul by lia.
  assert (E : Zpos m1 * Zpos m2 * (2 ^ (e1 + K1) * 2 ^ (e2 + K2))
              = (Zpos m1 * 2 ^ (e1 + K1)) * (Zpos m2 * 2 ^ (e2 + K2))) by ring.
  rewrite E, E1, E2, (Z.pow_add_r 2 K1 K2) by lia. ring.
Qed.

Lemma double_mul_exact (x y : double) (a b : Z) :
  is_integer x a -> is_integer y b -> - 2 ^ 53 < a * b < 2 ^ 53 ->
  is_integer (double_mul x y) (a * b).
Proof.
  destruct x as [sx|sx| |sx mx ex]; try contradiction;
    destruct y as [sy|sy| |sy my ey]; try contradiction; cbn [is_integer];
    intros Ha Hb Hab; subst; unfold double_mul; cbn [SFmul is_integer]; try lia.
  pose proof (scaled_mul _ _ _ _ _ _ Ha Hb) as Hs.
  destruct (round_exact (xorb sx sy) (mx * my) (ex + ey) _ Hs) as (m' & e' & -> & Hr).
  - destruct sx, sy; lia.
  - cbn [is_integer].
    replace (if xorb sx sy then - (a * b) else a * b)
      with ((if sx then - a else a) * (if sy then - b else b));
      [exact Hr | destruct sx, sy; cbn; ring].
Qed.

Lemma iter_xO (m d : positive) : Zpos (Pos.iter xO m d) = Zpos m * 2 ^ Zpos d.
Proof.
  induction d as [|d IH] using Pos.peano_ind.
  - cbn [Pos.iter]. change (Zpos m~0) with (2 * Zpos m). change (2 ^ 1) with 2. ring.
  - rewrite Pos.iter_succ, Pos2Z.inj_succ, Z.pow_succ_r by lia.
    change (Zpos (Pos.iter xO m d)~0) with (2 * Zpos (Pos.iter xO m d)).
    rewrite IH. ring.
Qed.

Lemma shl_align_le (m : positive) (e e' : Z) :
  e' <= e ->
  shl_align m e e' = (fst (shl_align m e e'), e')
  /\ Zpos (fst (shl_align m e e')) = Zpos m * 2 ^ (e - e').
Proof.
  intros H. unfold shl_align.
  destruct (e' - e) as [|d|d] eqn:E; try lia; cbn [fst].
  - replace e' with e by lia. rewrite Z.sub_diag, Z.pow_0_r, Z.mul_1_r. now split.
  - split; [reflexivity|]. rewrite iter_xO. f_equal. f_equal. lia.
Qed.

Lemma shl_align_scaled (m : positive) (e e' n : Z) :
  scaled m e n -> scaled (fst (shl_align m e e')) (snd (shl_align m e e')) n.
Proof.
  intros H. unfold shl_align.
  destruct (e' - e) as [|d|d] eqn:E; cbn [fst snd]; try exact H.
  set (K := Z.max 0 (- e')).
  pose proof (scaled_elim m e n K H ltac:(lia) ltac:(lia)) as E1.
  apply (scaled_intro _ _ _ K); try lia.
  rewrite iter_xO, <- Z.mul_assoc, <- Z.pow_add_r by lia.
  now replace (Zpos d + (e' + K)) with (e + K) by lia.
Qed.

(** Normalisation of an integer mantissa that stands for a small integer. *)
Lemma binary_normalize_exact (M e z : Z) (K : Z) :
  0 <= K -> 0 <= e + K -> M * 2 ^ (e + K) = z * 2 ^ K ->
  - 2 ^ 53 < z < 2 ^ 53 ->
  is_integer (binary_normalize prec emax M e false) z.
Proof.
  intros HK HeK H Hz.
  assert (Hp : 0 < 2 ^ (e + K)) by (apply Z.pow_pos_nonneg; lia).
  assert (Hq : 0 < 2 ^ K) by (apply Z.pow_pos_nonneg; lia).
  destruct M as [|p|p]; cbn [binary_normalize].
  - cbn [is_integer]. nia.
  - unfold binary_round.
    assert (Hs : scaled p e z) by (now apply (scaled_intro p e z K)).
    pose proof (shl_align_scaled p e
                  (fexp prec emax (Zpos (digits2_pos p) + e)) z Hs) as Hs'.
    destruct (shl_align p e _) as [mz ez]. cbn [fst snd] in Hs'.
    destruct (round_exact false mz ez z Hs') as (m' & e' & -> & Hr); [lia|].
    exact Hr.
  - unfold binary_round.
    assert (Hs : scaled p e (- z)).
    { apply (scaled_intro p e (- z) K); lia. }
    pose proof (shl_align_scaled p e
                  (fexp prec emax (Zpos (digits2_pos p) + e)) (- z) Hs) as Hs'.
    destruct (shl_align p e _) as [mz ez]. cbn [fst snd] in Hs'.
    destruct (round_exact true mz ez (- z) Hs') as (m' & e' & -> & Hr); [lia|].
    exact Hr.
Qed.

Lemma aligned_value (s : bool) (m : positive) (e ez a K : Z) :
  scaled m e (if s then - a else a) -> ez <= e -> 0 <= K -> 0 <= ez + K ->
  cond_Zopp s (Zpos (fst (shl_align m e ez))) * 2 ^ (ez + K) = a * 2 ^ K.
Proof.
  intros H Hez HK HezK.
  destruct (shl_align_le m e ez Hez) as [_ ->].
  pose proof (scaled_elim m e _ K H HK ltac:(lia)) as E.
  assert (E' : Zpos m * 2 ^ (e - ez) * 2 ^ (ez + K) = (if s then - a else a) * 2 ^ K).
  { rewrite <- Z.mul_assoc, <- Z.pow_add_r by lia.
    now replace (e - ez + (ez + K)) with (e + K) by lia. }
  destruct s; cbn [cond_Zopp]; lia.
Qed.

Lemma double_add_exact (x y : double) (a b : Z) :
  is_integer x a -> is_integer y b -> - 2 ^ 53 < a + b < 2 ^ 53 ->
  is_integer (double_add x y) (a + b).
Proof.
  destruct x as [sx|sx| |sx mx ex]; try contradiction;
    destruct y as [sy|sy| |sy my ey]; try contradiction; cbn [is_integer];
    intros Ha Hb Hab; unfold double_add; cbn [SFadd].
  - subst. destruct sx, sy; reflexivity.
  - subst. exact Hb.
  - subst. now rewrite Z.add_0_r.
  - set (ez := Z.min ex ey). set (K := Z.max 0 (- ez)).
    apply (binary_normalize_exact _ ez (a + b) K); try lia.
    rewrite !Z.mul_add_distr_r.
    rewrite (aligned_value sx mx ex ez a K Ha) by lia.
    now rewrite (aligned_value sy my ey ez b K Hb) by lia.
Qed.

Lemma double_sub_exact (x y : double) (a b : Z) :
  is_integer x a -> is_integer y b -> - 2 ^ 53 < a - b < 2 ^ 53 ->
  is_integer (double_sub x y) (a - b).
Proof.
  destruct x as [sx|sx| |sx mx ex]; try contradiction;
    destruct y as [sy|sy| |sy my ey]; try contradiction; cbn [is_integer];
    intros Ha Hb Hab; unfold double_sub; cbn [SFsub].
  - subst. destruct sx, sy; reflexivity.
  - subst. cbn [is_integer]. destruct sy; cbn [negb];
      [now replace (0 - b) with (- b) by lia
      | now replace (- (0 - b)) with b by lia].
  - subst. now rewrite Z.sub_0_r.
  - set (ez := Z.min ex ey). set (K := Z.max 0 (- ez)).
    apply (binary_normalize_exact _ ez (a - b) K); try lia.
    rewrite !Z.mul_sub_distr_r.
    rewrite (aligned_value sx mx ex ez a K Ha) by lia.
    now rewrite (aligned_value sy my ey ez b K Hb) by lia.
Qed.

Lemma scaled_digits_pos (m : positive) (e n : Z) :
  scaled m e n -> 1 <= Zpos (digits2_pos m) + e.
Proof.
  intros Hs. pose proof (digits_bounds m) as [_ Hhi].
  pose proof (scaled_pos m e n Hs) as Hn.
  set (K := Z.max 0 (- e)).
  pose proof (scaled_elim m e n K Hs ltac:(lia) ltac:(lia)) as H.
  assert (HK : 0 <= K /\ 0 <= e + K) by (unfold K; lia). clearbody K.
  assert (Hp : 0 < 2 ^ (e + K)) by (apply Z.pow_pos_nonneg; lia).
  assert (Hq : 0 < 2 ^ K) by (apply Z.pow_pos_nonneg; lia).
  assert (H1 : 2 ^ K < 2 ^ (Zpos (digits2_pos m) + (e + K))).
  { rewrite Z.pow_add_r by lia. nia. }
  apply Z.pow_lt_mono_r_iff in H1; lia.
Qed.

Lemma new_location_zero (nb_steps : Z) : new_location nb_steps 0 = loc_Exact.
Proof.
  unfold new_location, new_location_even, new_location_odd.
  now destruct (Z.even nb_steps).
Qed.

Lemma div_eucl_exact (q b : Z) : 0 < b -> Z.div_eucl (q * b) b = (q, 0).
Proof.
  intros Hb. pose proof (Z_div_mod (q * b) b ltac:(lia)) as H.
  destruct (Z.div_eucl (q * b) b) as [q' r]. destruct H as [H1 H2].
  assert (q' = q) by nia. subst q'. f_equal. lia.
Qed.

(** The quotient of two small integers, where the division is exact. *)
Lemma double_div_exact (x y : double) (a b c : Z) :
  is_integer x a -> is_integer y b -> b <> 0 -> a = c * b ->
  - 2 ^ 53 < a < 2 ^ 53 ->
  is_integer (double_div x y) c.
Proof.
  destruct x as [sx|sx| |sx mx ex]; try contradiction;
    destruct y as [sy|sy| |sy my ey]; try contradiction; cbn [is_integer];
    intros Ha Hb Hb0 Hab Hbound; unfold double_div; cbn [SFdiv]; try lia.
  - cbn [is_integer]. nia.
  - set (A := if sx then - a else a) in *. set (B := if sy then - b else b) in *.
    set (C := if xorb sx sy then - c else c).
    pose proof (scaled_pos _ _ _ Ha) as HA. pose proof (scaled_pos _ _ _ Hb) as HB.
    assert (HAB : A = C * B) by (unfold A, B, C; destruct sx, sy; cbn; lia).
    assert (HC : 0 < C) by nia.
    assert (HCA : C < 2 ^ 53) by (unfold A in *; destruct sx; nia).
    pose proof (scaled_digits mx ex A Ha ltac:(unfold A; destruct sx; lia)) as Hd1.
    pose proof (scaled_digits_pos my ey B Hb) as Hd2.
    unfold SFdiv_core_binary. cbn [Zdigits2].
    set (e' := Z.min (fexp prec emax (Zpos (digits2_pos mx) + ex
                                      - (Zpos (digits2_pos my) + ey))) (ex - ey)).
    assert (He' : e' < 0 /\ e' <= ex - ey).
    { unfold e'. rewrite fexp_small by lia. lia. }
    set (K := Z.max 0 (Z.max (- ex) (- ey))).
    pose proof (scaled_elim mx ex A K Ha ltac:(lia) ltac:(lia)) as E1.
    pose proof (scaled_elim my ey B K Hb ltac:(lia) ltac:(lia)) as E2.
    assert (HK : 0 <= K /\ 0 <= ex + K /\ 0 <= ey + K) by (unfold K; lia).
    clearbody K e'.
    assert (Hm' : match ex - ey - e' with
                  | Zpos _ => Z.shiftl (Zpos mx) (ex - ey - e')
                  | Z0 => Zpos mx
                  | Zneg _ => 0
                  end = (C * 2 ^ (- e')) * Zpos my).
    { assert (Hs : Zpos mx * 2 ^ (ex - ey - e') = (C * 2 ^ (- e')) * Zpos my).
      { apply (Z.mul_cancel_r _ _ (2 ^ (ey + K))); [apply Z.pow_nonzero; lia|].
        rewrite <- !Z.mul_assoc, <- Z.pow_add_r, E2 by lia.
        replace (ex - ey - e' + (ey + K)) with ((ex + K) + - e') by lia.
        rewrite Z.pow_add_r, Z.mul_assoc, E1, HAB by lia. ring. }
      remember (ex - ey - e') as sh eqn:Es.
      destruct sh as [|s|s]; try lia.
      now rewrite Z.shiftl_mul_pow2 by lia. }
    rewrite Hm', div_eucl_exact, new_location_zero by lia.
    assert (Hq : 0 < C * 2 ^ (- e')).
    { apply Z.mul_pos_pos; [exact HC | apply Z.pow_pos_nonneg; lia]. }
    destruct (C * 2 ^ (- e')) as [|qp|qp] eqn:Eq; try lia.
    assert (Hsq : scaled qp e' C).
    { apply (scaled_intro qp e' C (- e')); try lia.
      replace (e' + - e') with 0 by lia. rewrite Z.pow_0_r. lia. }
    destruct (round_exact (xorb sx sy) qp e' C Hsq HCA) as (m' & e'' & -> & Hr).
    exact Hr.
Qed.

Lemma digit_value_bounds (c : ascii) : isdigit c = true -> 0 <= digit_value c <= 9.
Proof.
  unfold isdigit, digit_value. intros H.
  apply andb_true_iff in H. destruct H as [H1 H2].
  apply N.leb_le in H1, H2. lia.
Qed.

Lemma decimal_value_nonneg (s : string) (acc : Z) :
  string_forall isdigit s = true -> 0 <= acc -> 0 <= decimal_value acc s.
Proof.
  revert acc. induction s as [|c s IH]; intros acc Hs Hacc;
    cbn [decimal_value string_forall] in *; [exact Hacc|].
  apply andb_true_iff in Hs. destruct Hs as [Hc Hs].
  apply IH; [exact Hs|]. pose proof (digit_value_bounds c Hc). lia.
Qed.

(** The conversion of an integer literal below [2^53] is exact. *)
Lemma stod_integer (literal : string) :
  nonempty literal = true -> string_forall isdigit literal = true ->
  decimal_value 0 literal < 2 ^ 53 ->
  exists d, stod literal = Return d /\ is_integer d (decimal_value 0 literal).
Proof.
  intros Hne Hdig Hbound.
  pose proof (decimal_value_nonneg literal 0 Hdig ltac:(lia)) as Hnn.
  pose proof (span_all isdigit literal "" Hdig eq_refl) as Hspan.
  rewrite string_app_nil_r in Hspan.
  unfold stod. rewrite Hspan, string_app_nil_r.
  destruct literal as [|c l]; [discriminate|].
  set (n := decimal_value 0 (String c l)) in *. clearbody n.
  cbn [String.length Z.of_nat].
  destruct n as [|p|p]; try lia.
  - exists (S754_zero false). now split.
  - assert (Hd : is_integer (decimal_to_double (Zpos p) 0) (Zpos p)).
    { unfold decimal_to_double.
      apply (double_div_exact _ _ (Zpos p) 1 (Zpos p)); try lia.
      - cbn [is_integer]. apply (scaled_intro p 0 (Zpos p) 0); lia.
      - cbn. apply (scaled_intro 1 0 1 0); lia. }
    destruct (decimal_to_double (Zpos p) 0) as [s|s| |s m e] eqn:Ed;
      cbn [is_integer] in Hd; try lia; try contradiction.
    assert (s = false).
    { destruct s; [|reflexivity]. apply scaled_pos in Hd. lia. }
    subst s. exists (S754_finite false m e). split; [|exact Hd].
    replace (represents (S754_finite false m e) (Zpos p) 0) with true;
      [now rewrite andb_false_r|].
    symmetry. unfold represents. unfold scaled in Hd.
    destruct e as [|e|e].
    + apply Z.eqb_eq. cbn in Hd |- *. lia.
    + apply Z.eqb_eq. change (Z.max 0 (- Zpos e)) with 0 in Hd.
      change (Z.max 0 (Zpos e)) with (Zpos e) in Hd.
      change (Z.of_nat 0) with 0. rewrite Z.pow_0_r in *. lia.
    + apply Z.eqb_eq. change (Z.max 0 (Zneg e)) with 0 in Hd.
      change (Z.max 0 (- Zneg e)) with (Zpos e) in Hd.
      change (Z.of_nat 0) with 0. rewrite Z.pow_0_r in *.
      rewrite Pos2Z.inj_pow. lia.
Qed.

Lemma small_bounds (z : Z) : small z = true -> - 2 ^ 53 < z < 2 ^ 53.
Proof.
  unfold small. intros H. apply andb_true_iff in H. destruct H as [H1 H2].
  apply Z.ltb_lt in H1, H2. lia.
Qed.

Lemma is_integer_nonzero (v : double) (z : Z) :
  is_integer v z -> z <> 0 -> double_eqb v (double_of_Z 0) = false.
Proof.
  destruct v as [s|s| |s m e]; cbn [is_integer]; try contradiction.
  intros _ _. now destruct s.
Qed.

Lemma integer_value_double :
  (forall f z, wf_factor f = true -> integer_factor f = true ->
               integer_value_factor f = Some z ->
               small z = true
               /\ exists v, value_factor f = Return v /\ is_integer v z)
  /\ (forall t z, wf_term t = true -> integer_term t = true ->
                  integer_value_term t = Some z ->
                  small z = true
                  /\ exists v, value_term t = Return v /\ is_integer v z)
  /\ (forall e z, wf_expr e = true -> integer_expr e = true ->
                  integer_value_expr e = Some z ->
                  small z = true
                  /\ exists v, value_expr e = Return v /\ is_integer v z).
Proof.
  apply grammar_ind.
  - intros ws literal z Hwf Hint Hz. cbn in Hwf, Hint, Hz |- *.
    apply andb_true_iff in Hwf. destruct Hwf as [Hwf _].
    apply andb_true_iff in Hwf. destruct Hwf as [_ Hne].
    destruct (small (decimal_value 0 literal)) eqn:Hs; [|discriminate].
    injection Hz as <-. split; [exact Hs|].
    apply stod_integer; try assumption. now apply small_bounds.
  - intros ws sign f _ z _ Hint. discriminate.
  - intros ws1 e IH ws2 z Hwf Hint Hz. cbn in Hwf, Hint, Hz |- *.
    apply andb_true_iff in Hwf. destruct Hwf as [Hwf _].
    apply andb_true_iff in Hwf. destruct Hwf as [_ Hwf]. now apply IH.
  - intros f IH z Hwf Hint Hz. now apply IH.
  - intros t IHt ws op f IHf z Hwf Hint Hz. cbn in Hwf, Hint, Hz |- *.
    apply andb_true_iff in Hwf. destruct Hwf as [Hwf Hwff].
    apply andb_true_iff in Hwf. destruct Hwf as [Hwft _].
    apply andb_true_iff in Hint. destruct Hint as [Hintt Hintf].
    destruct (integer_value_term t) as [a|]; [|discriminate].
    destruct (integer_value_factor f) as [b|]; [|discriminate].
    destruct (IHt a Hwft Hintt eq_refl) as (Ha & va & -> & Hva).
    destruct (IHf b Hwff Hintf eq_refl) as (Hb & vb & -> & Hvb).
    apply small_bounds in Ha, Hb. cbn [bind].
    destruct op.
    + destruct (small (a * b)) eqn:Hs; [|discriminate]. injection Hz as <-.
      split; [exact Hs|]. exists (double_mul va vb). split; [reflexivity|].
      apply double_mul_exact; try assumption. now apply small_bounds.
    + destruct (b =? 0) eqn:Hb0; [discriminate|]. apply Z.eqb_neq in Hb0.
      destruct (a mod b =? 0) eqn:Hmod; [|discriminate]. apply Z.eqb_eq in Hmod.
      injection Hz as <-.
      assert (Hab : a = a / b * b).
      { rewrite Z.mul_comm. now apply Z_div_exact_full_2. }
      assert (Hc : - 2 ^ 53 < a / b < 2 ^ 53) by nia.
      split.
      * unfold small. apply andb_true_iff. split; apply Z.ltb_lt; lia.
      * exists (double_div va vb). split.
        -- cbn [apply_multiplicative].
           now rewrite (is_integer_nonzero vb b Hvb Hb0).
        -- now apply (double_div_exact va vb a b).
  - intros t IH z Hwf Hint Hz. now apply IH.
  - intros e IHe ws op t IHt z Hwf Hint Hz. cbn in Hwf, Hint, Hz |- *.
    apply andb_true_iff in Hwf. destruct Hwf as [Hwf Hwft].
    apply andb_true_iff in Hwf. destruct Hwf as [Hwfe _].
    apply andb_true_iff in Hint. destruct Hint as [Hinte Hintt].
    destruct (integer_value_expr e) as [a|]; [|discriminate].
    destruct (integer_value_term t) as [b|]; [|discriminate].
    destruct (IHe a Hwfe Hinte eq_refl) as (Ha & va & -> & Hva).
    destruct (IHt b Hwft Hintt eq_refl) as (Hb & vb & -> & Hvb).
    cbn [bind].
    destruct (small (match op with Add => a + b | Sub => a - b end)) eqn:Hs;
      [|discriminate].
    injection Hz as <-. split; [exact Hs|].
    apply small_bounds in Hs.
    destruct op; cbn [apply_additive].
    + exists (double_add va vb). split; [reflexivity|]. now apply double_add_exact.
    + exists (double_sub va vb). split; [reflexivity|]. now apply double_sub_exact.
Qed.

Lemma is_integer_Q (v : double) (z : Z) :
  is_integer v z -> exists q, double_to_Q v = Some q /\ (q == inject_Z z)%Q.
Proof.
  destruct v as [s|s| |s m e]; cbn [is_integer]; try contradiction.
  - intros ->. now exists (0 # 1)%Q.
  - unfold scaled. intros H. cbn [double_to_Q]. eexists. split; [reflexivity|].
    destruct e as [|e|e].
    + cbn in H. unfold Qeq, inject_Z. cbn [Qnum Qden]. destruct s; lia.
    + change (Z.max 0 (Zpos e)) with (Zpos e) in H.
      change (Z.max 0 (- Zpos e)) with 0 in H. rewrite Z.pow_0_r in H.
      unfold Qeq, inject_Z. cbn [Qnum Qden].
      destruct s; [change (Zneg m) with (- Zpos m)|]; lia.
    + change (Z.max 0 (Zneg e)) with 0 in H.
      change (Z.max 0 (- Zneg e)) with (Zpos e) in H. rewrite Z.pow_0_r in H.
      unfold Qeq. cbn [Qnum Qden inject_Z]. rewrite Pos2Z.inj_pow.
      destruct s; [change (Zneg m) with (- Zpos m)|]; lia.
Qed.

Lemma integer_value_exact :
  (forall f z, integer_value_factor f = Some z ->
               exists q, exact_factor f = Some q /\ (q == inject_Z z)%Q)
  /\ (forall t z, integer_value_term t = Some z ->
                  exists q, exact_term t = Some q /\ (q == inject_Z z)%Q)
  /\ (forall e z, integer_value_expr e = Some z ->
                  exists q, exact_expr e = Some q /\ (q == inject_Z z)%Q).
Proof.
  apply grammar_ind.
  - intros ws literal z Hz. cbn in Hz |- *.
    destruct (small _); [|discriminate]. injection Hz as <-.
    eexists. split; reflexivity.
  - intros ws sign f _ z Hz. discriminate.
  - intros ws1 e IH ws2 z Hz. now apply IH.
  - intros f IH z Hz. now apply IH.
  - intros t IHt ws op f IHf z Hz. cbn in Hz |- *.
    destruct (integer_value_term t) as [a|]; [|discriminate].
    destruct (integer_value_factor f) as [b|]; [|discriminate].
    destruct (IHt a eq_refl) as (qa & -> & Ha).
    destruct (IHf b eq_refl) as (qb & -> & Hb).
    destruct op.
    + destruct (small (a * b)); [|discriminate]. injection Hz as <-.
      eexists. split; [reflexivity|]. now rewrite Ha, Hb, inject_Z_mult.
    + destruct (b =? 0) eqn:Hb0; [discriminate|]. apply Z.eqb_neq in Hb0.
      destruct (a mod b =? 0) eqn:Hmod; [|discriminate]. apply Z.eqb_eq in Hmod.
      injection Hz as <-.
      assert (Hnz : ~ (inject_Z b == 0)%Q).
      { unfold Qeq, inject_Z. cbn [Qnum Qden]. lia. }
      replace (Qeq_bool qb (0 # 1)) with false.
      * eexists. split; [reflexivity|]. rewrite Ha, Hb.
        assert (Hab : a = a / b * b).
        { rewrite Z.mul_comm. now apply Z_div_exact_full_2. }
        rewrite Hab at 1. rewrite inject_Z_mult. now field.
      * symmetry. apply not_true_is_false. intros E. apply Qeq_bool_eq in E.
        apply Hnz. now rewrite <- Hb.
  - intros t IH z Hz. now apply IH.
  - intros e IHe ws op t IHt z Hz. cbn in Hz |- *.
    destruct (integer_value_expr e) as [a|]; [|discriminate].
    destruct (integer_value_term t) as [b|]; [|discriminate].
    destruct (IHe a eq_refl) as (qa & -> & Ha).
    destruct (IHt b eq_refl) as (qb & -> & Hb).
    destruct (small _); [|discriminate]. injection Hz as <-.
    eexists. split; [reflexivity|].
    destruct op; rewrite Ha, Hb.
    + now rewrite inject_Z_plus.
    + unfold Qminus, Z.sub. now rewrite inject_Z_plus, inject_Z_opp.
Qed.

(** The pipeline is exact on integers of magnitude below [2^53]. *)
Lemma compile_and_evaluate_exact (e : gexpr) (ws : string) (z : Z) :
  wf_expr e = true -> integer_expr e = true ->
  string_forall isspace ws = true ->
  integer_value_expr e = Some z ->
  evaluates_exactly e ws.
Proof.
  intros Hwf Hint Hws Hz q Hq.
  destruct integer_value_double as (_ & _ & Hd).
  destruct (Hd e z Hwf Hint Hz) as (_ & v & Hv & Hvz).
  destruct integer_value_exact as (_ & _ & Hx).
  destruct (Hx e z Hz) as (q0 & Hq0 & Hqz).
  destruct (is_integer_Q v z Hvz) as (q' & Hq' & Hq'z).
  exists v, q'. split; [now apply compile_and_evaluate_value|].
  split; [exact Hq'|].
  rewrite Hq in Hq0. injection Hq0 as <-. now rewrite Hq'z, Hqz.
Qed.

End ExactIntegers.

(** ** Properties of the pipeline *)

(** C1, as stated, fails: the text [1 / 3] is a valid expression of integer
    literals with no division by zero, its exact value is one third, and the
    pipeline returns the double [6004799503160661 * 2^-54], which is not one
    third.  Nor is the result always the double nearest to the exact value:
    [1 / 10 * 3] has the exact value three tenths, whose nearest double is
    [5404319552844595 * 2^-54], and the pipeline returns the next double
    up. *)
Lemma evaluate_exact_counterexample :
  wf_expr one_third = true
  /\ integer_expr one_third = true
  /\ render_expr one_third = "1 / 3"
  /\ exact_expr one_third = Some (1 # 3)%Q
  /\ compile_and_evaluate "1 / 3" = Return (S754_finite false 6004799503160661 (-54))
  /\ ~ evaluates_exactly one_third ""
  /\ wf_expr three_tenths = true
  /\ integer_expr three_tenths = true
  /\ render_expr three_tenths = "1 / 10 * 3"
  /\ compile_and_evaluate "1 / 10 * 3"
     = Return (S754_finite false 5404319552844596 (-54))
  /\ decimal_to_double 3 1 = S754_finite false 5404319552844595 (-54)
  /\ ~ evaluates_exactly three_tenths "".
Proof.
  repeat split; try (vm_compute; reflexivity).
  - intros H. destruct (H (1 # 3)%Q eq_refl) as (v & q' & Hv & Hq & Heq).
    vm_compute in Hv. injection Hv as <-.
    vm_compute in Hq. injection Hq as <-.
    vm_compute in Heq. discriminate.
  - intros H. destruct (H _ eq_refl) as (v & q' & Hv & Hq & Heq).
    vm_compute in Hv. injection Hv as <-.
    vm_compute in Hq. injection Hq as <-.
    vm_compute in Heq. discriminate.
Qed.

(** C1 (amended): for every valid expression composed of integer literals,
    the binary operators and balanced parentheses, [evaluate] returns the
    value of the expression read with the standard precedence and
    left-associativity (the value the left-recursive grammar gives it), with
    every literal converted to a double and every operation carried out in
    double arithmetic, whenever that value exists (every literal converts and
    no divisor is zero).  That value is the mathematically correct one
    whenever every literal and every intermediate result is an integer of
    magnitude below [2^53] (so that every division is exact).  In particular
    ["2 + 3 * 4"] parses as [2 + (3 * 4)] and evaluates to 14, and
    ["10 - 5 - 2"] parses as [(10 - 5) - 2] and evaluates to 3. *)
Theorem evaluate_precedence_associativity :
  (forall e ws v,
      wf_expr e = true -> integer_expr e = true ->
      string_forall isspace ws = true ->
      value_expr e = Return v ->
      compile_and_evaluate (render_expr e ++ ws) = Return v)
  /\ (forall e ws z,
         wf_expr e = true -> integer_expr e = true ->
         string_forall isspace ws = true ->
         integer_value_expr e = Some z ->
         evaluates_exactly e ws)
  /\ parse_text "2 + 3 * 4"
     = Return (BinaryOpNode (NumberNode (double_of_Z 2)) PLUS
                 (BinaryOpNode (NumberNode (double_of_Z 3)) MULTIPLY
                               (NumberNode (double_of_Z 4))))
  /\ compile_and_evaluate "2 + 3 * 4" = Return (double_of_Z 14)
  /\ parse_text "10 - 5 - 2"
     = Return (BinaryOpNode
                 (BinaryOpNode (NumberNode (double_of_Z 10)) MINUS
                               (NumberNode (double_of_Z 5)))
                 MINUS (NumberNode (double_of_Z 2)))
  /\ compile_and_evaluate "10 - 5 - 2" = Return (double_of_Z 3).
Proof.
  split; [|split; [exact compile_and_evaluate_exact|]].
  - intros e ws v Hwf _ Hws Hv. now apply compile_and_evaluate_value.
  - repeat split; vm_compute; reflexivity.
Qed.

Lemma evaluate_precedence_associativity_witness :
  render_expr two_plus_three_times_four ++ "" = "2 + 3 * 4"
  /\ compile_and_evaluate (render_expr two_plus_three_times_four ++ "")
     = Return (double_of_Z 14)
  /\ evaluates_exactly two_plus_three_times_four "".
Proof.
  split; [reflexivity|]. split.
  - apply (proj1 evaluate_precedence_associativity two_plus_three_times_four ""
                 (double_of_Z 14)); vm_compute; reflexivity.
  - apply (proj1 (proj2 evaluate_precedence_associativity)
                 two_plus_three_times_four "" 14%Z); vm_compute; reflexivity.
Defined.

Lemma double_eqb_zero (d : double) :
  double_eqb d (double_of_Z 0) = true <-> exists s, d = S754_zero s.
Proof.
  split.
  - destruct d as [s|s| |s m e]; intros H; [now exists s| | |];
      try destruct s; vm_compute in H; discriminate H.
  - intros [s ->]. reflexivity.
Qed.

(** C2: for a division node whose operands evaluate, evaluation fails with
    DivisionByZero if and only if the value of the right operand is a
    floating-point zero exactly (of either sign, and nothing else: there is no
    tolerance), and otherwise it returns the quotient of the two doubles; a
    failure of an operand is the failure of the node, the left operand
    first.  [evaluate("5 / 0")] fails with the CompilationError that wraps
    DivisionByZero. *)
Theorem division_by_zero_exact :
  (forall l r lv rv,
      evaluate l = Return lv -> evaluate r = Return rv ->
      (evaluate (BinaryOpNode l DIVIDE r) = Throw DivisionByZero
       <-> exists s, rv = S754_zero s)
      /\ ((forall s, rv <> S754_zero s) ->
          evaluate (BinaryOpNode l DIVIDE r) = Return (double_div lv rv)))
  /\ (forall l r e,
         evaluate l = Throw e -> evaluate (BinaryOpNode l DIVIDE r) = Throw e)
  /\ (forall l r lv e,
         evaluate l = Return lv -> evaluate r = Throw e ->
         evaluate (BinaryOpNode l DIVIDE r) = Throw e)
  /\ compile_and_evaluate "5 / 0" = Throw (CompilationError DivisionByZero).
Proof.
  split; [|split; [|split; [|vm_compute; reflexivity]]].
  - intros l r lv rv Hl Hr. cbn [evaluate]. rewrite Hl, Hr. cbn [bind].
    pose proof (double_eqb_zero rv) as Hz.
    destruct (double_eqb rv (double_of_Z 0)); split.
    + split; [intros _; now apply Hz | reflexivity].
    + intros Hne. destruct (proj1 Hz eq_refl) as [s Hs]. now destruct (Hne s).
    + split; [discriminate|]. intros Hs. apply Hz in Hs. discriminate.
    + reflexivity.
  - intros l r e Hl. cbn [evaluate]. now rewrite Hl.
  - intros l r lv e Hl Hr. cbn [evaluate]. now rewrite Hl, Hr.
Qed.

Lemma division_by_zero_exact_witness :
  (evaluate (BinaryOpNode (NumberNode (double_of_Z 5)) DIVIDE
                          (NumberNode (S754_zero true)))
   = Throw DivisionByZero
   <-> exists s, S754_zero true = S754_zero s)
  /\ ((forall s, S754_finite false 1 (-1074) <> S754_zero s) ->
      evaluate (BinaryOpNode (NumberNode (double_of_Z 5)) DIVIDE
                             (NumberNode (S754_finite false 1 (-1074))))
      = Return (double_div (double_of_Z 5) (S754_finite false 1 (-1074)))).
Proof.
  split.
  - exact (proj1 (proj1 division_by_zero_exact
                        (NumberNode (double_of_Z 5)) (NumberNode (S754_zero true))
                        (double_of_Z 5) (S754_zero true) eq_refl eq_refl)).
  - exact (proj2 (proj1 division_by_zero_exact
                        (NumberNode (double_of_Z 5))
                        (NumberNode (S754_finite false 1 (-1074)))
                        (double_of_Z 5) (S754_finite false 1 (-1074))
                        eq_refl eq_refl)).
Defined.

(** C3: for every input string, [evaluate] ends in one of two ways.  Either
    lexing, parsing and evaluation all succeed and it returns the value of the
    parsed tree; or one of the steps fails, and the call returns nothing but
    a single CompilationError whose message is the message of that failure
    after the prefix ["Compilation error: "]. *)
Theorem compile_and_evaluate_outcome (text : string) :
  (exists p ast p' result,
      new_Parser text = Return p /\ parse p = Return (ast, p')
      /\ evaluate ast = Return result
      /\ compile_and_evaluate text = Return result)
  \/ (exists cause,
         fails_with text cause
         /\ compile_and_evaluate text = Throw (CompilationError cause)
         /\ what (CompilationError cause) = "Compilation error: " ++ what cause).
Proof.
  unfold compile_and_evaluate, fails_with.
  pose proof (new_Parser_terminates text) as Hn.
  destruct (new_Parser text) as [p|cause|] eqn:Hp; cbn [bind]; [| |contradiction].
  - pose proof (parse_terminates p (new_Parser_ok _ _ Hp)) as Hq.
    destruct (parse p) as [[ast p']|cause|] eqn:Hparse; cbn [bind];
      [| |contradiction].
    + pose proof (evaluate_terminates ast) as He.
      destruct (evaluate ast) as [result|cause|] eqn:Hev; [| |contradiction].
      * left. now exists p, ast, p', result.
      * right. exists cause. repeat split.
        right. right. now exists p, ast, p'.
    + right. exists cause. repeat split. right. left. now exists p.
  - right. exists cause. repeat split. now left.
Qed.

Lemma span_forall (f : ascii -> bool) (s : string) :
  string_forall f (fst (span f s)) = true.
Proof.
  induction s as [|c s IH]; simpl; [reflexivity|].
  destruct (f c) eqn:E; [|reflexivity].
  destruct (span f s) as [run rest]; simpl in *. now rewrite E.
Qed.

Lemma span_head_false (f : ascii -> bool) (s : string) :
  f NUL = false -> f (head (snd (span f s))) = false.
Proof.
  intros Hnul. pose proof (span_head f s) as H.
  destruct (snd (span f s)); [exact Hnul | exact H].
Qed.

Lemma get_next_token_number (pre suf : string) :
  is_numeric (head suf) = true ->
  get_next_token (lexer_at pre suf)
  = (v <- stod (fst (span is_numeric suf));;
     Return (mkToken NUMBER v,
             lexer_at (pre ++ fst (span is_numeric suf)) (snd (span is_numeric suf)))).
Proof.
  intros Hh. rewrite get_next_token_at. unfold scan.
  pose proof (span_all isspace "" suf eq_refl (is_numeric_not_space _ Hh)) as Hsp.
  cbn [append] in Hsp. rewrite Hsp, string_app_nil_r.
  destruct suf as [|c s2]; [discriminate|]. cbn [head] in Hh.
  cbn [scan_token]. rewrite (is_numeric_not_nul _ Hh), Hh.
  destruct (span is_numeric (String c s2)) as [run rest]. reflexivity.
Qed.

(** C4, as stated, fails: at the input ["."] the scan point is at a ['.'],
    the conversion of the numeric substring ["."] fails, and the lexer throws
    instead of producing a Number token. *)
Lemma number_token_counterexample :
  get_next_token (new_Lexer ".") = Throw (invalid_argument "stod")
  /\ ~ (forall pre suf,
           is_numeric (head suf) = true ->
           exists v lx', get_next_token (lexer_at pre suf)
                         = Return (mkToken NUMBER v, lx')).
Proof.
  split; [vm_compute; reflexivity|].
  intros H. destruct (H "" "." eq_refl) as (v & lx' & Hv).
  vm_compute in Hv. discriminate.
Qed.

(** C4 (amended): whenever the scan point is at a digit or ['.'], the lexer
    consumes the maximal run of digits and ['.'] characters, with no check on
    the number of ['.'] (all of ["1.2.3"] is one run), and passes it to the
    numeric-string-to-double conversion; when the conversion succeeds the
    lexer produces one Number token holding the converted value and stands
    after the run, and when the conversion fails its exception is the outcome
    and no token is produced. *)
Theorem number_token_greedy (pre suf : string) :
  is_numeric (head suf) = true ->
  let run := fst (span is_numeric suf) in
  let rest := snd (span is_numeric suf) in
  run ++ rest = suf
  /\ string_forall is_numeric run = true
  /\ is_numeric (head rest) = false
  /\ get_next_token (lexer_at pre suf)
     = match stod run with
       | Return v => Return (mkToken NUMBER v, lexer_at (pre ++ run) rest)
       | Throw e => Throw e
       | Timeout => Timeout
       end
  /\ span is_numeric "1.2.3" = ("1.2.3", "").
Proof.
  intros Hh run rest. subst run rest.
  split; [apply span_app|].
  split; [apply span_forall|].
  split; [now apply span_head_false|].
  split; [|reflexivity].
  rewrite (get_next_token_number pre suf Hh).
  destruct (stod _); reflexivity.
Qed.

Lemma number_token_greedy_witness :
  get_next_token (lexer_at "7+" "1.2.3*4")
  = Return (mkToken NUMBER (S754_finite false 5404319552844595 (-52)),
            lexer_at "7+1.2.3" "*4").
Proof.
  exact (proj1 (proj2 (proj2 (proj2 (number_token_greedy "7+" "1.2.3*4" eq_refl))))).
Defined.

Lemma no_nul_suffix (pre suf : string) :
  no_nul (pre ++ suf) = true -> is_nul (head suf) = true -> suf = "".
Proof.
  unfold no_nul. induction pre as [|c pre IH]; simpl.
  - destruct suf as [|c suf]; [reflexivity|]. simpl.
    intros H1 H2. rewrite H2 in H1. discriminate.
  - intros H. apply andb_true_iff in H. now apply IH.
Qed.

Lemma parse_expr (p : Parser) (fuel : nat) (node : ASTNode) (p' : Parser) :
  parser_ok p -> expr fuel p = Return (node, p') ->
  parse p = if TokenType_eqb (type (current_token p')) END_OF_FILE
            then Return (node, p') else Throw UnexpectedTokenAtEnd.
Proof.
  intros Hok He. unfold parse.
  rewrite (expr_parse_fuel p fuel _ Hok He) by discriminate. cbn [bind].
  now destruct (TokenType_eqb _ _).
Qed.

Lemma parse_success (text : string) (p : Parser) (node : ASTNode) (p' : Parser) :
  new_Parser text = Return p -> parse p = Return (node, p') ->
  type (current_token p') = END_OF_FILE
  /\ current_char (lexer p') = NUL
  /\ input (lexer p') = text
  /\ (no_nul text = true -> position (lexer p') = String.length text).
Proof.
  intros Hp Hparse. rewrite new_Parser_start in Hp.
  destruct (start_ok _ _ _ Hp) as [Hok Hin].
  pose proof (expr_parse_fuel_settles p Hok) as Hs.
  unfold parse in Hparse.
  destruct (expr (parse_fuel p) p) as [[node1 p1]| |]; try discriminate.
  cbn [bind] in Hparse.
  destruct (TokenType_eqb (type (current_token p1)) END_OF_FILE) eqn:Ht;
    try discriminate.
  cbn in Hparse. injection Hparse as <- <-.
  apply TokenType_eqb_eq in Ht.
  destruct Hs as ((pre & suf & Hlx & Hend) & _ & Hin1).
  specialize (Hend Ht). rewrite Hin in Hin1. cbn [append] in Hin1.
  rewrite Hlx in *. cbn [lexer_at current_char input position] in *.
  split; [exact Ht|]. split; [now apply is_nul_true|]. split; [exact Hin1|].
  intros Hnn. rewrite <- Hin1 in Hnn |- *.
  rewrite (no_nul_suffix pre suf Hnn Hend). now rewrite string_app_nil_r.
Qed.

Lemma get_next_token_exhausted (lx : Lexer) :
  current_char lx = NUL -> get_next_token lx = Return (Token1 END_OF_FILE, lx).
Proof.
  intros H. unfold get_next_token, loop_bound. cbn [get_next_token_loop].
  now rewrite H.
Qed.

Lemma get_next_token_end (pre suf : string) (tok : Token) (lx' : Lexer) :
  get_next_token (lexer_at pre suf) = Return (tok, lx') ->
  type tok = END_OF_FILE -> current_char lx' = NUL.
Proof.
  rewrite get_next_token_at. intros H Ht. apply scan_inv in H.
  destruct H as (pre' & suf' & -> & _ & H). rewrite Ht in H. cbn in H.
  now apply is_nul_true.
Qed.

(** C6: once the lexer is exhausted (its current character is the sentinel,
    as it is when the position has reached the length of the input), every
    call of [get_next_token] returns EndOfInput and leaves the lexer as it
    is, however many calls are made; and a call that returns EndOfInput
    leaves the lexer exhausted. *)
Theorem end_of_input_idempotent :
  (forall lx n,
      current_char lx = NUL ->
      next_tokens n lx = Return (repeat (Token1 END_OF_FILE) n, lx))
  /\ (forall text, current_char (lexer_at text "") = NUL)
  /\ (forall pre suf tok lx',
         get_next_token (lexer_at pre suf) = Return (tok, lx') ->
         type tok = END_OF_FILE -> current_char lx' = NUL).
Proof.
  split; [|split; [reflexivity | exact get_next_token_end]].
  intros lx n H. induction n as [|n IH]; [reflexivity|].
  cbn [next_tokens repeat]. rewrite (get_next_token_exhausted lx H). cbn [bind].
  now rewrite IH.
Qed.

Lemma end_of_input_idempotent_witness :
  next_tokens 3 (lexer_at "2+3 " "")
  = Return ([Token1 END_OF_FILE; Token1 END_OF_FILE; Token1 END_OF_FILE],
            lexer_at "2+3 " "").
Proof.
  exact (proj1 end_of_input_idempotent (lexer_at "2+3 " "") 3 eq_refl).
Defined.

Lemma wf_unary_run (signs : list (string * additive)) (f : gfactor) :
  spaces_before signs = true -> wf_factor f = true ->
  wf_factor (unary_run signs f) = true.
Proof.
  intros Hs Hf. induction signs as [|[ws sign] signs IH]; [exact Hf|].
  cbn in Hs |- *. apply andb_true_iff in Hs. destruct Hs as [Hws Hs].
  now rewrite Hws, IH.
Qed.

Lemma ast_unary_run (signs : list (string * additive)) (f : gfactor) (node : ASTNode) :
  ast_factor f = Return node ->
  ast_factor (unary_run signs f) = Return (unary_nest signs node).
Proof.
  intros Hf. induction signs as [|[ws sign] signs IH]; [exact Hf|].
  cbn. now rewrite IH.
Qed.

Lemma unary_depth_nest (signs : list (string * additive)) (node : ASTNode) :
  unary_depth (unary_nest signs node) = List.length signs + unary_depth node.
Proof.
  induction signs as [|[ws sign] signs IH]; [reflexivity|].
  cbn. now rewrite IH.
Qed.

Lemma evaluate_unary_plus (n : ASTNode) : evaluate (UnaryOpNode PLUS n) = evaluate n.
Proof. cbn. now destruct (evaluate n). Qed.

(** C7: a run of [n] unary signs before a factor parses to [n] nested unary
    nodes around the tree of the factor; a unary sign binds tighter than
    every binary operator (in [-a op b] the sign applies to [a] alone);
    evaluating a unary Plus node gives the value of its operand and a unary
    Minus node its negation; [evaluate("--3") == 3] and
    [evaluate("-3 + 4") == 1]. *)
Theorem unary_signs_nest :
  (forall signs f ws node,
      spaces_before signs = true -> wf_factor f = true ->
      string_forall isspace ws = true ->
      ast_factor f = Return node ->
      parse_text (render_factor (unary_run signs f) ++ ws)
      = Return (unary_nest signs node)
      /\ unary_depth (unary_nest signs node) = List.length signs + unary_depth node)
  /\ (forall sign f op g nf ng,
         wf_factor (GUnary "" sign f) = true -> wf_factor g = true ->
         ast_factor f = Return nf -> ast_factor g = Return ng ->
         parse_text (render_factor (GUnary "" sign f)
                     ++ String (additive_char op) (render_factor g))
         = Return (BinaryOpNode (UnaryOpNode (additive_type sign) nf)
                                (additive_type op) ng))
  /\ (forall sign f op g nf ng,
         wf_factor (GUnary "" sign f) = true -> wf_factor g = true ->
         ast_factor f = Return nf -> ast_factor g = Return ng ->
         parse_text (render_factor (GUnary "" sign f)
                     ++ String (multiplicative_char op) (render_factor g))
         = Return (BinaryOpNode (UnaryOpNode (additive_type sign) nf)
                                (multiplicative_type op) ng))
  /\ (forall n, evaluate (UnaryOpNode PLUS n) = evaluate n)
  /\ (forall n, evaluate (UnaryOpNode MINUS n)
                = (v <- evaluate n;; Return (double_neg v)))
  /\ parse_text "--3"
     = Return (UnaryOpNode MINUS (UnaryOpNode MINUS (NumberNode (double_of_Z 3))))
  /\ compile_and_evaluate "--3" = Return (double_of_Z 3)
  /\ compile_and_evaluate "-3 + 4" = Return (double_of_Z 1).
Proof.
  split; [|split; [|split; [|split; [exact evaluate_unary_plus|]]]].
  - intros signs f ws node Hs Hwf Hws Hast. split; [|apply unary_depth_nest].
    apply (parse_text_render (GTerm (GFactor (unary_run signs f))) ws).
    + now apply wf_unary_run.
    + exact Hws.
    + now apply ast_unary_run.
  - intros sign f op g nf ng Hwf Hwg Hf Hg.
    rewrite <- (string_app_nil_r (_ ++ String (additive_char op) (render_factor g))).
    apply (parse_text_render
             (GAddSub (GTerm (GFactor (GUnary "" sign f))) "" op (GFactor g)) "").
    + cbn [wf_expr wf_term]. now rewrite Hwf, Hwg.
    + reflexivity.
    + cbn. now rewrite Hf, Hg.
  - intros sign f op g nf ng Hwf Hwg Hf Hg.
    rewrite <- (string_app_nil_r
                  (_ ++ String (multiplicative_char op) (render_factor g))).
    apply (parse_text_render
             (GTerm (GMulDiv (GFactor (GUnary "" sign f)) "" op g)) "").
    + cbn [wf_expr wf_term]. now rewrite Hwf, Hwg.
    + reflexivity.
    + cbn. now rewrite Hf, Hg.
  - repeat split; vm_compute; reflexivity.
Qed.

Lemma unary_signs_nest_witness :
  parse_text "-- +3 "
  = Return (UnaryOpNode MINUS (UnaryOpNode MINUS (UnaryOpNode PLUS
              (NumberNode (double_of_Z 3)))))
  /\ unary_depth (UnaryOpNode MINUS (UnaryOpNode MINUS (UnaryOpNode PLUS
                    (NumberNode (double_of_Z 3))))) = 3 + 0.
Proof.
  exact (proj1 unary_signs_nest [("", Sub); ("", Sub); (" ", Add)]
               (GNumber "" "3") " " (NumberNode (double_of_Z 3))
               eq_refl eq_refl eq_refl eq_refl).
Defined.

Lemma get_next_token_spaces (ws : string) :
  string_forall isspace ws = true ->
  get_next_token (new_Lexer ws) = Return (Token1 END_OF_FILE, lexer_at ws "").
Proof.
  intros Hws. change (new_Lexer ws) with (lexer_at "" ws).
  rewrite get_next_token_at. unfold scan.
  pose proof (span_all isspace ws "" Hws eq_refl) as Hsp.
  rewrite string_app_nil_r in Hsp. now rewrite Hsp.
Qed.

Lemma factor_at_end (fuel : nat) (p : Parser) :
  type (current_token p) = END_OF_FILE -> factor (S fuel) p = Throw InvalidSyntax.
Proof. intros H. cbn [factor]. now rewrite H. Qed.

Lemma parse_text_spaces (ws : string) :
  string_forall isspace ws = true -> parse_text ws = Throw InvalidSyntax.
Proof.
  intros Hws. unfold parse_text. rewrite new_Parser_start, (start_end "" ws Hws).
  cbn [bind append]. unfold parse, parse_fuel. rewrite remaining_at.
  reflexivity.
Qed.

(** C8: [evaluate] applied to the empty string, or to a string of whitespace
    only, fails: the first token the lexer produces is EndOfInput, the factor
    rule has no alternative for it and fails with InvalidSyntax, and the call
    fails with the CompilationError that wraps InvalidSyntax. *)
Theorem empty_input_invalid_syntax (ws : string) :
  string_forall isspace ws = true ->
  get_next_token (new_Lexer ws) = Return (Token1 END_OF_FILE, lexer_at ws "")
  /\ (forall fuel p, type (current_token p) = END_OF_FILE ->
                     factor (S fuel) p = Throw InvalidSyntax)
  /\ parse_text ws = Throw InvalidSyntax
  /\ compile_and_evaluate ws = Throw (CompilationError InvalidSyntax).
Proof.
  intros Hws.
  split; [now apply get_next_token_spaces|].
  split; [exact factor_at_end|].
  split; [now apply parse_text_spaces|].
  rewrite compile_and_evaluate_parse_text. now rewrite parse_text_spaces.
Qed.

Lemma empty_input_invalid_syntax_witness :
  compile_and_evaluate "" = Throw (CompilationError InvalidSyntax)
  /\ compile_and_evaluate "  " = Throw (CompilationError InvalidSyntax).
Proof.
  split.
  - exact (proj2 (proj2 (proj2 (empty_input_invalid_syntax "" eq_refl)))).
  - exact (proj2 (proj2 (proj2 (empty_input_invalid_syntax "  " eq_refl)))).
Defined.

Ltac unfold_bind H :=
  repeat match type of H with
         | bind ?c _ = Return _ =>
             let E := fresh "E" in
             destruct c as [?| |] eqn:E; cbn [bind] in H; try discriminate H
         | match ?x with (_, _) => _ end = Return _ =>
             destruct x; cbv beta iota in H
         end.

Lemma parser_operators_ok (fuel : nat) :
  (forall p node p', factor fuel p = Return (node, p') -> operators_ok node = true)
  /\ (forall p node p', term fuel p = Return (node, p') -> operators_ok node = true)
  /\ (forall node0 p node p',
         operators_ok node0 = true ->
         term_loop fuel node0 p = Return (node, p') -> operators_ok node = true)
  /\ (forall p node p', expr fuel p = Return (node, p') -> operators_ok node = true)
  /\ (forall node0 p node p',
         operators_ok node0 = true ->
         expr_loop fuel node0 p = Return (node, p') -> operators_ok node = true).
Proof.
  induction fuel as [|fuel (IHf & IHt & IHtl & IHe & IHel)].
  - repeat split; intros; discriminate.
  - repeat split.
    + intros p node p' H. cbn [factor] in H.
      destruct (type (current_token p)); try discriminate H; unfold_bind H;
        revert H; intros [= <- <-]; cbn; eauto.
    + intros p node p' H. cbn [term] in H. unfold_bind H. eauto.
    + intros node0 p node p' H0 H. cbn [term_loop] in H.
      destruct (type (current_token p)); unfold_bind H;
        try (revert H; intros [= <- <-]; exact H0);
        (eapply IHtl; [|exact H]); cbn; rewrite H0; eauto.
    + intros p node p' H. cbn [expr] in H. unfold_bind H. eauto.
    + intros node0 p node p' H0 H. cbn [expr_loop] in H.
      destruct (type (current_token p)); unfold_bind H;
        try (revert H; intros [= <- <-]; exact H0);
        (eapply IHel; [|exact H]); cbn; rewrite H0; eauto.
Qed.

Lemma evaluate_operators_ok (n : ASTNode) :
  operators_ok n = true -> forall e, evaluate n = Throw e -> e = DivisionByZero.
Proof.
  induction n as [val|l IHl op r IHr|op operand IH]; cbn; intros Hok e H.
  - discriminate.
  - assert (Hlr : operators_ok l = true /\ operators_ok r = true)
      by (destruct op; try discriminate; now apply andb_true_iff).
    destruct Hlr as [Hl Hr].
    destruct (evaluate l) as [lv|e1|]; cbn in H;
      [|injection H as <-; now apply IHl | discriminate].
    destruct (evaluate r) as [rv|e2|]; cbn in H;
      [|injection H as <-; now apply IHr | discriminate].
    destruct op; try discriminate.
    destruct (double_eqb rv _); [congruence | discriminate].
  - assert (Ho : operators_ok operand = true) by (destruct op; now try discriminate).
    destruct (evaluate operand) as [v|e1|]; cbn in H;
      [|injection H as <-; now apply IH | discriminate].
    destruct op; discriminate.
Qed.

Lemma parse_operators_ok (p : Parser) (node : ASTNode) (p' : Parser) :
  parse p = Return (node, p') -> operators_ok node = true.
Proof.
  unfold parse. intros H.
  destruct (expr (parse_fuel p) p) as [[node1 p1]| |] eqn:He; try discriminate.
  cbn [bind] in H. destruct (negb _); try discriminate.
  revert H. intros [= <- <-].
  destruct (parser_operators_ok (parse_fuel p)) as (_ & _ & _ & Hexpr & _).
  exact (Hexpr _ _ _ He).
Qed.

(** C9: in every tree that [parse()] produces the binary nodes carry one of
    Plus, Minus, Multiply, Divide and the unary nodes Plus or Minus, so that
    its evaluation never reaches the "Unknown binary operator" or "Unknown
    unary operator" branch: it can fail with DivisionByZero only. *)
Theorem parsed_tree_fails_only_by_division (p : Parser) (node : ASTNode) (p' : Parser) :
  parse p = Return (node, p') ->
  operators_ok node = true
  /\ (forall e, evaluate node = Throw e -> e = DivisionByZero)
  /\ evaluate node <> Throw UnknownBinaryOperator
  /\ evaluate node <> Throw UnknownUnaryOperator.
Proof.
  intros H. pose proof (parse_operators_ok p node p' H) as Hok.
  pose proof (evaluate_operators_ok node Hok) as He.
  repeat split; try assumption; intros E; apply He in E; discriminate.
Qed.

Lemma parsed_tree_fails_only_by_division_witness :
  new_Parser "5 / -0"
  = Return (mkParser (lexer_at "5" " / -0") (mkToken NUMBER (double_of_Z 5)))
  /\ forall e,
       evaluate (BinaryOpNode (NumberNode (double_of_Z 5)) DIVIDE
                              (UnaryOpNode MINUS (NumberNode (double_of_Z 0))))
       = Throw e ->
       e = DivisionByZero.
Proof.
  split; [reflexivity|].
  exact (proj1 (proj2
           (parsed_tree_fails_only_by_division
              (mkParser (lexer_at "5" " / -0") (mkToken NUMBER (double_of_Z 5)))
              (BinaryOpNode (NumberNode (double_of_Z 5)) DIVIDE
                            (UnaryOpNode MINUS (NumberNode (double_of_Z 0))))
              (mkParser (lexer_at "5 / -0" "") (Token1 END_OF_FILE))
              eq_refl))).
Defined.

(** C10: [evaluate("1.2.3")] succeeds and returns 1.2 (the double nearest to
    it): the lexer consumes the whole string as one numeric substring, the
    conversion parses its longest valid prefix ["1.2"] and ignores the rest,
    and the single Number token parses and evaluates to that value, as
    [evaluate("1.2")] does. *)
Theorem malformed_literal_prefix :
  get_next_token (new_Lexer "1.2.3")
  = Return (mkToken NUMBER one_point_two, lexer_at "1.2.3" "")
  /\ stod "1.2.3" = Return one_point_two
  /\ stod "1.2" = Return one_point_two
  /\ parse_text "1.2.3" = Return (NumberNode one_point_two)
  /\ compile_and_evaluate "1.2.3" = Return one_point_two
  /\ compile_and_evaluate "1.2" = Return one_point_two
  /\ (exists q, double_to_Q one_point_two = Some q
                /\ Qle_bool (Qabs (q - (12 # 10))) (1 # 2 ^ 53) = true).
Proof.
  repeat split; try (vm_compute; reflexivity).
  eexists. split; [reflexivity | vm_compute; reflexivity].
Qed.

(** ** Further properties *)


Lemma parse_text_unfold (text : string) :
  parse_text text
  = ('(node, p') <- (p <- new_Parser text;; expr (parse_fuel p) p);;
     if negb (TokenType_eqb (type (current_token p')) END_OF_FILE)
     then Throw UnexpectedTokenAtEnd else Return node).
Proof.
  unfold parse_text, parse.
  destruct (new_Parser text) as [p| |]; cbn [bind]; try reflexivity.
  destruct (expr (parse_fuel p) p) as [[node p']| |]; cbn [bind]; try reflexivity.
  now destruct (negb _).
Qed.

(** The outcome of [expr] on a text, from the outcome that enough fuel gives. *)
Lemma expr_text_eventually (text : string) (r : outcome (ASTNode * Parser)) :
  eventually (fun fuel => p <- start "" text;; expr fuel p) r -> r <> Timeout ->
  (p <- new_Parser text;; expr (parse_fuel p) p) = r.
Proof.
  intros [fuel0 H] Hr. specialize (H fuel0 (le_n _)).
  rewrite new_Parser_start.
  destruct (start "" text) as [p| |] eqn:Hp; cbn [bind] in *.
  - apply (expr_parse_fuel p fuel0 r); [now apply (start_ok "" text) | exact H | exact Hr].
  - exact H.
  - congruence.
Qed.

Lemma parse_text_throws (text : string) (e : exception) :
  eventually (fun fuel => p <- start "" text;; expr fuel p) (Throw e) ->
  parse_text text = Throw e.
Proof.
  intros H. rewrite parse_text_unfold, (expr_text_eventually text _ H); [reflexivity|].
  discriminate.
Qed.

Lemma compile_and_evaluate_throws (text : string) (e : exception) :
  parse_text text = Throw e ->
  compile_and_evaluate text = Throw (CompilationError e).
Proof. intros H. now rewrite compile_and_evaluate_parse_text, H. Qed.

Lemma head_nonnumeric (ws : string) (c : ascii) (rest : string) :
  string_forall isspace ws = true -> is_numeric c = false ->
  is_numeric (head (ws ++ String c rest)) = false.
Proof.
  intros Hws Hc. destruct ws as [|a ws]; simpl in *; [exact Hc|].
  apply andb_true_iff in Hws. destruct Hws as [Ha _].
  destruct (is_numeric a) eqn:E; [|reflexivity].
  apply is_numeric_not_space in E. congruence.
Qed.

Lemma unrecognized_inv (c : ascii) :
  unrecognized c = true ->
  is_nul c = false /\ isspace c = false /\ is_numeric c = false
  /\ single_char_token c = None.
Proof.
  unfold unrecognized. intros H.
  apply andb_true_iff in H. destruct H as [H H4].
  apply andb_true_iff in H. destruct H as [H H3].
  apply andb_true_iff in H. destruct H as [H1 H2].
  apply negb_true_iff in H1, H2, H3.
  destruct (single_char_token c); [discriminate | auto].
Qed.

Lemma start_unrecognized (pre ws : string) (c : ascii) (junk : string) :
  string_forall isspace ws = true -> unrecognized c = true ->
  start pre (ws ++ String c junk) = Throw (InvalidCharacter c).
Proof.
  intros Hws Hc. destruct (unrecognized_inv c Hc) as (Hn & Hs & Hd & Ht).
  rewrite start_scan. unfold scan.
  rewrite (span_all isspace ws (String c junk) Hws Hs).
  cbn [scan_token]. now rewrite Hn, Hd, Ht.
Qed.

Lemma get_next_token_unrecognized (pre ws : string) (c : ascii) (junk : string) :
  string_forall isspace ws = true -> unrecognized c = true ->
  get_next_token (lexer_at pre (ws ++ String c junk)) = Throw (InvalidCharacter c).
Proof.
  intros Hws Hc. destruct (unrecognized_inv c Hc) as (Hn & Hs & Hd & Ht).
  rewrite get_next_token_at. unfold scan.
  rewrite (span_all isspace ws (String c junk) Hws Hs).
  cbn [scan_token]. now rewrite Hn, Hd, Ht.
Qed.

Lemma expr_then (e : gexpr) (node : ASTNode) (rest : string) :
  wf_expr e = true -> ast_expr e = Return node ->
  is_numeric (head rest) = false -> follow_expr rest = true ->
  eventually (fun fuel => p <- start "" (render_expr e ++ rest);; expr fuel p)
             (p' <- start (render_expr e) rest;; Return (node, p')).
Proof.
  intros Hwf Hast Hnum Hfollow.
  destruct grammar_spec as (_ & _ & He).
  exact (expr_spec_final e (He e) Hwf node Hast "" rest Hnum Hfollow).
Qed.

Lemma scan_at_nul (pre ws rest : string) :
  string_forall isspace ws = true -> is_nul (head rest) = true ->
  scan pre (ws ++ rest) = Return (Token1 END_OF_FILE, lexer_at (pre ++ ws) rest).
Proof.
  intros Hws Hnul. unfold scan.
  assert (Hsp : isspace (head rest) = false).
  { destruct (isspace (head rest)) eqn:E; [|reflexivity].
    apply isspace_not_nul in E. congruence. }
  rewrite (span_all isspace ws rest Hws Hsp).
  destruct rest as [|c rest]; cbn [scan_token]; [reflexivity|].
  cbn [head] in Hnul. now rewrite Hnul.
Qed.

Lemma start_at_nul (pre ws rest : string) :
  string_forall isspace ws = true -> is_nul (head rest) = true ->
  start pre (ws ++ rest)
  = Return (mkParser (lexer_at (pre ++ ws) rest) (Token1 END_OF_FILE)).
Proof. intros Hws Hnul. now rewrite start_scan, (scan_at_nul pre ws rest Hws Hnul). Qed.

(** X1: a character that starts no token, that is a character other than NUL
    that is not whitespace, a digit, ['.'] or one of the six symbols, makes
    [get_next_token] throw "Invalid character: c" as soon as the scan reaches
    it, whatever follows it.  [compile_and_evaluate] reports it as a
    compilation error both when the character follows a complete expression
    and when it is the first thing on the line.  The NUL character is the
    end sentinel of the lexer: there [get_next_token] returns the end marker
    and reads nothing of what follows. *)
Theorem invalid_character_rejected :
  (forall pre ws c junk,
      string_forall isspace ws = true -> unrecognized c = true ->
      get_next_token (lexer_at pre (ws ++ String c junk))
      = Throw (InvalidCharacter c))
  /\ (forall e node ws c junk,
         wf_expr e = true -> ast_expr e = Return node ->
         string_forall isspace ws = true -> unrecognized c = true ->
         compile_and_evaluate (render_expr e ++ ws ++ String c junk)
         = Throw (CompilationError (InvalidCharacter c)))
  /\ (forall ws c junk,
         string_forall isspace ws = true -> unrecognized c = true ->
         compile_and_evaluate (ws ++ String c junk)
         = Throw (CompilationError (InvalidCharacter c)))
  /\ (forall pre ws junk,
         string_forall isspace ws = true ->
         get_next_token (lexer_at pre (ws ++ String NUL junk))
         = Return (Token1 END_OF_FILE, lexer_at (pre ++ ws) (String NUL junk))).
Proof.
  split; [exact get_next_token_unrecognized|]. split; [|split].
  - intros e node ws c junk Hwf Hast Hws Hc.
    destruct (unrecognized_inv c Hc) as (Hn & Hs & Hd & Ht).
    apply compile_and_evaluate_throws, parse_text_throws.
    pose proof (expr_then e node (ws ++ String c junk) Hwf Hast) as H.
    rewrite (start_unrecognized _ ws c junk Hws Hc) in H. apply H.
    + now apply head_nonnumeric.
    + unfold follow_expr. now rewrite (lookahead_symbol ws c junk Hws Hs), Ht.
  - intros ws c junk Hws Hc.
    rewrite compile_and_evaluate_parse_text. unfold parse_text.
    now rewrite new_Parser_start, (start_unrecognized "" ws c junk Hws Hc).
  - intros pre ws junk Hws. rewrite get_next_token_at.
    now apply scan_at_nul.
Qed.

Lemma invalid_character_rejected_witness :
  get_next_token (lexer_at "2 + 3" " $ 4") = Throw (InvalidCharacter "$")
  /\ compile_and_evaluate "2 + 3 $ 4" = Throw (CompilationError (InvalidCharacter "$"))
  /\ compile_and_evaluate " $ 4" = Throw (CompilationError (InvalidCharacter "$"))
  /\ get_next_token (lexer_at "2" (String NUL "+3)"))
     = Return (Token1 END_OF_FILE, lexer_at "2" (String NUL "+3)")).
Proof.
  split; [|split; [|split]].
  - exact (proj1 invalid_character_rejected "2 + 3" " " "$"%char " 4"
             eq_refl eq_refl).
  - exact (proj1 (proj2 invalid_character_rejected) two_plus_three _ " "
             "$"%char " 4" eq_refl eq_refl eq_refl eq_refl).
  - exact (proj1 (proj2 (proj2 invalid_character_rejected)) " " "$"%char " 4"
             eq_refl eq_refl).
  - exact (proj2 (proj2 (proj2 invalid_character_rejected)) "2" "" "+3)" eq_refl).
Defined.

Lemma parse_text_trailing (text : string) (node : ASTNode) (p' : Parser) :
  eventually (fun fuel => p <- start "" text;; expr fuel p) (Return (node, p')) ->
  parse_text text
  = if TokenType_eqb (type (current_token p')) END_OF_FILE
    then Return node else Throw UnexpectedTokenAtEnd.
Proof.
  intros H. rewrite parse_text_unfold, (expr_text_eventually text _ H) by discriminate.
  cbn [bind]. now destruct (TokenType_eqb _ _).
Qed.

(** X2: a complete expression followed by a parenthesis, or by whitespace and
    another number, is rejected with "Unexpected token at end of expression",
    whatever comes after that token. *)
Theorem trailing_token_rejected :
  (forall e node ws c junk,
      wf_expr e = true -> ast_expr e = Return node ->
      string_forall isspace ws = true ->
      c = "("%char \/ c = ")"%char ->
      compile_and_evaluate (render_expr e ++ ws ++ String c junk)
      = Throw (CompilationError UnexpectedTokenAtEnd))
  /\ (forall e node w ws literal v rest,
         wf_expr e = true -> ast_expr e = Return node ->
         string_forall isspace (String w ws) = true ->
         nonempty literal = true -> string_forall is_numeric literal = true ->
         is_numeric (head rest) = false -> stod literal = Return v ->
         compile_and_evaluate (render_expr e ++ String w ws ++ literal ++ rest)
         = Throw (CompilationError UnexpectedTokenAtEnd)).
Proof.
  split.
  - intros e node ws c junk Hwf Hast Hws Hc.
    assert (Ht : exists t, single_char_token c = Some t
                           /\ (t = LPAREN \/ t = RPAREN)).
    { destruct Hc as [-> | ->]; [exists LPAREN | exists RPAREN]; auto. }
    destruct Ht as (t & Ht & Htt).
    apply compile_and_evaluate_throws.
    pose proof (expr_then e node (ws ++ String c junk) Hwf Hast) as H.
    rewrite (start_symbol _ ws c t junk Hws Ht) in H. cbn [bind] in H.
    assert (Hf : follow_expr (ws ++ String c junk) = true).
    { unfold follow_expr. rewrite (lookahead_token ws c t junk Hws Ht).
      now destruct Htt as [-> | ->]. }
    rewrite (parse_text_trailing _ _ _ (H (head_symbol ws c t junk Hws Ht) Hf)).
    cbn. now destruct Htt as [-> | ->].
  - intros e node w ws literal v rest Hwf Hast Hws Hne Hlit Hrest Hv.
    apply compile_and_evaluate_throws.
    pose proof (expr_then e node (String w ws ++ literal ++ rest) Hwf Hast) as H.
    rewrite (start_number _ (String w ws) literal rest Hws Hne Hlit Hrest), Hv in H.
    cbn [bind] in H.
    pose proof (head_app literal rest is_numeric Hlit Hrest Hne) as Hh.
    assert (Hn : is_numeric (head (String w ws ++ literal ++ rest)) = false).
    { cbn in Hws |- *. apply andb_true_iff in Hws. destruct Hws as [Hw _].
      destruct (is_numeric w) eqn:E; [|reflexivity].
      apply is_numeric_not_space in E. congruence. }
    assert (Hf : follow_expr (String w ws ++ literal ++ rest) = true).
    { unfold follow_expr, lookahead.
      rewrite (span_all isspace (String w ws) (literal ++ rest) Hws
                 (is_numeric_not_space _ Hh)).
      cbn [snd]. destruct (single_char_token (head (literal ++ rest))) eqn:E;
        [|reflexivity].
      apply single_char_token_inv in E. destruct E as (_ & _ & E). congruence. }
    now rewrite (parse_text_trailing _ _ _ (H Hn Hf)).
Qed.

Lemma trailing_token_rejected_witness :
  compile_and_evaluate "2 + 3) * 4" = Throw (CompilationError UnexpectedTokenAtEnd)
  /\ compile_and_evaluate "2 + 3 4" = Throw (CompilationError UnexpectedTokenAtEnd).
Proof.
  split.
  - exact (proj1 trailing_token_rejected two_plus_three _ "" ")"%char " * 4"
             eq_refl eq_refl eq_refl (or_intror eq_refl)).
  - exact (proj2 trailing_token_rejected two_plus_three _ " "%char "" "4"
             (double_of_Z 4) "" eq_refl eq_refl eq_refl eq_refl eq_refl eq_refl
             eq_refl).
Defined.

Lemma start_end_token (pre ws : string) (p : Parser) :
  string_forall isspace ws = true -> start pre ws = Return p ->
  type (current_token p) = END_OF_FILE.
Proof. intros Hws. rewrite (start_end pre ws Hws). now intros [= <-]. Qed.

(** *** Places where an operand is expected *)

Ltac norm_strings :=
  repeat first [rewrite string_app_assoc | progress cbn [append]].

Lemma eventually_throw_bind {A B : Type} (c : outcome A) (f : nat -> A -> outcome B)
      (g : nat -> A -> outcome B) (e : exception) (k : nat) :
  (forall n a, f n a = Throw e -> g (k + n) a = Throw e) ->
  eventually (fun fuel => a <- c;; f fuel a) (Throw e) ->
  eventually (fun fuel => a <- c;; g fuel a) (Throw e).
Proof.
  intros Hfg [fuel0 H]. exists (k + fuel0). intros fuel Hfuel.
  specialize (H (fuel - k) ltac:(lia)).
  destruct c as [a|e'|]; cbn [bind] in *; try exact H.
  replace fuel with (k + (fuel - k)) by lia. now apply Hfg.
Qed.

Lemma place_reached :
  (forall p, wf_expr_place p = true ->
     forall rest e,
       eventually (fun fuel => q <- start (render_expr_place p) rest;; expr fuel q)
                  (Throw e) ->
       eventually (fun fuel => q <- start "" (render_expr_place p ++ rest);;
                               expr fuel q) (Throw e))
  /\ (forall p, wf_term_place p = true ->
        forall rest e,
          eventually (fun fuel => q <- start (render_term_place p) rest;; term fuel q)
                     (Throw e) ->
          eventually (fun fuel => q <- start "" (render_term_place p ++ rest);;
                                  expr fuel q) (Throw e))
  /\ (forall p, wf_factor_place p = true ->
        forall rest e,
          eventually (fun fuel => q <- start (render_factor_place p) rest;;
                                  factor fuel q) (Throw e) ->
          eventually (fun fuel => q <- start "" (render_factor_place p ++ rest);;
                                  expr fuel q) (Throw e)).
Proof.
  destruct grammar_spec as (_ & Hterm & Hexpr).
  apply place_ind.
  - (* the start of the line *)
    intros _ rest e H. exact H.
  - (* after an opening parenthesis *)
    intros p IH ws Hwf rest e H. cbn [wf_expr_place render_expr_place] in *.
    apply andb_true_iff in Hwf. destruct Hwf as [Hwf Hws].
    replace ((render_factor_place p ++ ws ++ "(") ++ rest)
      with (render_factor_place p ++ ws ++ String "(" rest) by now norm_strings.
    apply (IH Hwf).
    rewrite (start_symbol _ ws "(" LPAREN rest Hws eq_refl). cbn [bind].
    replace ((render_factor_place p ++ ws) ++ "(")
      with (render_factor_place p ++ ws ++ "(") by now norm_strings.
    destruct H as [fuel0 H]. apply (eventually_S _ _ fuel0). intros n Hn.
    cbn [factor current_token type Token1]. rewrite eat_at by reflexivity.
    now rewrite (bind_bind_eq _ (expr n) _ _ (H n Hn)).
  - (* term, where expr is called *)
    intros p IH Hwf rest e H. cbn [wf_term_place render_term_place] in *.
    apply (IH Hwf).
    apply (eventually_throw_bind _ term expr e 1); [|exact H].
    intros n q Hq. cbn [Nat.add expr]. now rewrite Hq.
  - (* after an additive operator *)
    intros p IH e0 ws op Hwf rest e H. cbn [wf_term_place render_term_place] in *.
    apply andb_true_iff in Hwf. destruct Hwf as [Hwf Hws].
    apply andb_true_iff in Hwf. destruct Hwf as [Hwf Hconv].
    apply andb_true_iff in Hwf. destruct Hwf as [Hwf Hwfe].
    unfold converts_expr in Hconv.
    destruct (ast_expr e0) as [node| |] eqn:Hast; try discriminate.
    pose proof (additive_token op) as Hop.
    replace ((render_expr_place p ++ render_expr e0 ++ ws
              ++ String (additive_char op) "") ++ rest)
      with (render_expr_place p
            ++ render_expr e0 ++ ws ++ String (additive_char op) rest)
      by now norm_strings.
    apply (IH Hwf).
    apply (Hexpr e0 Hwfe node Hast (render_expr_place p)
             (ws ++ String (additive_char op) rest)).
    + now apply (head_symbol ws _ _ _ Hws Hop).
    + unfold follow_term. rewrite (lookahead_token ws _ _ _ Hws Hop). now destruct op.
    + rewrite (start_symbol _ ws _ _ rest Hws Hop). cbn [bind].
      replace (((render_expr_place p ++ render_expr e0) ++ ws)
               ++ String (additive_char op) "")
        with (render_expr_place p ++ render_expr e0 ++ ws
              ++ String (additive_char op) "") by now norm_strings.
      destruct H as [fuel0 H]. apply (eventually_S _ _ fuel0). intros n Hn.
      destruct op; cbn [expr_loop current_token type Token1 additive_type];
        rewrite eat_at by reflexivity;
        now rewrite (bind_bind_eq _ (term n) _ _ (H n Hn)).
  - (* factor, where term is called *)
    intros p IH Hwf rest e H. cbn [wf_factor_place render_factor_place] in *.
    apply (IH Hwf).
    apply (eventually_throw_bind _ factor term e 1); [|exact H].
    intros n q Hq. cbn [Nat.add term]. now rewrite Hq.
  - (* after a multiplicative operator *)
    intros p IH t0 ws op Hwf rest e H.
    cbn [wf_factor_place render_factor_place] in *.
    apply andb_true_iff in Hwf. destruct Hwf as [Hwf Hws].
    apply andb_true_iff in Hwf. destruct Hwf as [Hwf Hconv].
    apply andb_true_iff in Hwf. destruct Hwf as [Hwf Hwft].
    unfold converts_term in Hconv.
    destruct (ast_term t0) as [node| |] eqn:Hast; try discriminate.
    pose proof (multiplicative_token op) as Hop.
    replace ((render_term_place p ++ render_term t0 ++ ws
              ++ String (multiplicative_char op) "") ++ rest)
      with (render_term_place p
            ++ render_term t0 ++ ws ++ String (multiplicative_char op) rest)
      by now norm_strings.
    apply (IH Hwf).
    apply (Hterm t0 Hwft node Hast (render_term_place p)
             (ws ++ String (multiplicative_char op) rest)).
    + now apply (head_symbol ws _ _ _ Hws Hop).
    + rewrite (start_symbol _ ws _ _ rest Hws Hop). cbn [bind].
      replace (((render_term_place p ++ render_term t0) ++ ws)
               ++ String (multiplicative_char op) "")
        with (render_term_place p ++ render_term t0 ++ ws
              ++ String (multiplicative_char op) "") by now norm_strings.
      destruct H as [fuel0 H]. apply (eventually_S _ _ fuel0). intros n Hn.
      destruct op; cbn [term_loop current_token type Token1 multiplicative_type];
        rewrite eat_at by reflexivity;
        now rewrite (bind_bind_eq _ (factor n) _ _ (H n Hn)).
  - (* after a unary sign *)
    intros p IH ws sign Hwf rest e H. cbn [wf_factor_place render_factor_place] in *.
    apply andb_true_iff in Hwf. destruct Hwf as [Hwf Hws].
    pose proof (additive_token sign) as Hop.
    replace ((render_factor_place p ++ ws ++ String (additive_char sign) "") ++ rest)
      with (render_factor_place p ++ ws ++ String (additive_char sign) rest)
      by now norm_strings.
    apply (IH Hwf).
    rewrite (start_symbol _ ws _ _ rest Hws Hop). cbn [bind].
    replace ((render_factor_place p ++ ws) ++ String (additive_char sign) "")
      with (render_factor_place p ++ ws ++ String (additive_char sign) "")
      by now norm_strings.
    destruct H as [fuel0 H]. apply (eventually_S _ _ fuel0). intros n Hn.
    destruct sign; cbn [factor current_token type Token1 additive_type];
      rewrite eat_at by reflexivity;
      now rewrite (bind_bind_eq _ (factor n) _ _ (H n Hn)).
Qed.

Lemma factor_place_throws (p : factor_place) (rest : string) (e : exception) :
  wf_factor_place p = true ->
  eventually (fun fuel => q <- start (render_factor_place p) rest;; factor fuel q)
             (Throw e) ->
  compile_and_evaluate (render_factor_place p ++ rest) = Throw (CompilationError e).
Proof.
  intros Hwf H. apply compile_and_evaluate_throws, parse_text_throws.
  destruct place_reached as (_ & _ & Hf). now apply Hf.
Qed.

Lemma factor_at_end_of_input (pre ws : string) :
  string_forall isspace ws = true ->
  eventually (fun fuel => q <- start pre ws;; factor fuel q) (Throw InvalidSyntax).
Proof.
  intros Hws. rewrite (start_end pre ws Hws). cbn [bind].
  apply (eventually_S _ _ 0). intros n _. reflexivity.
Qed.

Lemma after_additive_place (e : gexpr) (node : ASTNode) (ws : string) (op : additive) :
  wf_expr e = true -> ast_expr e = Return node -> string_forall isspace ws = true ->
  wf_factor_place (after_additive e ws op) = true
  /\ render_factor_place (after_additive e ws op)
     = render_expr e ++ ws ++ String (additive_char op) "".
Proof.
  intros Hwf Hast Hws. cbn. unfold converts_expr. now rewrite Hwf, Hast, Hws.
Qed.

Lemma after_multiplicative_place (e : gexpr) (node : ASTNode) (ws : string)
      (op : multiplicative) :
  wf_expr e = true -> ast_expr e = Return node -> string_forall isspace ws = true ->
  wf_factor_place (after_multiplicative e ws op) = true
  /\ render_factor_place (after_multiplicative e ws op)
     = render_expr e ++ ws ++ String (multiplicative_char op) "".
Proof.
  intros Hwf Hast Hws. destruct e as [t|e' ws' op' t]; cbn in Hwf, Hast |- *.
  - unfold converts_term. now rewrite Hwf, Hast, Hws.
  - apply andb_true_iff in Hwf. destruct Hwf as [Hwf Hwft].
    apply andb_true_iff in Hwf. destruct Hwf as [Hwfe Hws'].
    destruct (ast_expr e') as [l| |] eqn:Hl; try discriminate.
    destruct (ast_term t) as [r| |] eqn:Hr; try discriminate.
    unfold converts_expr, converts_term. rewrite Hwfe, Hl, Hws', Hwft, Hr, Hws.
    split; [reflexivity|]. now rewrite !string_app_assoc.
Qed.

(** X3: an operand that is missing at the end of the input.  At every place
    where the parser expects an operand (the start of the line, after an
    opening parenthesis, after a unary sign, after a binary operator that
    follows its left operand; each at any depth of nesting, the text before
    the place being well-formed with literals that convert), an input that
    ends there, after optional whitespace, is rejected with "Invalid syntax".
    In particular every complete expression followed by a binary operator,
    additive or multiplicative, is. *)
Theorem missing_operand_rejected :
  (forall p ws,
      wf_factor_place p = true -> string_forall isspace ws = true ->
      compile_and_evaluate (render_factor_place p ++ ws)
      = Throw (CompilationError InvalidSyntax))
  /\ (forall e node ws op ws',
         wf_expr e = true -> ast_expr e = Return node ->
         string_forall isspace ws = true -> string_forall isspace ws' = true ->
         compile_and_evaluate (render_expr e ++ ws ++ String (additive_char op) ws')
         = Throw (CompilationError InvalidSyntax))
  /\ (forall e node ws op ws',
         wf_expr e = true -> ast_expr e = Return node ->
         string_forall isspace ws = true -> string_forall isspace ws' = true ->
         compile_and_evaluate
           (render_expr e ++ ws ++ String (multiplicative_char op) ws')
         = Throw (CompilationError InvalidSyntax)).
Proof.
  assert (H1 : forall p ws,
             wf_factor_place p = true -> string_forall isspace ws = true ->
             compile_and_evaluate (render_factor_place p ++ ws)
             = Throw (CompilationError InvalidSyntax)).
  { intros p ws Hwf Hws. apply factor_place_throws; [exact Hwf|].
    now apply factor_at_end_of_input. }
  split; [exact H1|]. split.
  - intros e node ws op ws' Hwf Hast Hws Hws'.
    destruct (after_additive_place e node ws op Hwf Hast Hws) as [Hp Hr].
    specialize (H1 _ ws' Hp Hws'). rewrite Hr in H1.
    rewrite <- H1. f_equal. now rewrite !string_app_assoc.
  - intros e node ws op ws' Hwf Hast Hws Hws'.
    destruct (after_multiplicative_place e node ws op Hwf Hast Hws) as [Hp Hr].
    specialize (H1 _ ws' Hp Hws'). rewrite Hr in H1.
    rewrite <- H1. f_equal. now rewrite !string_app_assoc.
Qed.

Lemma missing_operand_rejected_witness :
  compile_and_evaluate "2 + 3 *" = Throw (CompilationError InvalidSyntax)
  /\ compile_and_evaluate "2 + 3 - " = Throw (CompilationError InvalidSyntax)
  /\ compile_and_evaluate "2 * (3 + - " = Throw (CompilationError InvalidSyntax)
  /\ compile_and_evaluate "2 + (" = Throw (CompilationError InvalidSyntax).
Proof.
  split; [|split; [|split]].
  - exact (proj2 (proj2 missing_operand_rejected) two_plus_three _ " " Mul ""
             eq_refl eq_refl eq_refl eq_refl).
  - exact (proj1 (proj2 missing_operand_rejected) two_plus_three _ " " Sub " "
             eq_refl eq_refl eq_refl eq_refl).
  - exact (proj1 missing_operand_rejected
             (AfterSign
                (FactorOfTerm
                   (AfterAdditive
                      (AfterParen
                         (AfterMultiplicative (TermOfExpr AtStart)
                            (GFactor (GNumber "" "2")) " " Mul) " ")
                      (GTerm (GFactor (GNumber "" "3"))) " " Add))
                " " Sub)
             " " eq_refl eq_refl).
  - exact (proj1 missing_operand_rejected
             (FactorOfTerm
                (TermOfExpr
                   (AfterParen
                      (FactorOfTerm
                         (AfterAdditive AtStart (GTerm (GFactor (GNumber "" "2")))
                            " " Add)) " ")))
             "" eq_refl eq_refl).
Defined.

(** X4: an opening parenthesis and an expression with the input ending
    before the closing parenthesis: [eat(RPAREN)] finds the end marker and
    the line is rejected with "Unexpected token". *)
Theorem missing_parenthesis_rejected (ws1 : string) (e : gexpr) (node : ASTNode)
        (ws2 : string) :
  wf_expr e = true -> ast_expr e = Return node ->
  string_forall isspace ws1 = true -> string_forall isspace ws2 = true ->
  compile_and_evaluate (ws1 ++ String "(" (render_expr e ++ ws2))
  = Throw (CompilationError UnexpectedToken).
Proof.
  intros Hwf Hast Hws1 Hws2.
  apply compile_and_evaluate_throws, parse_text_throws.
  rewrite (start_symbol "" ws1 "(" LPAREN _ Hws1 eq_refl). cbn [bind append].
  destruct grammar_spec as (_ & _ & He).
  destruct (expr_spec_final e (He e) Hwf node Hast (ws1 ++ "(") ws2
              (head_spaces ws2 Hws2) (follow_expr_spaces ws2 Hws2)) as [fuel0 H].
  apply (eventually_S _ _ (S (S fuel0))). intros n Hn.
  destruct n as [|[|n]]; try lia.
  cbn [expr term factor current_token type Token1].
  rewrite eat_at by reflexivity.
  rewrite (bind_bind_eq _ (expr n) _ _ (H n ltac:(lia))).
  rewrite (start_end _ ws2 Hws2). reflexivity.
Qed.

Lemma missing_parenthesis_rejected_witness :
  compile_and_evaluate " (2 + 3 " = Throw (CompilationError UnexpectedToken).
Proof.
  exact (missing_parenthesis_rejected " " two_plus_three _ " "
           eq_refl eq_refl eq_refl eq_refl).
Defined.

Lemma remove_spaces_app (a b : string) :
  remove_spaces (a ++ b) = remove_spaces a ++ remove_spaces b.
Proof.
  induction a as [|c a IH]; cbn; [reflexivity|].
  destruct (isspace c); cbn; now rewrite IH.
Qed.

Lemma remove_spaces_spaces (ws : string) :
  string_forall isspace ws = true -> remove_spaces ws = "".
Proof.
  induction ws as [|c ws IH]; cbn; [reflexivity|].
  intros H. apply andb_true_iff in H. destruct H as [-> H]. now apply IH.
Qed.

Lemma remove_spaces_numeric (s : string) :
  string_forall is_numeric s = true -> remove_spaces s = s.
Proof.
  induction s as [|c s IH]; cbn; [reflexivity|].
  intros H. apply andb_true_iff in H. destruct H as [Hc H].
  now rewrite (is_numeric_not_space c Hc), IH.
Qed.

Lemma remove_spaces_render :
  (forall f, wf_factor f = true ->
             remove_spaces (render_factor f) = render_factor (strip_factor f))
  /\ (forall t, wf_term t = true ->
                remove_spaces (render_term t) = render_term (strip_term t))
  /\ (forall e, wf_expr e = true ->
                remove_spaces (render_expr e) = render_expr (strip_expr e)).
Proof.
  apply grammar_ind.
  - intros ws literal H. cbn in H |- *.
    apply andb_true_iff in H. destruct H as [H Hlit].
    apply andb_true_iff in H. destruct H as [Hws _].
    now rewrite remove_spaces_app, (remove_spaces_spaces ws Hws),
      (remove_spaces_numeric literal Hlit).
  - intros ws sign f IH H. cbn in H |- *.
    apply andb_true_iff in H. destruct H as [Hws H].
    rewrite remove_spaces_app, (remove_spaces_spaces ws Hws). cbn.
    rewrite (IH H). now destruct sign.
  - intros ws1 e IH ws2 H. cbn in H |- *.
    apply andb_true_iff in H. destruct H as [H Hws2].
    apply andb_true_iff in H. destruct H as [Hws1 H].
    rewrite remove_spaces_app, (remove_spaces_spaces ws1 Hws1). cbn.
    now rewrite !remove_spaces_app, (IH H), (remove_spaces_spaces ws2 Hws2).
  - intros f IH H. now apply IH.
  - intros t IHt ws op f IHf H. cbn in H |- *.
    apply andb_true_iff in H. destruct H as [H Hf].
    apply andb_true_iff in H. destruct H as [Ht Hws].
    rewrite !remove_spaces_app, (remove_spaces_spaces ws Hws), (IHt Ht). cbn.
    rewrite (IHf Hf). now destruct op.
  - intros t IH H. now apply IH.
  - intros e IHe ws op t IHt H. cbn in H |- *.
    apply andb_true_iff in H. destruct H as [H Ht].
    apply andb_true_iff in H. destruct H as [He Hws].
    rewrite !remove_spaces_app, (remove_spaces_spaces ws Hws), (IHe He). cbn.
    rewrite (IHt Ht). now destruct op.
Qed.

Lemma strip_wf :
  (forall f, wf_factor f = true -> wf_factor (strip_factor f) = true)
  /\ (forall t, wf_term t = true -> wf_term (strip_term t) = true)
  /\ (forall e, wf_expr e = true -> wf_expr (strip_expr e) = true).
Proof.
  apply grammar_ind; cbn.
  - intros ws literal H.
    apply andb_true_iff in H. destruct H as [H Hlit].
    apply andb_true_iff in H. destruct H as [_ Hne].
    now rewrite Hne, Hlit.
  - intros ws sign f IH H. apply andb_true_iff in H. now apply IH.
  - intros ws1 e IH ws2 H. apply andb_true_iff in H. destruct H as [H _].
    apply andb_true_iff in H. destruct H as [_ H]. now rewrite (IH H).
  - intros f IH H. now apply IH.
  - intros t IHt ws op f IHf H.
    apply andb_true_iff in H. destruct H as [H Hf].
    apply andb_true_iff in H. destruct H as [Ht _].
    now rewrite (IHt Ht), (IHf Hf).
  - intros t IH H. now apply IH.
  - intros e IHe ws op t IHt H.
    apply andb_true_iff in H. destruct H as [H Ht].
    apply andb_true_iff in H. destruct H as [He _].
    now rewrite (IHe He), (IHt Ht).
Qed.

Lemma strip_ast :
  (forall f, ast_factor (strip_factor f) = ast_factor f)
  /\ (forall t, ast_term (strip_term t) = ast_term t)
  /\ (forall e, ast_expr (strip_expr e) = ast_expr e).
Proof.
  apply grammar_ind; cbn; try reflexivity; try (intros; assumption).
  - intros ws sign f IH. now rewrite IH.
  - intros t IHt ws op f IHf. now rewrite IHt, IHf.
  - intros e IHe ws op t IHt. now rewrite IHe, IHt.
Qed.

(** X5: whitespace between the tokens of an expression has no effect: the
    text with every whitespace character removed parses to the same tree and
    has the same result as the text itself. *)
Theorem whitespace_insensitive (e : gexpr) (ws : string) (node : ASTNode) :
  wf_expr e = true -> string_forall isspace ws = true ->
  ast_expr e = Return node ->
  parse_text (remove_spaces (render_expr e ++ ws)) = Return node
  /\ parse_text (render_expr e ++ ws) = Return node
  /\ compile_and_evaluate (remove_spaces (render_expr e ++ ws))
     = compile_and_evaluate (render_expr e ++ ws).
Proof.
  intros Hwf Hws Hast.
  destruct remove_spaces_render as (_ & _ & Hr).
  destruct strip_wf as (_ & _ & Hw). destruct strip_ast as (_ & _ & Ha).
  assert (H1 : parse_text (remove_spaces (render_expr e ++ ws)) = Return node).
  { rewrite remove_spaces_app, (remove_spaces_spaces ws Hws), (Hr e Hwf).
    apply (parse_text_render (strip_expr e) ""); [now apply Hw | reflexivity |].
    now rewrite Ha. }
  pose proof (parse_text_render e ws node Hwf Hws Hast) as H2.
  split; [exact H1|]. split; [exact H2|].
  now rewrite !compile_and_evaluate_parse_text, H1, H2.
Qed.

Lemma whitespace_insensitive_witness :
  compile_and_evaluate "2+3*4" = compile_and_evaluate "2 + 3 * 4".
Proof.
  exact (proj2 (proj2 (whitespace_insensitive two_plus_three_times_four ""
                         _ eq_refl eq_refl eq_refl))).
Defined.

(** X6: a parenthesised expression parses to the tree of the expression
    inside, with no node of its own, and it is an operand like a number: on
    either side of [*] or [/] the whole parenthesis is the operand.  So
    "(2 + 3) * 4" is 20, "2 * (3 + 4)" is 14 and "10 - (5 - 2)" is 7. *)
Theorem parentheses_group :
  (forall ws1 e ws2 ws node,
      wf_expr e = true -> ast_expr e = Return node ->
      string_forall isspace ws1 = true -> string_forall isspace ws2 = true ->
      string_forall isspace ws = true ->
      parse_text (render_factor (GParen ws1 e ws2) ++ ws) = Return node)
  /\ (forall e op f ne nf,
         wf_expr e = true -> wf_factor f = true ->
         ast_expr e = Return ne -> ast_factor f = Return nf ->
         parse_text (String "(" (render_expr e ++ ")")
                     ++ String (multiplicative_char op) (render_factor f))
         = Return (BinaryOpNode ne (multiplicative_type op) nf))
  /\ (forall t op e nt ne,
         wf_term t = true -> wf_expr e = true ->
         ast_term t = Return nt -> ast_expr e = Return ne ->
         parse_text (render_term t
                     ++ String (multiplicative_char op)
                          (String "(" (render_expr e ++ ")")))
         = Return (BinaryOpNode nt (multiplicative_type op) ne))
  /\ compile_and_evaluate "(2 + 3) * 4" = Return (double_of_Z 20)
  /\ compile_and_evaluate "2 * (3 + 4)" = Return (double_of_Z 14)
  /\ compile_and_evaluate "10 - (5 - 2)" = Return (double_of_Z 7).
Proof.
  split; [|split; [|split; [|repeat split; vm_compute; reflexivity]]].
  - intros ws1 e ws2 ws node Hwf Hast H1 H2 Hws.
    apply (parse_text_render (GTerm (GFactor (GParen ws1 e ws2))) ws);
      [|exact Hws | exact Hast].
    cbn. now rewrite H1, Hwf, H2.
  - intros e op f ne nf Hwe Hwf Hae Haf.
    rewrite <- (string_app_nil_r (_ ++ String (multiplicative_char op) _)).
    apply (parse_text_render
             (GTerm (GMulDiv (GFactor (GParen "" e "")) "" op f)) "").
    + cbn. now rewrite Hwe, Hwf.
    + reflexivity.
    + cbn. now rewrite Hae, Haf.
  - intros t op e nt ne Hwt Hwe Hat Hae.
    rewrite <- (string_app_nil_r (_ ++ String (multiplicative_char op) _)).
    apply (parse_text_render
             (GTerm (GMulDiv t "" op (GParen "" e ""))) "").
    + cbn. now rewrite Hwt, Hwe.
    + reflexivity.
    + cbn. now rewrite Hat, Hae.
Qed.

Lemma parentheses_group_witness :
  parse_text " ( 2 + 3 ) "
  = Return (BinaryOpNode (NumberNode (double_of_Z 2)) PLUS (NumberNode (double_of_Z 3))).
Proof.
  exact (proj1 parentheses_group " "
           (GAddSub (GTerm (GFactor (GNumber " " "2"))) " " Add
                    (GFactor (GNumber " " "3")))
           " " " " _ eq_refl eq_refl eq_refl eq_refl eq_refl).
Defined.

Lemma double_neg_involutive (v : double) : double_neg (double_neg v) = v.
Proof. destruct v as [s|s| |s m e]; cbn; now rewrite ?negb_involutive. Qed.

Lemma evaluate_unary_nest (signs : list (string * additive)) (node : ASTNode) :
  evaluate (unary_nest signs node)
  = (v <- evaluate node;;
     Return (if Nat.even (minus_signs signs) then v else double_neg v)).
Proof.
  induction signs as [|[ws [|]] signs IH]; cbn [unary_nest minus_signs additive_type].
  - cbn. now destruct (evaluate node).
  - rewrite evaluate_unary_plus. exact IH.
  - cbn [evaluate]. rewrite IH. destruct (evaluate node) as [v| |]; cbn [bind]; try reflexivity.
    rewrite Nat.even_succ, <- Nat.negb_even.
    destruct (Nat.even (minus_signs signs)); cbn [negb];
      [reflexivity | now rewrite double_neg_involutive].
Qed.

(** X7: a run of unary signs before an operand negates it once per minus
    sign: the value is the operand's when the number of minus signs is even
    and its negation when it is odd, plus signs changing nothing (negating
    twice gives back the same double). *)
Theorem unary_signs_value :
  (forall signs node,
      evaluate (unary_nest signs node)
      = (v <- evaluate node;;
         Return (if Nat.even (minus_signs signs) then v else double_neg v)))
  /\ (forall signs f ws v,
         spaces_before signs = true -> wf_factor f = true ->
         string_forall isspace ws = true ->
         value_factor f = Return v ->
         compile_and_evaluate (render_factor (unary_run signs f) ++ ws)
         = Return (if Nat.even (minus_signs signs) then v else double_neg v))
  /\ (forall v, double_neg (double_neg v) = v).
Proof.
  split; [exact evaluate_unary_nest|]. split; [|exact double_neg_involutive].
  intros signs f ws v Hs Hwf Hws Hv.
  destruct value_ast as (Hf & _ & _).
  destruct (Hf f v Hv) as (node & Hast & Hev).
  rewrite compile_and_evaluate_parse_text.
  pose proof (parse_text_render (GTerm (GFactor (unary_run signs f))) ws
                (unary_nest signs node) (wf_unary_run signs f Hs Hwf) Hws
                (ast_unary_run signs f node Hast)) as Hp.
  cbn [render_expr render_term] in Hp. rewrite Hp. cbn [bind].
  now rewrite evaluate_unary_nest, Hev.
Qed.

Lemma unary_signs_value_witness :
  compile_and_evaluate "-+-- 3"
  = Return (double_neg (double_of_Z 3)).
Proof.
  exact (proj1 (proj2 unary_signs_value)
           [("", Sub); ("", Add); ("", Sub); ("", Sub)] (GNumber " " "3") ""
           (double_of_Z 3) eq_refl eq_refl eq_refl eq_refl).
Defined.

(** ** print_tokens *)

Lemma print_tokens_loop_next (fuel : nat) (pre s : string) (token : Token)
      (out : ostream) :
  type token <> END_OF_FILE ->
  print_tokens_loop (S fuel) (lexer_at pre s) token out
  = print_from fuel pre s (out ++ print_token token)%list.
Proof.
  intros Ht. cbn [print_tokens_loop].
  replace (TokenType_eqb (type token) END_OF_FILE) with false.
  - cbn [negb]. unfold io_bind, put, lift, print_from, start.
    destruct (get_next_token (lexer_at pre s)) as [[tok lx]| |]; reflexivity.
  - symmetry. apply not_true_is_false. intros E.
    now apply TokenType_eqb_eq in E.
Qed.

Lemma single_char_token_not_end (c : ascii) (t : TokenType) :
  single_char_token c = Some t -> t <> END_OF_FILE /\ t <> NUMBER.
Proof.
  unfold single_char_token.
  repeat (match goal with
          | |- context [Ascii.eqb c ?x] =>
              destruct (Ascii.eqb c x); [intros [= <-]; split; discriminate|]
          end).
  discriminate.
Qed.

Lemma print_from_lexemes (ls : list lexeme) (rest : string) (toks : list Token) :
  wf_lexemes ls rest = true -> tokens_of ls = Return toks ->
  forall fuel pre out,
    print_from (List.length ls + fuel) pre (render_lexemes ls ++ rest) out
    = print_from fuel (pre ++ render_lexemes ls) rest
                 (out ++ flat_map print_token toks)%list.
Proof.
  revert toks. induction ls as [|l ls IH]; intros toks Hwf Htok fuel pre out.
  - injection Htok as <-. cbn. now rewrite string_app_nil_r, app_nil_r.
  - destruct l as [ws literal|ws c]; cbn [wf_lexemes tokens_of] in Hwf, Htok.
    + apply andb_true_iff in Hwf. destruct Hwf as [Hwf Hls].
      apply andb_true_iff in Hwf. destruct Hwf as [Hwf Hnext].
      apply andb_true_iff in Hwf. destruct Hwf as [Hwf Hlit].
      apply andb_true_iff in Hwf. destruct Hwf as [Hws Hne].
      apply negb_true_iff in Hnext.
      destruct (stod literal) as [v| |] eqn:Hv; try discriminate.
      destruct (tokens_of ls) as [toks'| |] eqn:Hts; try discriminate.
      cbn [bind] in Htok. injection Htok as <-.
      cbn [render_lexemes List.length Nat.add]. unfold print_from at 1.
      rewrite !string_app_assoc.
      rewrite (start_number pre ws literal _ Hws Hne Hlit Hnext), Hv. cbn [bind].
      cbn [lexer current_token].
      rewrite print_tokens_loop_next by discriminate.
      rewrite (IH toks' Hls eq_refl). cbn [flat_map].
      now rewrite !string_app_assoc, <- app_assoc.
    + apply andb_true_iff in Hwf. destruct Hwf as [Hwf Hls].
      apply andb_true_iff in Hwf. destruct Hwf as [Hws Hc].
      destruct (single_char_token c) as [t|] eqn:Ht; try discriminate.
      destruct (tokens_of ls) as [toks'| |] eqn:Hts; try discriminate.
      cbn [bind] in Htok. injection Htok as <-.
      cbn [render_lexemes List.length Nat.add]. unfold print_from at 1.
      rewrite string_app_assoc. cbn [append].
      rewrite (start_symbol pre ws c t _ Hws Ht). cbn [lexer current_token].
      rewrite print_tokens_loop_next
        by (cbn; now apply (single_char_token_not_end c t)).
      rewrite (IH toks' Hls eq_refl). cbn [flat_map].
      rewrite <- app_assoc. f_equal. now rewrite !string_app_assoc.
Qed.

Lemma print_tokens_from (expression : string) (out : ostream) :
  print_tokens expression out
  = (print_from (String.length expression + 2) "" expression;;
     put [Text "EOF"; Endl; Endl])%io (out ++ print_header expression)%list.
Proof.
  unfold print_tokens, io_bind at 1, put at 1. fold (print_header expression).
  unfold io_bind, lift, print_from, start.
  change (new_Lexer expression) with (lexer_at "" expression).
  destruct (get_next_token (lexer_at "" expression)) as [[tok lx]| |]; reflexivity.
Qed.

Lemma render_lexemes_length (ls : list lexeme) (rest : string) :
  wf_lexemes ls rest = true ->
  List.length ls <= String.length (render_lexemes ls).
Proof.
  induction ls as [|l ls IH]; intros Hwf; [cbn; lia|].
  destruct l as [ws literal|ws c]; cbn [wf_lexemes] in Hwf;
    cbn [render_lexemes List.length].
  - apply andb_true_iff in Hwf. destruct Hwf as [Hwf Hls].
    apply andb_true_iff in Hwf. destruct Hwf as [Hwf _].
    apply andb_true_iff in Hwf. destruct Hwf as [Hwf _].
    apply andb_true_iff in Hwf. destruct Hwf as [_ Hne].
    rewrite !string_length_app. specialize (IH Hls).
    destruct literal; [discriminate | cbn; lia].
  - apply andb_true_iff in Hwf. destruct Hwf as [_ Hls].
    rewrite string_length_app. cbn. specialize (IH Hls). lia.
Qed.

Lemma print_tokens_success (ls : list lexeme) (toks : list Token)
      (ws : string) (out : ostream) :
  wf_lexemes ls ws = true -> string_forall isspace ws = true ->
  tokens_of ls = Return toks ->
  print_tokens (render_lexemes ls ++ ws) out
  = ((out ++ print_header (render_lexemes ls ++ ws)
          ++ flat_map print_token toks ++ [Text "EOF"; Endl; Endl])%list,
     Return tt).
Proof.
  intros Hwf Hws Htok.
  pose proof (render_lexemes_length ls ws Hwf) as Hlen.
  rewrite print_tokens_from. unfold io_bind.
  set (n := String.length (render_lexemes ls ++ ws) + 2).
  assert (Hn : n = List.length ls + (n - List.length ls)).
  { unfold n. rewrite string_length_app. lia. }
  rewrite Hn, (print_from_lexemes ls ws toks Hwf Htok).
  unfold print_from. rewrite (start_end _ ws Hws). cbn [lexer current_token].
  destruct (n - List.length ls) as [|m] eqn:Hm.
  { unfold n in Hm. rewrite string_length_app in Hm. lia. }
  cbn [print_tokens_loop TokenType_eqb type Token1 negb io_ret]. unfold put.
  now rewrite <- !app_assoc.
Qed.

Lemma print_tokens_failure (ls : list lexeme) (toks : list Token)
      (ws : string) (c : ascii) (junk : string) (out : ostream) :
  wf_lexemes ls (ws ++ String c junk) = true ->
  string_forall isspace ws = true -> unrecognized c = true ->
  tokens_of ls = Return toks ->
  print_tokens (render_lexemes ls ++ ws ++ String c junk) out
  = ((out ++ print_header (render_lexemes ls ++ ws ++ String c junk)
          ++ flat_map print_token toks)%list,
     Throw (InvalidCharacter c)).
Proof.
  intros Hwf Hws Hc Htok.
  rewrite print_tokens_from. unfold io_bind.
  set (n := String.length (render_lexemes ls ++ ws ++ String c junk) + 2).
  pose proof (render_lexemes_length ls _ Hwf) as Hlen.
  assert (Hn : n = List.length ls + (n - List.length ls)).
  { unfold n. rewrite string_length_app. lia. }
  rewrite Hn, (print_from_lexemes ls _ toks Hwf Htok).
  unfold print_from. rewrite (start_unrecognized _ ws c junk Hws Hc).
  now rewrite <- !app_assoc.
Qed.

(** X8: what [print_tokens] writes.  On a text that is a sequence of numbers
    and symbols, with or without whitespace between them, it writes the
    header line, then one item per token in the order of the text, then
    "EOF" and two ends of line.  When a character that starts no token
    follows such a sequence, it writes the header and the items of the tokens
    before that character, and then throws: the "EOF" line is not written. *)
Theorem print_tokens_lexemes (ls : list lexeme) (toks : list Token) :
  (forall ws out,
      wf_lexemes ls ws = true -> string_forall isspace ws = true ->
      tokens_of ls = Return toks ->
      print_tokens (render_lexemes ls ++ ws) out
      = ((out ++ print_header (render_lexemes ls ++ ws)
              ++ flat_map print_token toks ++ [Text "EOF"; Endl; Endl])%list,
         Return tt))
  /\ (forall ws c junk out,
         wf_lexemes ls (ws ++ String c junk) = true ->
         string_forall isspace ws = true -> unrecognized c = true ->
         tokens_of ls = Return toks ->
         print_tokens (render_lexemes ls ++ ws ++ String c junk) out
         = ((out ++ print_header (render_lexemes ls ++ ws ++ String c junk)
                 ++ flat_map print_token toks)%list,
            Throw (InvalidCharacter c))).
Proof.
  split.
  - intros ws out. apply print_tokens_success.
  - intros ws c junk out. apply print_tokens_failure.
Qed.

Lemma print_tokens_lexemes_witness :
  print_tokens "2 + 3" []
  = ((print_header "2 + 3"
      ++ [Text "NUMBER("; Value (double_of_Z 2); Text ") "; Text "PLUS ";
          Text "NUMBER("; Value (double_of_Z 3); Text ") "]
      ++ [Text "EOF"; Endl; Endl])%list,
     Return tt)
  /\ print_tokens "2 + $3" []
     = ((print_header "2 + $3"
         ++ [Text "NUMBER("; Value (double_of_Z 2); Text ") "; Text "PLUS "])%list,
        Throw (InvalidCharacter "$")).
Proof.
  split.
  - exact (proj1 (print_tokens_lexemes
                    [LNumber "" "2"; LSymbol " " "+"; LNumber " " "3"]
                    [mkToken NUMBER (double_of_Z 2); Token1 PLUS;
                     mkToken NUMBER (double_of_Z 3)])
             "" [] eq_refl eq_refl eq_refl).
  - exact (proj2 (print_tokens_lexemes
                    [LNumber "" "2"; LSymbol " " "+"]
                    [mkToken NUMBER (double_of_Z 2); Token1 PLUS])
             " " "$"%char "3" [] eq_refl eq_refl eq_refl eq_refl).
Defined.

Lemma print_tokens_loop_shape (fuel : nat) :
  forall pre suf token out,
    (type token = END_OF_FILE -> 1 <= fuel) ->
    (type token <> END_OF_FILE -> String.length suf + 2 <= fuel) ->
    exists items,
      print_tokens_loop fuel (lexer_at pre suf) token out
      = ((out ++ items)%list, Return tt)
      \/ exists e, print_tokens_loop fuel (lexer_at pre suf) token out
                   = ((out ++ items)%list, Throw e).
Proof.
  induction fuel as [|fuel IH]; intros pre suf token out H1 H2.
  - destruct (TokenType_eqb (type token) END_OF_FILE) eqn:E.
    + apply TokenType_eqb_eq in E. specialize (H1 E). lia.
    + assert (type token <> END_OF_FILE)
        by (intros E'; apply TokenType_eqb_eq in E'; congruence).
      specialize (H2 H). lia.
  - destruct (TokenType_eqb (type token) END_OF_FILE) eqn:E.
    + exists []. left. cbn [print_tokens_loop]. rewrite E. cbn.
      now rewrite app_nil_r.
    + assert (Hne : type token <> END_OF_FILE)
        by (intros E'; apply TokenType_eqb_eq in E'; congruence).
      specialize (H2 Hne).
      rewrite (print_tokens_loop_next fuel pre suf token out Hne).
      unfold print_from. rewrite start_scan.
      pose proof (scan_terminates pre suf) as Hterm.
      destruct (scan pre suf) as [[tok lx]|e|] eqn:Hs; cbn [bind];
        [| |contradiction].
      * apply scan_inv in Hs. destruct Hs as (pre' & suf' & -> & _ & Hs).
        cbn [lexer current_token].
        destruct (IH pre' suf' tok (out ++ print_token token)%list)
          as (items & Hitems).
        -- intros _. lia.
        -- intros Hne'. replace (TokenType_eqb (type tok) END_OF_FILE) with false in Hs.
           ++ lia.
           ++ symmetry. apply not_true_is_false. intros E'.
              now apply TokenType_eqb_eq in E'.
        -- exists (print_token token ++ items)%list. rewrite app_assoc.
           exact Hitems.
      * exists (print_token token). right. now exists e.
Qed.

Lemma print_tokens_shape (expression : string) (out : ostream) :
  exists items,
    print_tokens expression out
    = ((out ++ print_header expression ++ items ++ [Text "EOF"; Endl; Endl])%list,
       Return tt)
    \/ exists e,
         print_tokens expression out
         = ((out ++ print_header expression ++ items)%list, Throw e).
Proof.
  rewrite print_tokens_from. unfold io_bind, print_from. rewrite start_scan.
  pose proof (scan_terminates "" expression) as Hterm.
  destruct (scan "" expression) as [[tok lx]|e|] eqn:Hs; cbn [bind];
    [| |contradiction].
  - apply scan_inv in Hs. destruct Hs as (pre' & suf' & -> & _ & Hs).
    cbn [lexer current_token].
    destruct (print_tokens_loop_shape (String.length expression + 2) pre' suf' tok
                (out ++ print_header expression)%list) as (items & [H|[e H]]).
    + intros _. lia.
    + intros _. destruct (TokenType_eqb (type tok) END_OF_FILE); lia.
    + exists items. left. rewrite H. unfold put. now rewrite <- !app_assoc.
    + exists items. right. exists e. rewrite H. now rewrite <- !app_assoc.
  - exists []. right. exists e. now rewrite app_nil_r.
Qed.

Lemma next_tokens_cons (pre s : string) (tok : Token) (pre' suf' : string) (n : nat) :
  scan pre s = Return (tok, lexer_at pre' suf') ->
  next_tokens (S n) (lexer_at pre s)
  = ('(toks, lx) <- next_tokens n (lexer_at pre' suf');; Return (tok :: toks, lx)).
Proof.
  intros H. cbn [next_tokens]. now rewrite get_next_token_at, H.
Qed.

(** The loop of [print_tokens] writes the tokens that successive calls of
    [get_next_token] return, up to the end marker or to the exception. *)
Lemma print_from_tokens (fuel : nat) :
  forall pre s out,
    String.length s < fuel ->
    exists toks,
      visible toks = true
      /\ ((exists last lx,
              type last = END_OF_FILE
              /\ next_tokens (S (List.length toks)) (lexer_at pre s)
                 = Return ((toks ++ [last])%list, lx)
              /\ print_from fuel pre s out
                 = ((out ++ flat_map print_token toks)%list, Return tt))
          \/ (exists lx e,
                 next_tokens (List.length toks) (lexer_at pre s) = Return (toks, lx)
                 /\ get_next_token lx = Throw e
                 /\ print_from fuel pre s out
                    = ((out ++ flat_map print_token toks)%list, Throw e))).
Proof.
  induction fuel as [|fuel IH]; intros pre s out Hfuel; [lia|].
  unfold print_from. rewrite start_scan.
  pose proof (scan_terminates pre s) as Hterm.
  destruct (scan pre s) as [[tok lx]|e|] eqn:Hs; cbn [bind]; [| |contradiction].
  - pose proof Hs as Hinv. apply scan_inv in Hinv.
    destruct Hinv as (pre' & suf' & -> & _ & Hlen).
    cbn [lexer current_token].
    destruct (TokenType_eqb (type tok) END_OF_FILE) eqn:Ht.
    + exists []. split; [reflexivity|]. left. exists tok, (lexer_at pre' suf').
      split; [now apply TokenType_eqb_eq|]. split.
      * cbn [List.length app].
        rewrite (next_tokens_cons pre s tok pre' suf' 0 Hs). reflexivity.
      * cbn [print_tokens_loop]. rewrite Ht. cbn. now rewrite app_nil_r.
    + assert (Hne : type tok <> END_OF_FILE)
        by (intros E; apply TokenType_eqb_eq in E; congruence).
      rewrite (print_tokens_loop_next fuel pre' suf' tok out Hne).
      destruct (IH pre' suf' (out ++ print_token tok)%list ltac:(lia))
        as (toks & Hvis & H).
      exists (tok :: toks).
      split; [unfold visible in *; cbn [forallb]; now rewrite Ht, Hvis|].
      destruct H as [(last & lx & Hlast & Hnext & Hprint)
                    |(lx & e & Hnext & Hthrow & Hprint)].
      * left. exists last, lx. split; [exact Hlast|]. split.
        -- cbn [List.length].
           rewrite (next_tokens_cons pre s tok pre' suf' _ Hs), Hnext. reflexivity.
        -- rewrite Hprint. cbn [flat_map]. now rewrite <- app_assoc.
      * right. exists lx, e. split; [|split; [exact Hthrow|]].
        -- cbn [List.length].
           rewrite (next_tokens_cons pre s tok pre' suf' _ Hs), Hnext. reflexivity.
        -- rewrite Hprint. cbn [flat_map]. now rewrite <- app_assoc.
  - exists []. split; [reflexivity|]. right. exists (lexer_at pre s), e.
    split; [reflexivity|]. split; [now rewrite get_next_token_at|].
    now rewrite app_nil_r.
Qed.

Lemma print_token_items (toks : list Token) :
  ~ In Endl (flat_map print_token toks)
  /\ ~ In (Text "EOF") (flat_map print_token toks).
Proof.
  split; intros H; apply in_flat_map in H; destruct H as (t & _ & H);
    unfold print_token in H; destruct (type t); cbn in H;
    repeat (destruct H as [H|H]; [discriminate|]); exact H.
Qed.

(** X9: [print_tokens] finishes on every text and writes exactly this: the
    header line, then the items of the tokens that successive calls of
    [get_next_token] return before the end marker, in that order, and then
    "EOF" and two ends of line; or, when one of the calls throws, the header
    line and the items of the tokens returned before that call and nothing
    after them: the exception leaves [print_tokens] and the "EOF" line is
    not written (no item of a token is an end of line or the text "EOF"). *)
Theorem print_tokens_outcome (expression : string) (out : ostream) :
  exists toks,
    visible toks = true
    /\ ~ In Endl (flat_map print_token toks)
    /\ ~ In (Text "EOF") (flat_map print_token toks)
    /\ ((exists last lx,
            type last = END_OF_FILE
            /\ next_tokens (S (List.length toks)) (new_Lexer expression)
               = Return ((toks ++ [last])%list, lx)
            /\ print_tokens expression out
               = ((out ++ print_header expression ++ flat_map print_token toks
                       ++ [Text "EOF"; Endl; Endl])%list,
                  Return tt))
        \/ (exists lx e,
               next_tokens (List.length toks) (new_Lexer expression)
               = Return (toks, lx)
               /\ get_next_token lx = Throw e
               /\ print_tokens expression out
                  = ((out ++ print_header expression
                          ++ flat_map print_token toks)%list,
                     Throw e))).
Proof.
  change (new_Lexer expression) with (lexer_at "" expression).
  rewrite print_tokens_from. unfold io_bind.
  destruct (print_from_tokens (String.length expression + 2) "" expression
              (out ++ print_header expression)%list ltac:(lia))
    as (toks & Hvis & H).
  exists toks. split; [exact Hvis|].
  split; [apply print_token_items|]. split; [apply print_token_items|].
  destruct H as [(last & lx & Hlast & Hnext & Hprint)
                |(lx & e & Hnext & Hthrow & Hprint)]; rewrite Hprint.
  - left. exists last, lx. split; [exact Hlast|]. split; [exact Hnext|].
    unfold put. now rewrite <- !app_assoc.
  - right. exists lx, e. split; [exact Hnext|]. split; [exact Hthrow|].
    now rewrite <- !app_assoc.
Qed.

Lemma substring_all (s : string) : String.substring 0 (String.length s) s = s.
Proof. induction s as [|c s IH]; cbn; [reflexivity | now rewrite IH]. Qed.

Lemma tokens_command_runs (sep : ascii) (text : string) :
  text <> "" ->
  main_iteration ("tokens" ++ String sep text)
  = (print_tokens text;; io_ret Continue)%io.
Proof.
  intros Hne. destruct text as [|c text]; [congruence|].
  unfold main_iteration. cbn [append String.eqb Ascii.eqb Bool.eqb].
  unfold substr, substr_from. cbn [String.substring String.eqb].
  rewrite !Ascii.eqb_refl. cbn [String.length Nat.ltb Nat.leb Nat.sub].
  now rewrite substring_all.
Qed.

Lemma tokens_usage (s : string) (out : ostream) :
  String.length s <= 1 ->
  main_iteration ("tokens" ++ s) out
  = ((out ++ [Text "Usage: tokens <expression>"; Endl])%list, Return Continue).
Proof.
  intros Hs. destruct s as [|c [|d s]]; cbn in Hs; try lia; reflexivity.
Qed.

Lemma compile_and_evaluate_cases (expression : string) :
  (exists v, compile_and_evaluate expression = Return v)
  \/ (exists cause, compile_and_evaluate expression = Throw (CompilationError cause)).
Proof.
  pose proof (compile_and_evaluate_terminates expression) as H.
  unfold compile_and_evaluate in *.
  destruct (p <- new_Parser expression;; '(ast, _) <- parse p;; evaluate ast)
    as [v|e|]; [left; now exists v | right; now exists e | contradiction].
Qed.

(** X10: a line that is not "quit", does not begin with "tokens" and is not
    empty is evaluated, and the iteration always goes on to the next line: it
    writes "Result: " and the value, or, every exception being caught,
    "Error: Compilation error: " and the message of the cause; then an empty
    line. *)
Theorem main_iteration_reports (expression : string) (out : ostream) :
  expression <> "quit" -> substr expression 0 6 <> "tokens" -> expression <> "" ->
  (exists v,
      compile_and_evaluate expression = Return v
      /\ main_iteration expression out
         = ((out ++ [Text "Result: "; Value v; Endl; Endl])%list, Return Continue))
  \/ (exists cause,
         compile_and_evaluate expression = Throw (CompilationError cause)
         /\ main_iteration expression out
            = ((out ++ [Text "Error: "; Text ("Compilation error: " ++ what cause);
                        Endl; Endl])%list,
               Return Continue)).
Proof.
  intros Hq Ht He. unfold main_iteration.
  apply String.eqb_neq in Hq, Ht, He. rewrite Hq, Ht, He.
  destruct (compile_and_evaluate_cases expression) as [[v Hv]|[cause Hc]].
  - left. exists v. split; [exact Hv|]. rewrite Hv.
    unfold io_bind, put, io_ret. now rewrite <- app_assoc.
  - right. exists cause. split; [exact Hc|]. rewrite Hc.
    unfold io_bind, put, io_ret. now rewrite <- app_assoc.
Qed.

Lemma main_iteration_reports_witness :
  (exists v,
      compile_and_evaluate "1/0" = Return v
      /\ main_iteration "1/0" []
         = ([Text "Result: "; Value v; Endl; Endl], Return Continue))
  \/ (exists cause,
         compile_and_evaluate "1/0" = Throw (CompilationError cause)
         /\ main_iteration "1/0" []
            = ([Text "Error: "; Text ("Compilation error: " ++ what cause);
                Endl; Endl],
               Return Continue)).
Proof.
  apply (main_iteration_reports "1/0" []); vm_compute; discriminate.
Defined.

Lemma print_tokens_cases (expression : string) (out : ostream) :
  (exists out', print_tokens expression out = (out', Return tt))
  \/ (exists out' e, print_tokens expression out = (out', Throw e)).
Proof.
  destruct (print_tokens_shape expression out) as (items & [H|[e H]]);
    rewrite H; eauto.
Qed.

(** X11: how an iteration of the loop of [main] ends.  It leaves the loop
    exactly when the line is "quit"; an exception leaves it only from a
    "tokens" command with an argument, which runs outside the handler; it
    always finishes; and on an empty line it writes nothing. *)
Theorem main_iteration_exits (expression : string) (out : ostream) :
  (snd (main_iteration expression out) = Return Break <-> expression = "quit")
  /\ (forall e, snd (main_iteration expression out) = Throw e ->
                substr expression 0 6 = "tokens" /\ 7 < String.length expression)
  /\ snd (main_iteration expression out) <> Timeout
  /\ (expression = "" -> main_iteration expression out = (out, Return Continue)).
Proof.
  unfold main_iteration.
  destruct (String.eqb expression "quit") eqn:Hq.
  { apply String.eqb_eq in Hq. subst. cbn. repeat split; intros; congruence. }
  apply String.eqb_neq in Hq.
  destruct (String.eqb (substr expression 0 6) "tokens") eqn:Ht.
  { apply String.eqb_eq in Ht.
    destruct (7 <? String.length expression) eqn:Hl.
    - apply Nat.ltb_lt in Hl. unfold io_bind.
      destruct (print_tokens_cases (substr_from expression 7) out)
        as [(out' & H)|(out' & e & H)]; rewrite H; cbn [snd io_ret].
      + repeat split; try congruence; intros; subst; discriminate.
      + repeat split; try congruence; intros; subst; discriminate.
    - cbn. repeat split; try congruence; intros; subst; discriminate. }
  destruct (String.eqb expression "") eqn:He.
  { cbn. repeat split; try congruence; intros; discriminate. }
  apply String.eqb_neq in He.
  destruct (compile_and_evaluate_cases expression) as [[v Hv]|[cause Hc]];
    [rewrite Hv | rewrite Hc]; cbn; repeat split; try congruence;
    intros; discriminate.
Qed.

Lemma main_iteration_exits_witness :
  snd (main_iteration "quit" []) = Return Break
  /\ substr "tokens 2 $" 0 6 = "tokens" /\ 7 < String.length "tokens 2 $".
Proof.
  split.
  - exact (proj2 (proj1 (main_iteration_exits "quit" [])) eq_refl).
  - exact (proj1 (proj2 (main_iteration_exits "tokens 2 $" []))
             (InvalidCharacter "$") eq_refl).
Defined.

Lemma flushed_app_pending (a b : ostream) :
  existsb is_endl b = false -> flushed (a ++ b)%list = flushed a.
Proof.
  intros Hb. induction a as [|x a IH].
  - destruct b as [|y b]; [reflexivity|]. cbn [app flushed]. now rewrite Hb.
  - cbn [app flushed existsb]. rewrite existsb_app, Hb, orb_false_r.
    now rewrite IH.
Qed.

Lemma flushed_endl (a : ostream) : flushed (a ++ [Endl])%list = (a ++ [Endl])%list.
Proof.
  induction a as [|x a IH]; [reflexivity|].
  cbn [app flushed existsb]. rewrite existsb_app. cbn [existsb is_endl].
  rewrite orb_true_r, orb_true_r. now rewrite IH.
Qed.

Lemma print_token_pending (toks : list Token) :
  existsb is_endl (flat_map print_token toks) = false.
Proof.
  induction toks as [|t toks IH]; [reflexivity|].
  cbn [flat_map]. rewrite existsb_app, IH, orb_false_r.
  unfold print_token. now destruct (type t).
Qed.

Lemma flushed_header (out : ostream) (expression : string) (toks : list Token) :
  flushed (out ++ print_header expression ++ flat_map print_token toks)%list
  = (out ++ print_header expression)%list.
Proof.
  rewrite app_assoc, (flushed_app_pending _ _ (print_token_pending toks)).
  unfold print_header.
  change [Text ("Tokens for " ++ String quote ""); Text expression;
          Text (String quote ":"); Endl]
    with ([Text ("Tokens for " ++ String quote ""); Text expression;
           Text (String quote ":")] ++ [Endl])%list.
  rewrite app_assoc. apply flushed_endl.
Qed.

(** X12: the "tokens" command.  A line that begins with "tokens" is never
    evaluated.  Its seventh character is dropped, whatever it is, and the
    rest is given to [print_tokens]; when at most one character follows
    "tokens", the usage line is written instead.  The call is outside the
    handler of [main]: when the argument holds a character that starts no
    token, the exception of the lexer leaves the loop, and [main], uncaught.
    By then the header line and the items of the tokens before that character
    have been inserted into [std::cout], but only the header line has been
    flushed by its [std::endl]: the items of the tokens come after the last
    [std::endl], so that the header line is all that is sure to be output. *)
Theorem tokens_command :
  (forall sep text,
      text <> "" ->
      main_iteration ("tokens" ++ String sep text)
      = (print_tokens text;; io_ret Continue)%io)
  /\ (forall s out,
         String.length s <= 1 ->
         main_iteration ("tokens" ++ s) out
         = ((out ++ [Text "Usage: tokens <expression>"; Endl])%list,
            Return Continue))
  /\ (forall sep ls toks ws c junk out,
         wf_lexemes ls (ws ++ String c junk) = true ->
         string_forall isspace ws = true -> unrecognized c = true ->
         tokens_of ls = Return toks ->
         let text := render_lexemes ls ++ ws ++ String c junk in
         main_iteration ("tokens" ++ String sep text) out
         = ((out ++ print_header text ++ flat_map print_token toks)%list,
            Throw (InvalidCharacter c))
         /\ flushed (out ++ print_header text ++ flat_map print_token toks)%list
            = (out ++ print_header text)%list).
Proof.
  split; [exact tokens_command_runs|]. split; [exact tokens_usage|].
  intros sep ls toks ws c junk out Hwf Hws Hc Htok text.
  split; [|apply flushed_header].
  rewrite tokens_command_runs.
  - unfold io_bind. subst text.
    now rewrite (print_tokens_failure ls toks ws c junk out Hwf Hws Hc Htok).
  - intros H. apply (f_equal String.length) in H. subst text.
    rewrite !string_length_app in H. cbn in H. lia.
Qed.

Lemma tokens_command_witness :
  main_iteration "tokens" [] = ([Text "Usage: tokens <expression>"; Endl],
                                Return Continue)
  /\ snd (main_iteration "tokens 2 $" []) = Throw (InvalidCharacter "$")
  /\ flushed (fst (main_iteration "tokens 2 $" [])) = print_header "2 $".
Proof.
  split; [|split].
  - exact (proj1 (proj2 tokens_command) "" [] (le_S _ _ (le_n 0))).
  - exact (f_equal snd
             (proj1 (proj2 (proj2 tokens_command) " "%char [LNumber "" "2"]
                       [mkToken NUMBER (double_of_Z 2)] " " "$"%char "" []
                       eq_refl eq_refl eq_refl eq_refl))).
  - exact (eq_trans
             (f_equal (fun r => flushed (fst r))
                (proj1 (proj2 (proj2 tokens_command) " "%char [LNumber "" "2"]
                          [mkToken NUMBER (double_of_Z 2)] " " "$"%char "" []
                          eq_refl eq_refl eq_refl eq_refl)))
             (proj2 (proj2 (proj2 tokens_command) " "%char [LNumber "" "2"]
                       [mkToken NUMBER (double_of_Z 2)] " " "$"%char "" []
                       eq_refl eq_refl eq_refl eq_refl))).
Defined.

(** The character of a single-character token. *)
Lemma single_char_token_char (c : ascii) (t : TokenType) :
  single_char_token c = Some t ->
  match t with
  | PLUS => c = "+"%char
  | MINUS => c = "-"%char
  | MULTIPLY => c = "*"%char
  | DIVIDE => c = "/"%char
  | LPAREN => c = "("%char
  | RPAREN => c = ")"%char
  | NUMBER | END_OF_FILE => False
  end.
Proof.
  unfold single_char_token.
  repeat (match goal with
          | |- context [Ascii.eqb c ?x] =>
              destruct (Ascii.eqb c x) eqn:?;
              [intros [= <-]; now apply Ascii.eqb_eq|]
          end).
  discriminate.
Qed.

Lemma start_inv (pre s : string) (p : Parser) :
  start pre s = Return p -> starts pre s p.
Proof.
  rewrite start_scan. unfold scan.
  pose proof (span_app isspace s) as Happ.
  pose proof (span_forall isspace s) as Hws.
  destruct (span isspace s) as [ws s1]. cbn [fst snd] in *.
  destruct s1 as [|c s2]; cbn [scan_token].
  - intros [= <-]. now apply (starts_end pre s _ ws "").
  - destruct (is_nul c) eqn:Hn.
    + intros [= <-]. now apply (starts_end pre s _ ws (String c s2)).
    + destruct (is_numeric c) eqn:Hc.
      * pose proof (span_app is_numeric (String c s2)) as Happ'.
        pose proof (span_forall is_numeric (String c s2)) as Hnum.
        pose proof (span_head_false is_numeric (String c s2) eq_refl) as Hrest.
        assert (Hne : nonempty (fst (span is_numeric (String c s2))) = true).
        { cbn [span]. rewrite Hc. now destruct (span is_numeric s2). }
        destruct (span is_numeric (String c s2)) as [run rest]. cbn [fst snd] in *.
        destruct (stod run) as [v| |] eqn:Hv; cbn [bind]; try discriminate.
        intros [= <-].
        apply (starts_number pre s _ ws run rest v); try assumption; try reflexivity.
        now rewrite Happ'.
      * destruct (single_char_token c) as [t|] eqn:Ht; try discriminate.
        intros [= <-]. now apply (starts_symbol pre s _ ws c t s2).
Qed.

Lemma rules_sound (fuel : nat) :
  (forall pre s p node p',
      start pre s = Return p -> factor fuel p = Return (node, p') ->
      exists f rest,
        s = render_factor f ++ rest /\ wf_factor f = true
        /\ ast_factor f = Return node
        /\ start (pre ++ render_factor f) rest = Return p')
  /\ (forall pre t rest node0 p node p',
         wf_term t = true -> ast_term t = Return node0 ->
         start (pre ++ render_term t) rest = Return p ->
         term_loop fuel node0 p = Return (node, p') ->
         exists t' rest',
           render_term t ++ rest = render_term t' ++ rest' /\ wf_term t' = true
           /\ ast_term t' = Return node
           /\ start (pre ++ render_term t') rest' = Return p')
  /\ (forall pre s p node p',
         start pre s = Return p -> term fuel p = Return (node, p') ->
         exists t rest,
           s = render_term t ++ rest /\ wf_term t = true
           /\ ast_term t = Return node
           /\ start (pre ++ render_term t) rest = Return p')
  /\ (forall pre e rest node0 p node p',
         wf_expr e = true -> ast_expr e = Return node0 ->
         start (pre ++ render_expr e) rest = Return p ->
         expr_loop fuel node0 p = Return (node, p') ->
         exists e' rest',
           render_expr e ++ rest = render_expr e' ++ rest' /\ wf_expr e' = true
           /\ ast_expr e' = Return node
           /\ start (pre ++ render_expr e') rest' = Return p')
  /\ (forall pre s p node p',
         start pre s = Return p -> expr fuel p = Return (node, p') ->
         exists e rest,
           s = render_expr e ++ rest /\ wf_expr e = true
           /\ ast_expr e = Return node
           /\ start (pre ++ render_expr e) rest = Return p').
Proof.
  induction fuel as [|fuel (IHf & IHtl & IHt & IHel & IHe)].
  { repeat split; intros; discriminate. }
  repeat split.
  - (* factor *)
    intros pre s p node p' Hp Hrun.
    destruct (start_inv pre s p Hp)
      as [ws s1 -> Hws Hnul ->
         | ws literal rest v -> Hws Hne Hlit Hrest Hv ->
         | ws c t rest -> Hws Ht ->].
    + discriminate.
    + cbn [factor current_token type value] in Hrun.
      rewrite eat_at in Hrun by reflexivity.
      destruct (start _ rest) as [p1| |] eqn:Hp1; cbn [bind] in Hrun; try discriminate.
      revert Hrun; intros [= <- <-].
      exists (GNumber ws literal), rest. cbn [render_factor wf_factor ast_factor].
      rewrite Hws, Hne, Hlit, Hv. repeat split; try reflexivity.
      * now norm_strings.
      * rewrite <- Hp1. f_equal. now norm_strings.
    + pose proof (single_char_token_char c t Ht) as Hc.
      destruct t; try contradiction; subst c;
        cbn [factor current_token type Token1] in Hrun; try discriminate;
        rewrite eat_at in Hrun by reflexivity;
        destruct (start _ rest) as [p1| |] eqn:Hp1; cbn [bind] in Hrun;
        try discriminate.
      * (* + *)
        destruct (factor fuel p1) as [[operand p2]| |] eqn:Hf; cbn [bind] in Hrun;
          try discriminate.
        revert Hrun; intros [= <- <-].
        destruct (IHf _ _ _ _ _ Hp1 Hf) as (f & rest' & -> & Hwf & Hast & Hp2).
        exists (GUnary ws Add f), rest'.
        cbn [render_factor wf_factor ast_factor additive_char additive_type].
        rewrite Hws, Hwf, Hast. repeat split; try reflexivity.
        -- now norm_strings.
        -- rewrite <- Hp2. f_equal. now norm_strings.
      * (* - *)
        destruct (factor fuel p1) as [[operand p2]| |] eqn:Hf; cbn [bind] in Hrun;
          try discriminate.
        revert Hrun; intros [= <- <-].
        destruct (IHf _ _ _ _ _ Hp1 Hf) as (f & rest' & -> & Hwf & Hast & Hp2).
        exists (GUnary ws Sub f), rest'.
        cbn [render_factor wf_factor ast_factor additive_char additive_type].
        rewrite Hws, Hwf, Hast. repeat split; try reflexivity.
        -- now norm_strings.
        -- rewrite <- Hp2. f_equal. now norm_strings.
      * (* ( *)
        destruct (expr fuel p1) as [[inner p2]| |] eqn:Hf; cbn [bind] in Hrun;
          try discriminate.
        destruct (IHe _ _ _ _ _ Hp1 Hf) as (e & rest' & -> & Hwf & Hast & Hp2).
        destruct (start_inv _ _ _ Hp2)
          as [ws2 s1 -> Hws2 Hnul ->
             | ws2 literal rest2 v -> Hws2 Hne Hlit Hrest Hv ->
             | ws2 c t rest2 -> Hws2 Ht2 ->];
          try discriminate.
        pose proof (single_char_token_char c t Ht2) as Hc.
        destruct t; try contradiction; subst c; try discriminate.
        rewrite eat_at in Hrun by reflexivity.
        destruct (start _ rest2) as [p3| |] eqn:Hp3; cbn [bind] in Hrun;
          try discriminate.
        revert Hrun; intros [= <- <-].
        exists (GParen ws e ws2), rest2.
        cbn [render_factor wf_factor ast_factor].
        rewrite Hws, Hwf, Hws2, Hast. repeat split; try reflexivity.
        -- now norm_strings.
        -- rewrite <- Hp3. f_equal. now norm_strings.
  - (* term_loop *)
    intros pre t rest node0 p node p' Hwf Hast Hp Hrun.
    assert (Hstop : (node, p') = (node0, p) ->
                    exists t' rest',
                      render_term t ++ rest = render_term t' ++ rest'
                      /\ wf_term t' = true /\ ast_term t' = Return node
                      /\ start (pre ++ render_term t') rest' = Return p').
    { intros [= -> ->]. now exists t, rest. }
    destruct (start_inv _ _ _ Hp)
      as [ws s1 -> Hws Hnul ->
         | ws literal rest1 v -> Hws Hne Hlit Hrest Hv ->
         | ws c op rest1 -> Hws Ht ->].
    + apply Hstop. cbn in Hrun. congruence.
    + apply Hstop. cbn in Hrun. congruence.
    + pose proof (single_char_token_char c op Ht) as Hc.
      destruct op; try contradiction; subst c;
        cbn [term_loop current_token type Token1] in Hrun;
        try (apply Hstop; congruence);
        rewrite eat_at in Hrun by reflexivity;
        destruct (start _ rest1) as [p1| |] eqn:Hp1; cbn [bind] in Hrun;
        try discriminate;
        destruct (factor fuel p1) as [[rhs p2]| |] eqn:Hf; cbn [bind] in Hrun;
        try discriminate;
        destruct (IHf _ _ _ _ _ Hp1 Hf) as (f & rest2 & -> & Hwff & Hastf & Hp2).
      * destruct (IHtl pre (GMulDiv t ws Mul f) rest2 (BinaryOpNode node0 MULTIPLY rhs) p2 node p') as
          (t' & rest' & Heq & Hwf' & Hast' & Hp').
        -- cbn [wf_term]. now rewrite Hwf, Hws, Hwff.
        -- cbn [ast_term multiplicative_type]. now rewrite Hast, Hastf.
        -- rewrite <- Hp2. f_equal.
           cbn [render_term multiplicative_char]. now norm_strings.
        -- exact Hrun.
        -- exists t', rest'. repeat split; try assumption.
           rewrite <- Heq. cbn [render_term multiplicative_char]. now norm_strings.
      * destruct (IHtl pre (GMulDiv t ws Div f) rest2 (BinaryOpNode node0 DIVIDE rhs) p2 node p') as
          (t' & rest' & Heq & Hwf' & Hast' & Hp').
        -- cbn [wf_term]. now rewrite Hwf, Hws, Hwff.
        -- cbn [ast_term multiplicative_type]. now rewrite Hast, Hastf.
        -- rewrite <- Hp2. f_equal.
           cbn [render_term multiplicative_char]. now norm_strings.
        -- exact Hrun.
        -- exists t', rest'. repeat split; try assumption.
           rewrite <- Heq. cbn [render_term multiplicative_char]. now norm_strings.
  - (* term *)
    intros pre s p node p' Hp Hrun. cbn [term] in Hrun.
    destruct (factor fuel p) as [[node0 p1]| |] eqn:Hf; cbn [bind] in Hrun;
      try discriminate.
    destruct (IHf _ _ _ _ _ Hp Hf) as (f & rest & -> & Hwf & Hast & Hp1).
    destruct (IHtl pre (GFactor f) rest node0 p1 node p' Hwf Hast Hp1 Hrun)
      as (t' & rest' & Heq & Hwf' & Hast' & Hp').
    now exists t', rest'.
  - (* expr_loop *)
    intros pre e rest node0 p node p' Hwf Hast Hp Hrun.
    assert (Hstop : (node, p') = (node0, p) ->
                    exists e' rest',
                      render_expr e ++ rest = render_expr e' ++ rest'
                      /\ wf_expr e' = true /\ ast_expr e' = Return node
                      /\ start (pre ++ render_expr e') rest' = Return p').
    { intros [= -> ->]. now exists e, rest. }
    destruct (start_inv _ _ _ Hp)
      as [ws s1 -> Hws Hnul ->
         | ws literal rest1 v -> Hws Hne Hlit Hrest Hv ->
         | ws c op rest1 -> Hws Ht ->].
    + apply Hstop. cbn in Hrun. congruence.
    + apply Hstop. cbn in Hrun. congruence.
    + pose proof (single_char_token_char c op Ht) as Hc.
      destruct op; try contradiction; subst c;
        cbn [expr_loop current_token type Token1] in Hrun;
        try (apply Hstop; congruence);
        rewrite eat_at in Hrun by reflexivity;
        destruct (start _ rest1) as [p1| |] eqn:Hp1; cbn [bind] in Hrun;
        try discriminate;
        destruct (term fuel p1) as [[rhs p2]| |] eqn:Hf; cbn [bind] in Hrun;
        try discriminate;
        destruct (IHt _ _ _ _ _ Hp1 Hf) as (t & rest2 & -> & Hwft & Hastt & Hp2).
      * destruct (IHel pre (GAddSub e ws Add t) rest2 (BinaryOpNode node0 PLUS rhs) p2 node p') as
          (e' & rest' & Heq & Hwf' & Hast' & Hp').
        -- cbn [wf_expr]. now rewrite Hwf, Hws, Hwft.
        -- cbn [ast_expr additive_type]. now rewrite Hast, Hastt.
        -- rewrite <- Hp2. f_equal.
           cbn [render_expr additive_char]. now norm_strings.
        -- exact Hrun.
        -- exists e', rest'. repeat split; try assumption.
           rewrite <- Heq. cbn [render_expr additive_char]. now norm_strings.
      * destruct (IHel pre (GAddSub e ws Sub t) rest2 (BinaryOpNode node0 MINUS rhs) p2 node p') as
          (e' & rest' & Heq & Hwf' & Hast' & Hp').
        -- cbn [wf_expr]. now rewrite Hwf, Hws, Hwft.
        -- cbn [ast_expr additive_type]. now rewrite Hast, Hastt.
        -- rewrite <- Hp2. f_equal.
           cbn [render_expr additive_char]. now norm_strings.
        -- exact Hrun.
        -- exists e', rest'. repeat split; try assumption.
           rewrite <- Heq. cbn [render_expr additive_char]. now norm_strings.
  - (* expr *)
    intros pre s p node p' Hp Hrun. cbn [expr] in Hrun.
    destruct (term fuel p) as [[node0 p1]| |] eqn:Hf; cbn [bind] in Hrun;
      try discriminate.
    destruct (IHt _ _ _ _ _ Hp Hf) as (t & rest & -> & Hwf & Hast & Hp1).
    destruct (IHel pre (GTerm t) rest node0 p1 node p' Hwf Hast Hp1 Hrun)
      as (e' & rest' & Heq & Hwf' & Hast' & Hp').
    now exists e', rest'.
Qed.

Lemma parse_text_inv (text : string) (node : ASTNode) :
  parse_text text = Return node ->
  exists p fuel p',
    start "" text = Return p /\ expr fuel p = Return (node, p')
    /\ type (current_token p') = END_OF_FILE.
Proof.
  unfold parse_text, parse. rewrite new_Parser_start.
  destruct (start "" text) as [p| |] eqn:Hp; cbn [bind]; try discriminate.
  destruct (expr (parse_fuel p) p) as [[node' p']| |] eqn:He; cbn [bind];
    try discriminate.
  destruct (TokenType_eqb (type (current_token p')) END_OF_FILE) eqn:Ht;
    cbn [negb bind]; try discriminate.
  intros [= <-]. exists p, (parse_fuel p), p'.
  repeat split; try assumption. now apply TokenType_eqb_eq.
Qed.

Lemma parse_text_sound (text : string) (node : ASTNode) :
  parse_text text = Return node ->
  exists e ws tail,
    text = render_expr e ++ ws ++ tail
    /\ wf_expr e = true /\ string_forall isspace ws = true
    /\ is_nul (head tail) = true
    /\ ast_expr e = Return node.
Proof.
  intros H. destruct (parse_text_inv text node H) as (p & fuel & p' & Hp & He & Ht).
  destruct (rules_sound fuel) as (_ & _ & _ & _ & Hsound).
  destruct (Hsound "" text p node p' Hp He) as (e & rest & -> & Hwf & Hast & Hp').
  destruct (start_inv _ _ _ Hp')
    as [ws s1 -> Hws Hnul ->
       | ws literal rest1 v -> Hws Hne Hlit Hrest Hv ->
       | ws c t rest1 -> Hws Hc ->].
  - now exists e, ws, s1.
  - discriminate.
  - cbn in Ht. subst t. now apply single_char_token_char in Hc.
Qed.

Lemma ast_value :
  (forall f node, ast_factor f = Return node -> value_factor f = evaluate node)
  /\ (forall t node, ast_term t = Return node -> value_term t = evaluate node)
  /\ (forall e node, ast_expr e = Return node -> value_expr e = evaluate node).
Proof.
  apply grammar_ind.
  - intros ws literal node. cbn. destruct (stod literal); cbn [bind]; try discriminate.
    now intros [= <-].
  - intros ws sign f IH node. cbn [ast_factor value_factor].
    destruct (ast_factor f) as [operand| |]; cbn [bind]; try discriminate.
    intros [= <-]. rewrite (IH operand eq_refl). cbn [evaluate].
    destruct (evaluate operand); cbn [bind]; try reflexivity. now destruct sign.
  - intros ws1 e IH ws2 node. exact (IH node).
  - intros f IH node. exact (IH node).
  - intros t IHt ws op f IHf node. cbn [ast_term value_term].
    destruct (ast_term t) as [l| |]; cbn [bind]; try discriminate.
    destruct (ast_factor f) as [r| |]; cbn [bind]; try discriminate.
    intros [= <-]. rewrite (IHt l eq_refl), (IHf r eq_refl). cbn [evaluate].
    destruct (evaluate l); cbn [bind]; try reflexivity.
    destruct (evaluate r); cbn [bind]; try reflexivity. now destruct op.
  - intros t IH node. exact (IH node).
  - intros e IHe ws op t IHt node. cbn [ast_expr value_expr].
    destruct (ast_expr e) as [l| |]; cbn [bind]; try discriminate.
    destruct (ast_term t) as [r| |]; cbn [bind]; try discriminate.
    intros [= <-]. rewrite (IHe l eq_refl), (IHt r eq_refl). cbn [evaluate].
    destruct (evaluate l); cbn [bind]; try reflexivity.
    destruct (evaluate r); cbn [bind]; try reflexivity. now destruct op.
Qed.

Lemma no_nul_tail (a ws tail : string) :
  no_nul (a ++ ws ++ tail) = true -> is_nul (head tail) = true -> tail = "".
Proof.
  intros H Ht. rewrite <- string_app_assoc in H.
  exact (no_nul_suffix (a ++ ws) tail H Ht).
Qed.

(** X13: the parser accepts exactly the texts of the grammar.  Whenever a
    text parses, it is the text of a well-formed expression of the grammar,
    followed by whitespace and then the end of the input or a NUL character,
    and the tree returned is the tree of that expression.  For a text
    without NUL characters this is an equivalence. *)
Theorem parser_accepts_grammar :
  (forall text node,
      parse_text text = Return node ->
      exists e ws tail,
        text = render_expr e ++ ws ++ tail
        /\ wf_expr e = true /\ string_forall isspace ws = true
        /\ is_nul (head tail) = true
        /\ ast_expr e = Return node)
  /\ (forall text node,
         no_nul text = true ->
         (parse_text text = Return node <->
          exists e ws,
            text = render_expr e ++ ws
            /\ wf_expr e = true /\ string_forall isspace ws = true
            /\ ast_expr e = Return node)).
Proof.
  split; [exact parse_text_sound|].
  intros text node Hnul. split.
  - intros H. destruct (parse_text_sound text node H)
      as (e & ws & tail & -> & Hwf & Hws & Htail & Hast).
    rewrite (no_nul_tail _ _ _ Hnul Htail), string_app_nil_r. now exists e, ws.
  - intros (e & ws & -> & Hwf & Hws & Hast). now apply parse_text_render.
Qed.

Lemma parser_accepts_grammar_witness :
  exists e ws,
    "2 + 3 " = render_expr e ++ ws
    /\ wf_expr e = true /\ string_forall isspace ws = true
    /\ ast_expr e
       = Return (BinaryOpNode (NumberNode (double_of_Z 2)) PLUS
                              (NumberNode (double_of_Z 3))).
Proof.
  exact (proj1 (proj2 parser_accepts_grammar "2 + 3 " _ eq_refl) eq_refl).
Defined.

(** X14: on a text without NUL characters, [compile_and_evaluate] returns
    [v] exactly when the text is a well-formed expression of the grammar,
    optionally followed by whitespace, whose value in double arithmetic
    is [v]. *)
Theorem compile_and_evaluate_grammar (text : string) (v : double) :
  no_nul text = true ->
  (compile_and_evaluate text = Return v <->
   exists e ws,
     text = render_expr e ++ ws
     /\ wf_expr e = true /\ string_forall isspace ws = true
     /\ value_expr e = Return v).
Proof.
  intros Hnul. split.
  - rewrite compile_and_evaluate_parse_text.
    destruct (parse_text text) as [node| |] eqn:Hp; cbn [bind]; try discriminate.
    destruct (evaluate node) as [v'| |] eqn:Hv; try discriminate.
    intros [= <-].
    destruct (parse_text_sound text node Hp)
      as (e & ws & tail & -> & Hwf & Hws & Htail & Hast).
    rewrite (no_nul_tail _ _ _ Hnul Htail), string_app_nil_r.
    exists e, ws. repeat split; try assumption.
    destruct ast_value as (_ & _ & H). now rewrite (H e node Hast).
  - intros (e & ws & -> & Hwf & Hws & Hv). now apply compile_and_evaluate_value.
Qed.

Lemma compile_and_evaluate_grammar_witness :
  exists e ws,
    "2 + 3 " = render_expr e ++ ws
    /\ wf_expr e = true /\ string_forall isspace ws = true
    /\ value_expr e = Return (double_of_Z 5).
Proof.
  exact (proj1 (compile_and_evaluate_grammar "2 + 3 " (double_of_Z 5) eq_refl)
           eq_refl).
Defined.

Lemma stod_throws (str : string) (e : exception) :
  stod str = Throw e -> e = invalid_argument "stod" \/ e = out_of_range "stod".
Proof.
  unfold stod. destruct (span isdigit str) as [int_part rest].
  destruct (int_part ++ _); [intros [= <-]; now left|].
  destruct (decimal_to_double _ _); try destruct (_ && _);
    intros [= <-]; now right.
Qed.

Lemma start_throws (pre s : string) (e : exception) :
  start pre s = Throw e -> lexical_error e.
Proof.
  rewrite start_scan. unfold scan.
  pose proof (span_head isspace s) as Hsp.
  destruct (span isspace s) as [ws s1]. cbn [snd] in Hsp.
  destruct s1 as [|c s2]; cbn [scan_token bind]; try discriminate.
  destruct (is_nul c) eqn:Hn; cbn [bind]; try discriminate.
  destruct (is_numeric c) eqn:Hc.
  - destruct (span is_numeric (String c s2)) as [run rest].
    destruct (stod run) as [v|e'|] eqn:Hv; cbn [bind]; try discriminate.
    intros [= <-]. right. now apply (stod_throws run).
  - destruct (single_char_token c) eqn:Ht; cbn [bind]; try discriminate.
    intros [= <-]. left. exists c. split; [|reflexivity].
    unfold unrecognized. now rewrite Hn, Hsp, Hc, Ht.
Qed.

Lemma rules_throw (fuel : nat) :
  (forall pre s p e,
      start pre s = Return p -> factor fuel p = Throw e -> syntax_error e)
  /\ (forall pre s node0 p e,
         start pre s = Return p -> term_loop fuel node0 p = Throw e -> syntax_error e)
  /\ (forall pre s p e,
         start pre s = Return p -> term fuel p = Throw e -> syntax_error e)
  /\ (forall pre s node0 p e,
         start pre s = Return p -> expr_loop fuel node0 p = Throw e -> syntax_error e)
  /\ (forall pre s p e,
         start pre s = Return p -> expr fuel p = Throw e -> syntax_error e).
Proof.
  induction fuel as [|fuel (IHf & IHtl & IHt & IHel & IHe)].
  { repeat split; intros; discriminate. }
  destruct (rules_sound fuel) as (Sf & _ & St & _ & Se).
  assert (Hlex : forall pre s e, start pre s = Throw e -> syntax_error e).
  { intros pre s e H. right. right. exact (start_throws pre s e H). }
  repeat split.
  - (* factor *)
    intros pre s p e Hp Hrun.
    destruct (start_inv pre s p Hp)
      as [ws s1 -> Hws Hnul ->
         | ws literal rest v -> Hws Hne Hlit Hrest Hv ->
         | ws c t rest -> Hws Ht ->].
    + cbn in Hrun. revert Hrun; intros [= <-]. now left.
    + cbn [factor current_token type value] in Hrun.
      rewrite eat_at in Hrun by reflexivity.
      destruct (start _ rest) as [p1|e1|] eqn:Hp1; cbn [bind] in Hrun;
        try discriminate.
      revert Hrun; intros [= <-]. exact (Hlex _ _ _ Hp1).
    + pose proof (single_char_token_char c t Ht) as Hc.
      destruct t; try contradiction; subst c;
        cbn [factor current_token type Token1] in Hrun;
        try (revert Hrun; intros [= <-]; now left);
        rewrite eat_at in Hrun by reflexivity;
        (destruct (start _ rest) as [p1|e1|] eqn:Hp1; cbn [bind] in Hrun;
         [|revert Hrun; intros [= <-]; exact (Hlex _ _ _ Hp1)|discriminate]).
      * destruct (factor fuel p1) as [[operand p2]|e1|] eqn:Hf; cbn [bind] in Hrun;
          try discriminate.
        revert Hrun; intros [= <-]. exact (IHf _ _ _ _ Hp1 Hf).
      * destruct (factor fuel p1) as [[operand p2]|e1|] eqn:Hf; cbn [bind] in Hrun;
          try discriminate.
        revert Hrun; intros [= <-]. exact (IHf _ _ _ _ Hp1 Hf).
      * destruct (expr fuel p1) as [[inner p2]|e1|] eqn:Hf; cbn [bind] in Hrun;
          [|revert Hrun; intros [= <-]; exact (IHe _ _ _ _ Hp1 Hf)|discriminate].
        destruct (Se _ _ _ _ _ Hp1 Hf) as (g & rest' & _ & _ & _ & Hp2).
        destruct (start_inv _ _ _ Hp2)
          as [ws2 s1 _ Hws2 Hnul ->
             | ws2 literal rest2 v _ Hws2 Hne Hlit Hrest Hv ->
             | ws2 c t rest2 _ Hws2 Ht2 ->];
          try (cbn in Hrun; revert Hrun; intros [= <-]; right; now left).
        pose proof (single_char_token_char c t Ht2) as Hc.
        destruct t; try contradiction;
          try (cbn in Hrun; revert Hrun; intros [= <-]; right; now left).
        rewrite eat_at in Hrun by reflexivity.
        destruct (start _ rest2) as [p3|e3|] eqn:Hp3; cbn [bind] in Hrun;
          try discriminate.
        revert Hrun; intros [= <-]. exact (Hlex _ _ _ Hp3).
  - (* term_loop *)
    intros pre s node0 p e Hp Hrun.
    destruct (start_inv pre s p Hp)
      as [ws s1 -> Hws Hnul ->
         | ws literal rest v -> Hws Hne Hlit Hrest Hv ->
         | ws c t rest -> Hws Ht ->];
      try (cbn in Hrun; discriminate).
    pose proof (single_char_token_char c t Ht) as Hc.
    destruct t; try contradiction; subst c;
      cbn [term_loop current_token type Token1] in Hrun; try discriminate;
      rewrite eat_at in Hrun by reflexivity;
      (destruct (start _ rest) as [p1|e1|] eqn:Hp1; cbn [bind] in Hrun;
       [|revert Hrun; intros [= <-]; exact (Hlex _ _ _ Hp1)|discriminate]);
      (destruct (factor fuel p1) as [[rhs p2]|e1|] eqn:Hf; cbn [bind] in Hrun;
       [|revert Hrun; intros [= <-]; exact (IHf _ _ _ _ Hp1 Hf)|discriminate]);
      destruct (Sf _ _ _ _ _ Hp1 Hf) as (g & rest' & _ & _ & _ & Hp2);
      exact (IHtl _ _ _ _ _ Hp2 Hrun).
  - (* term *)
    intros pre s p e Hp Hrun. cbn [term] in Hrun.
    destruct (factor fuel p) as [[node0 p1]|e1|] eqn:Hf; cbn [bind] in Hrun;
      [|revert Hrun; intros [= <-]; exact (IHf _ _ _ _ Hp Hf)|discriminate].
    destruct (Sf _ _ _ _ _ Hp Hf) as (g & rest' & _ & _ & _ & Hp1).
    exact (IHtl _ _ _ _ _ Hp1 Hrun).
  - (* expr_loop *)
    intros pre s node0 p e Hp Hrun.
    destruct (start_inv pre s p Hp)
      as [ws s1 -> Hws Hnul ->
         | ws literal rest v -> Hws Hne Hlit Hrest Hv ->
         | ws c t rest -> Hws Ht ->];
      try (cbn in Hrun; discriminate).
    pose proof (single_char_token_char c t Ht) as Hc.
    destruct t; try contradiction; subst c;
      cbn [expr_loop current_token type Token1] in Hrun; try discriminate;
      rewrite eat_at in Hrun by reflexivity;
      (destruct (start _ rest) as [p1|e1|] eqn:Hp1; cbn [bind] in Hrun;
       [|revert Hrun; intros [= <-]; exact (Hlex _ _ _ Hp1)|discriminate]);
      (destruct (term fuel p1) as [[rhs p2]|e1|] eqn:Hf; cbn [bind] in Hrun;
       [|revert Hrun; intros [= <-]; exact (IHt _ _ _ _ Hp1 Hf)|discriminate]);
      destruct (St _ _ _ _ _ Hp1 Hf) as (g & rest' & _ & _ & _ & Hp2);
      exact (IHel _ _ _ _ _ Hp2 Hrun).
  - (* expr *)
    intros pre s p e Hp Hrun. cbn [expr] in Hrun.
    destruct (term fuel p) as [[node0 p1]|e1|] eqn:Hf; cbn [bind] in Hrun;
      [|revert Hrun; intros [= <-]; exact (IHt _ _ _ _ Hp Hf)|discriminate].
    destruct (St _ _ _ _ _ Hp Hf) as (g & rest' & _ & _ & _ & Hp1).
    exact (IHel _ _ _ _ _ Hp1 Hrun).
Qed.

Lemma parse_text_throws_inv (text : string) (e : exception) :
  parse_text text = Throw e -> syntax_error e \/ e = UnexpectedTokenAtEnd.
Proof.
  unfold parse_text, parse. rewrite new_Parser_start.
  destruct (start "" text) as [p|e1|] eqn:Hp; cbn [bind]; try discriminate.
  - destruct (expr (parse_fuel p) p) as [[node p']|e1|] eqn:He; cbn [bind];
      try discriminate.
    + destruct (negb _); cbn [bind]; try discriminate. intros [= <-]. now right.
    + intros [= <-]. left.
      destruct (rules_throw (parse_fuel p)) as (_ & _ & _ & _ & H).
      exact (H _ _ _ _ Hp He).
  - intros [= <-]. left. right. right. exact (start_throws _ _ _ Hp).
Qed.

Lemma parse_text_operators_ok (text : string) (node : ASTNode) :
  parse_text text = Return node -> operators_ok node = true.
Proof.
  unfold parse_text.
  destruct (new_Parser text) as [p| |]; cbn [bind]; try discriminate.
  destruct (parse p) as [[node' p']| |] eqn:Hp; cbn [bind]; try discriminate.
  intros [= <-]. exact (parse_operators_ok p node' p' Hp).
Qed.

(** X15: every exception of [compile_and_evaluate] is "Compilation error: "
    followed by the message of one of these causes: "Invalid syntax",
    "Unexpected token", "Unexpected token at end of expression",
    "Division by zero", "Invalid character: c" for a character [c] that
    starts no token, or one of the two exceptions of [std::stod].  The two
    "Unknown operator" exceptions of the tree never reach the caller. *)
Theorem compile_and_evaluate_errors (text : string) (e : exception) :
  compile_and_evaluate text = Throw e ->
  exists cause,
    e = CompilationError cause
    /\ (cause = InvalidSyntax \/ cause = UnexpectedToken
        \/ cause = UnexpectedTokenAtEnd \/ cause = DivisionByZero
        \/ lexical_error cause).
Proof.
  rewrite compile_and_evaluate_parse_text.
  destruct (parse_text text) as [node|e1|] eqn:Hp; cbn [bind]; try discriminate.
  - destruct (evaluate node) as [v|e1|] eqn:Hv; try discriminate.
    intros [= <-]. exists e1. split; [reflexivity|].
    pose proof (evaluate_operators_ok node (parse_text_operators_ok text node Hp)
                  e1 Hv) as ->.
    tauto.
  - intros [= <-]. exists e1. split; [reflexivity|].
    destruct (parse_text_throws_inv text e1 Hp) as [[H|[H|H]]|H]; tauto.
Qed.

Lemma compile_and_evaluate_errors_witness :
  exists cause,
    CompilationError DivisionByZero = CompilationError cause
    /\ (cause = InvalidSyntax \/ cause = UnexpectedToken
        \/ cause = UnexpectedTokenAtEnd \/ cause = DivisionByZero
        \/ lexical_error cause).
Proof.
  exact (compile_and_evaluate_errors "1/0" (CompilationError DivisionByZero)
           eq_refl).
Defined.

(** X16: a successful [get_next_token] keeps the input, never moves the
    position backwards or beyond the end of the input, and leaves the cached
    character equal to the character at the position; a token other than the
    end marker moves the position forward by at least one character, and the
    end marker leaves the sentinel as the current character. *)
Theorem get_next_token_progress (pre suf : string) (tok : Token) (lx : Lexer) :
  get_next_token (lexer_at pre suf) = Return (tok, lx) ->
  input lx = pre ++ suf
  /\ String.length pre <= position lx <= String.length (pre ++ suf)
  /\ current_char lx = char_at (input lx) (position lx)
  /\ (type tok <> END_OF_FILE -> String.length pre < position lx)
  /\ (type tok = END_OF_FILE -> current_char lx = NUL).
Proof.
  rewrite get_next_token_at. intros H. apply scan_inv in H.
  destruct H as (pre' & suf' & -> & Heq & Hlen).
  pose proof (lexer_at_invariant pre' suf') as (Hpos & Hchar & _).
  pose proof (f_equal String.length Heq) as Hl. rewrite !string_length_app in Hl.
  cbn [lexer_at input position current_char] in *.
  rewrite Heq in *. rewrite string_length_app.
  destruct (TokenType_eqb (type tok) END_OF_FILE) eqn:Ht.
  - destruct Hlen as [Hlen Hnul]. apply TokenType_eqb_eq in Ht.
    repeat split; try assumption; try lia; try congruence.
    intros _. now apply is_nul_true.
  - assert (type tok <> END_OF_FILE)
      by (intros E; apply TokenType_eqb_eq in E; congruence).
    repeat split; try assumption; try lia; try congruence.
Qed.

Lemma get_next_token_progress_witness :
  String.length "1 +" < position (lexer_at "1 + 23" " * 4").
Proof.
  exact (proj1 (proj2 (proj2 (proj2
           (get_next_token_progress "1 +" " 23 * 4"
              (mkToken NUMBER (double_of_Z 23)) (lexer_at "1 + 23" " * 4")
              eq_refl))))
           ltac:(discriminate)).
Defined.

(** X17: [skip_whitespace] always finishes; it splits the text after the
    scan point into a run of whitespace and a rest that does not start with
    whitespace (or is empty), and leaves the lexer at the start of the rest,
    which is where one [advance] per whitespace character leads. *)
Theorem skip_whitespace_stops (pre suf : string) :
  exists ws rest,
    suf = ws ++ rest
    /\ string_forall isspace ws = true /\ isspace (head rest) = false
    /\ skip_whitespace (lexer_at pre suf) = Return (lexer_at (pre ++ ws) rest)
    /\ Nat.iter (String.length ws) advance (lexer_at pre suf)
       = lexer_at (pre ++ ws) rest.
Proof.
  exists (fst (span isspace suf)), (snd (span isspace suf)).
  pose proof (span_app isspace suf) as Happ.
  pose proof (span_forall isspace suf) as Hws.
  pose proof (span_isspace_head suf) as Hhead.
  rewrite skip_whitespace_at.
  repeat split; try assumption; try (now symmetry).
  destruct (span isspace suf) as [ws rest]. cbn [fst snd] in *. subst suf.
  clear Hhead Hws. revert pre.
  induction ws as [|c ws IH]; intros pre.
  - cbn. now rewrite string_app_nil_r.
  - cbn [String.length]. rewrite Nat.iter_succ_r. cbn [append].
    rewrite advance_at, IH. f_equal. now rewrite string_app_assoc.
Qed.

Lemma no_operand_token (c : ascii) :
  no_operand c = true ->
  exists t, single_char_token c = Some t
            /\ (t = MULTIPLY \/ t = DIVIDE \/ t = RPAREN).
Proof.
  unfold no_operand. destruct (single_char_token c) as [[]|]; try discriminate;
    intros _; eexists; split; try reflexivity; tauto.
Qed.

(** [factor] on a text that starts with a symbol that starts no operand. *)
Lemma factor_no_operand (pre ws : string) (c : ascii) (junk : string) :
  string_forall isspace ws = true -> no_operand c = true ->
  eventually (fun fuel => p <- start pre (ws ++ String c junk);; factor fuel p)
             (Throw InvalidSyntax).
Proof.
  intros Hws Hc. destruct (no_operand_token c Hc) as (t & Ht & Htt).
  rewrite (start_symbol pre ws c t junk Hws Ht). cbn [bind].
  apply (eventually_S _ _ 1). intros n Hn. destruct n as [|n]; try lia.
  now destruct Htt as [-> | [-> | ->]].
Qed.

(** X18: a symbol where an operand is expected.  At every place where the
    parser expects an operand (the start of the line, after an opening
    parenthesis, after a unary sign, after a binary operator that follows its
    left operand; each at any depth of nesting, the text before the place
    being well-formed with literals that convert), a multiplication sign, a
    division sign or a closing parenthesis, after optional whitespace, is
    rejected with "Invalid syntax", whatever follows that symbol: the rest of
    the line is not read.  Empty parentheses are a case of it. *)
Theorem misplaced_symbol_rejected :
  (forall p ws c junk,
      wf_factor_place p = true -> string_forall isspace ws = true ->
      no_operand c = true ->
      compile_and_evaluate (render_factor_place p ++ ws ++ String c junk)
      = Throw (CompilationError InvalidSyntax))
  /\ compile_and_evaluate "2 * ( * 3" = Throw (CompilationError InvalidSyntax)
  /\ compile_and_evaluate "2 * ()" = Throw (CompilationError InvalidSyntax)
  /\ compile_and_evaluate "2 + 3 + * 4" = Throw (CompilationError InvalidSyntax)
  /\ compile_and_evaluate ") $" = Throw (CompilationError InvalidSyntax).
Proof.
  split; [|repeat split; vm_compute; reflexivity].
  intros p ws c junk Hwf Hws Hc. apply factor_place_throws; [exact Hwf|].
  now apply factor_no_operand.
Qed.

Lemma misplaced_symbol_rejected_witness :
  compile_and_evaluate "2 * ( * 3" = Throw (CompilationError InvalidSyntax)
  /\ compile_and_evaluate "- )" = Throw (CompilationError InvalidSyntax).
Proof.
  split.
  - exact (proj1 misplaced_symbol_rejected
             (FactorOfTerm
                (TermOfExpr
                   (AfterParen
                      (AfterMultiplicative (TermOfExpr AtStart)
                         (GFactor (GNumber "" "2")) " " Mul) " ")))
             " " "*"%char " 3" eq_refl eq_refl eq_refl).
  - exact (proj1 misplaced_symbol_rejected
             (AfterSign (FactorOfTerm (TermOfExpr AtStart)) "" Sub)
             " " ")"%char "" eq_refl eq_refl eq_refl).
Defined.

(** *** The parse of an entire input *)

Lemma string_forall_app (f : ascii -> bool) (a b : string) :
  string_forall f (a ++ b) = string_forall f a && string_forall f b.
Proof.
  induction a as [|c a IH]; cbn; [reflexivity|]. now rewrite IH, andb_assoc.
Qed.

Lemma string_forall_impl (f g : ascii -> bool) (s : string) :
  (forall c, f c = true -> g c = true) ->
  string_forall f s = true -> string_forall g s = true.
Proof.
  intros Hfg. induction s as [|c s IH]; cbn; [reflexivity|].
  intros H. apply andb_true_iff in H. destruct H as [Hc Hs].
  now rewrite (Hfg c Hc), (IH Hs).
Qed.

Lemma spaces_no_nul (ws : string) : string_forall isspace ws = true -> no_nul ws = true.
Proof.
  apply string_forall_impl. intros c Hc. now rewrite (isspace_not_nul c Hc).
Qed.

Lemma numeric_no_nul (s : string) : string_forall is_numeric s = true -> no_nul s = true.
Proof.
  apply string_forall_impl. intros c Hc. now rewrite (is_numeric_not_nul c Hc).
Qed.

Lemma wf_no_nul :
  (forall f, wf_factor f = true -> no_nul (render_factor f) = true)
  /\ (forall t, wf_term t = true -> no_nul (render_term t) = true)
  /\ (forall e, wf_expr e = true -> no_nul (render_expr e) = true).
Proof.
  unfold no_nul. apply grammar_ind; cbn [wf_factor wf_term wf_expr
                                         render_factor render_term render_expr].
  - intros ws literal H.
    apply andb_true_iff in H. destruct H as [H Hlit].
    apply andb_true_iff in H. destruct H as [Hws _].
    rewrite string_forall_app. apply andb_true_iff. split.
    + now apply spaces_no_nul. + now apply numeric_no_nul.
  - intros ws sign f IH H. apply andb_true_iff in H. destruct H as [Hws Hf].
    rewrite string_forall_app. cbn [string_forall].
    rewrite (spaces_no_nul ws Hws : string_forall _ ws = true), (IH Hf).
    now destruct sign.
  - intros ws1 e IH ws2 H.
    apply andb_true_iff in H. destruct H as [H Hws2].
    apply andb_true_iff in H. destruct H as [Hws1 He].
    rewrite string_forall_app. cbn [string_forall].
    rewrite !string_forall_app. cbn [string_forall].
    now rewrite (spaces_no_nul ws1 Hws1 : string_forall _ ws1 = true), (IH He),
      (spaces_no_nul ws2 Hws2 : string_forall _ ws2 = true).
  - intros f IH H. now apply IH.
  - intros t IHt ws op f IHf H.
    apply andb_true_iff in H. destruct H as [H Hf].
    apply andb_true_iff in H. destruct H as [Ht Hws].
    rewrite !string_forall_app. cbn [string_forall].
    rewrite (IHt Ht), (spaces_no_nul ws Hws : string_forall _ ws = true), (IHf Hf).
    now destruct op.
  - intros t IH H. now apply IH.
  - intros e IHe ws op t IHt H.
    apply andb_true_iff in H. destruct H as [H Ht].
    apply andb_true_iff in H. destruct H as [He Hws].
    rewrite !string_forall_app. cbn [string_forall].
    rewrite (IHe He), (spaces_no_nul ws Hws : string_forall _ ws = true), (IHt Ht).
    now destruct op.
Qed.

Lemma expression_text_no_nul (e : gexpr) (ws : string) :
  wf_expr e = true -> string_forall isspace ws = true ->
  no_nul (render_expr e ++ ws) = true.
Proof.
  intros Hwf Hws. destruct wf_no_nul as (_ & _ & H).
  unfold no_nul in *. rewrite string_forall_app.
  now rewrite (H e Hwf), (spaces_no_nul ws Hws : string_forall _ ws = true).
Qed.

(** The NUL character is the end sentinel of the lexer: on the text [2],
    NUL, [+3)] the parse returns the node of [2] and leaves the rest unread,
    so that the node returned does not cover the entire input. *)
Lemma parse_entire_input_counterexample :
  parse_text nul_text = Return (NumberNode (double_of_Z 2))
  /\ compile_and_evaluate nul_text = Return (double_of_Z 2)
  /\ (exists p node p',
         new_Parser nul_text = Return p /\ parse p = Return (node, p')
         /\ position (lexer p') < String.length nul_text)
  /\ ~ (forall text node,
           parse_text text = Return node ->
           exists e ws,
             text = render_expr e ++ ws
             /\ wf_expr e = true /\ string_forall isspace ws = true
             /\ ast_expr e = Return node).
Proof.
  split; [vm_compute; reflexivity|]. split; [vm_compute; reflexivity|]. split.
  - exists (mkParser (lexer_at "2" (String NUL "+3)")) (mkToken NUMBER (double_of_Z 2))),
      (NumberNode (double_of_Z 2)),
      (mkParser (lexer_at "2" (String NUL "+3)")) (Token1 END_OF_FILE)).
    repeat split; vm_compute; try reflexivity. lia.
  - intros H.
    destruct (H nul_text (NumberNode (double_of_Z 2)) ltac:(vm_compute; reflexivity))
      as (e & ws & Heq & Hwf & Hws & _).
    pose proof (expression_text_no_nul e ws Hwf Hws) as Hnn.
    rewrite <- Heq in Hnn. vm_compute in Hnn. discriminate.
Qed.

(** C5 (amended): [parse()] returns the root node of an expression that
    covers the input up to its end or, when the input holds a NUL character,
    up to the first one, which the lexer takes for the end: for every input
    without a NUL character it covers the entire input, and every text of an
    expression is parsed to the tree of that expression.  After a complete
    [expr], [parse()] fails with UnexpectedToken (the exception of [parse],
    whose message is "Unexpected token at end of expression") whenever the
    current token is not EndOfInput, and returns the node when it is.
    [evaluate("2 + 3)")] fails for the trailing [')']. *)
Theorem parse_rejects_trailing_tokens :
  (forall text node,
      parse_text text = Return node ->
      exists e ws tail,
        text = render_expr e ++ ws ++ tail
        /\ wf_expr e = true /\ string_forall isspace ws = true
        /\ is_nul (head tail) = true
        /\ (no_nul text = true -> tail = "")
        /\ ast_expr e = Return node)
  /\ (forall text p node p',
         new_Parser text = Return p -> parse p = Return (node, p') ->
         type (current_token p') = END_OF_FILE
         /\ current_char (lexer p') = NUL
         /\ input (lexer p') = text
         /\ (no_nul text = true -> position (lexer p') = String.length text))
  /\ (forall e ws node,
         wf_expr e = true -> string_forall isspace ws = true ->
         ast_expr e = Return node ->
         no_nul (render_expr e ++ ws) = true
         /\ parse_text (render_expr e ++ ws) = Return node)
  /\ (forall e node rest p',
         wf_expr e = true -> ast_expr e = Return node ->
         is_numeric (head rest) = false -> follow_expr rest = true ->
         start (render_expr e) rest = Return p' ->
         type (current_token p') <> END_OF_FILE ->
         parse_text (render_expr e ++ rest) = Throw UnexpectedTokenAtEnd)
  /\ (forall p fuel node p',
         parser_ok p -> expr fuel p = Return (node, p') ->
         (type (current_token p') <> END_OF_FILE ->
          parse p = Throw UnexpectedTokenAtEnd)
         /\ (type (current_token p') = END_OF_FILE -> parse p = Return (node, p')))
  /\ compile_and_evaluate "2 + 3)" = Throw (CompilationError UnexpectedTokenAtEnd).
Proof.
  split; [|split; [exact parse_success|split; [|split; [|split]]]].
  - intros text node H.
    destruct (parse_text_sound text node H)
      as (e & ws & tail & Heq & Hwf & Hws & Htail & Hast).
    exists e, ws, tail. repeat split; try assumption.
    intros Hnn. rewrite Heq in Hnn. exact (no_nul_tail _ _ _ Hnn Htail).
  - intros e ws node Hwf Hws Hast.
    split; [now apply expression_text_no_nul | now apply parse_text_render].
  - intros e node rest p' Hwf Hast Hnum Hfollow Hp' Hne.
    pose proof (expr_then e node rest Hwf Hast Hnum Hfollow) as H.
    rewrite Hp' in H. cbn [bind] in H.
    rewrite (parse_text_trailing _ _ _ H).
    destruct (TokenType_eqb (type (current_token p')) END_OF_FILE) eqn:Ht;
      [|reflexivity].
    apply TokenType_eqb_eq in Ht. contradiction.
  - intros p fuel node p' Hok He. rewrite (parse_expr p fuel node p' Hok He).
    destruct (TokenType_eqb (type (current_token p')) END_OF_FILE) eqn:Ht.
    + apply TokenType_eqb_eq in Ht. split; [congruence | reflexivity].
    + split; [reflexivity|]. intros E. apply TokenType_eqb_eq in E. congruence.
  - vm_compute. reflexivity.
Qed.

Lemma parse_rejects_trailing_tokens_witness :
  parse_text "2 + 3)" = Throw UnexpectedTokenAtEnd
  /\ (exists e ws tail,
         "2 + 3 " = render_expr e ++ ws ++ tail
         /\ wf_expr e = true /\ string_forall isspace ws = true
         /\ is_nul (head tail) = true
         /\ (no_nul "2 + 3 " = true -> tail = "")
         /\ ast_expr e
            = Return (BinaryOpNode (NumberNode (double_of_Z 2)) PLUS
                                   (NumberNode (double_of_Z 3)))).
Proof.
  split.
  - exact (proj1 (proj2 (proj2 (proj2 parse_rejects_trailing_tokens)))
             two_plus_three _ ")" _ eq_refl eq_refl eq_refl eq_refl eq_refl
             ltac:(discriminate)).
  - exact (proj1 parse_rejects_trailing_tokens "2 + 3 " _ eq_refl).
Defined.

(** *** Where "Invalid syntax" is reported *)

Lemma lexical_not_invalid_syntax : ~ lexical_error InvalidSyntax.
Proof. intros [(c & _ & H)|[H|H]]; discriminate. Qed.

Lemma start_not_invalid_syntax (pre s : string) : start pre s <> Throw InvalidSyntax.
Proof.
  intros H. exact (lexical_not_invalid_syntax (start_throws pre s _ H)).
Qed.

Ltac lexical_contradiction H :=
  exfalso; revert H; intros [= ->];
  match goal with
  | Hs : start ?pre ?s = Throw InvalidSyntax |- _ =>
      exact (start_not_invalid_syntax pre s Hs)
  end.

Lemma rules_invalid (fuel : nat) :
  (forall pl rest q,
      wf_factor_place pl = true ->
      start (render_factor_place pl) rest = Return q ->
      factor fuel q = Throw InvalidSyntax ->
      no_operand_at (render_factor_place pl ++ rest))
  /\ (forall pl t rest node0 q,
         wf_term_place pl = true -> wf_term t = true -> ast_term t = Return node0 ->
         start (render_term_place pl ++ render_term t) rest = Return q ->
         term_loop fuel node0 q = Throw InvalidSyntax ->
         no_operand_at (render_term_place pl ++ render_term t ++ rest))
  /\ (forall pl rest q,
         wf_term_place pl = true ->
         start (render_term_place pl) rest = Return q ->
         term fuel q = Throw InvalidSyntax ->
         no_operand_at (render_term_place pl ++ rest))
  /\ (forall pl e rest node0 q,
         wf_expr_place pl = true -> wf_expr e = true -> ast_expr e = Return node0 ->
         start (render_expr_place pl ++ render_expr e) rest = Return q ->
         expr_loop fuel node0 q = Throw InvalidSyntax ->
         no_operand_at (render_expr_place pl ++ render_expr e ++ rest))
  /\ (forall pl rest q,
         wf_expr_place pl = true ->
         start (render_expr_place pl) rest = Return q ->
         expr fuel q = Throw InvalidSyntax ->
         no_operand_at (render_expr_place pl ++ rest)).
Proof.
  induction fuel as [|fuel (IHf & IHtl & IHt & IHel & IHe)].
  { repeat split; intros; discriminate. }
  destruct (rules_sound fuel) as (Sf & _ & St & _ & Se).
  repeat split.
  - (* factor *)
    intros pl rest q Hwf Hq Hrun.
    destruct (start_inv _ _ _ Hq)
      as [ws s1 -> Hws Hnul ->
         | ws literal rest1 v -> Hws Hne Hlit Hrest Hv ->
         | ws c t rest1 -> Hws Ht ->].
    + exists pl, ws, s1. repeat split; try assumption. now rewrite Hnul.
    + cbn [factor current_token type value] in Hrun.
      rewrite eat_at in Hrun by reflexivity.
      destruct (start _ rest1) as [p1|e1|] eqn:Hp1; cbn [bind] in Hrun;
        try discriminate.
      lexical_contradiction Hrun.
    + pose proof (single_char_token_char c t Ht) as Hc.
      assert (Hstuck : no_operand c = true ->
                       no_operand_at (render_factor_place pl ++ ws ++ String c rest1)).
      { intros Hno. exists pl, ws, (String c rest1).
        repeat split; try assumption. cbn [head]. rewrite Hno. apply orb_true_r. }
      destruct t; try contradiction; subst c;
        try (apply Hstuck; reflexivity);
        cbn [factor current_token type Token1] in Hrun;
        rewrite eat_at in Hrun by reflexivity;
        (destruct (start _ rest1) as [p1|e1|] eqn:Hp1; cbn [bind] in Hrun;
         [|lexical_contradiction Hrun|discriminate]).
      * (* + *)
        destruct (factor fuel p1) as [[operand p2]|e1|] eqn:Hf; cbn [bind] in Hrun;
          try discriminate.
        revert Hrun; intros [= ->].
        assert (H := IHf (AfterSign pl ws Add) rest1 p1).
        cbn [wf_factor_place render_factor_place additive_char] in H.
        rewrite Hwf, Hws in H.
        replace ((render_factor_place pl ++ ws ++ "+") ++ rest1)
          with (render_factor_place pl ++ ws ++ String "+" rest1) in H
          by now norm_strings.
        apply H; try reflexivity; try assumption.
        rewrite <- Hp1. f_equal. now norm_strings.
      * (* - *)
        destruct (factor fuel p1) as [[operand p2]|e1|] eqn:Hf; cbn [bind] in Hrun;
          try discriminate.
        revert Hrun; intros [= ->].
        assert (H := IHf (AfterSign pl ws Sub) rest1 p1).
        cbn [wf_factor_place render_factor_place additive_char] in H.
        rewrite Hwf, Hws in H.
        replace ((render_factor_place pl ++ ws ++ "-") ++ rest1)
          with (render_factor_place pl ++ ws ++ String "-" rest1) in H
          by now norm_strings.
        apply H; try reflexivity; try assumption.
        rewrite <- Hp1. f_equal. now norm_strings.
      * (* ( *)
        destruct (expr fuel p1) as [[inner p2]|e1|] eqn:Hf; cbn [bind] in Hrun.
        -- destruct (Se _ _ _ _ _ Hp1 Hf) as (g & rest' & _ & _ & _ & Hp2).
           destruct (start_inv _ _ _ Hp2)
             as [ws2 s1 _ Hws2 Hnul ->
                | ws2 literal rest2 v _ Hws2 Hne Hlit Hrest Hv ->
                | ws2 c t rest2 _ Hws2 Ht2 ->];
             try (cbn in Hrun; discriminate).
           pose proof (single_char_token_char c t Ht2) as Hc.
           destruct t; try contradiction; try (cbn in Hrun; discriminate).
           rewrite eat_at in Hrun by reflexivity.
           destruct (start _ rest2) as [p3|e3|] eqn:Hp3; cbn [bind] in Hrun;
             try discriminate.
           lexical_contradiction Hrun.
        -- revert Hrun; intros [= ->].
           assert (H := IHe (AfterParen pl ws) rest1 p1).
           cbn [wf_expr_place render_expr_place] in H.
           rewrite Hwf, Hws in H.
           replace ((render_factor_place pl ++ ws ++ "(") ++ rest1)
             with (render_factor_place pl ++ ws ++ String "(" rest1) in H
             by now norm_strings.
           apply H; try reflexivity; try assumption.
           rewrite <- Hp1. f_equal. now norm_strings.
        -- discriminate.
  - (* term_loop *)
    intros pl t rest node0 q Hwf Hwft Hast Hq Hrun.
    destruct (start_inv _ _ _ Hq)
      as [ws s1 -> Hws Hnul ->
         | ws literal rest1 v -> Hws Hne Hlit Hrest Hv ->
         | ws c op rest1 -> Hws Ht ->];
      try (cbn in Hrun; discriminate).
    pose proof (single_char_token_char c op Ht) as Hc.
    destruct op; try contradiction; subst c;
      cbn [term_loop current_token type Token1] in Hrun; try discriminate;
      rewrite eat_at in Hrun by reflexivity;
      (destruct (start _ rest1) as [p1|e1|] eqn:Hp1; cbn [bind] in Hrun;
       [|lexical_contradiction Hrun|discriminate]);
      (destruct (factor fuel p1) as [[rhs p2]|e1|] eqn:Hf; cbn [bind] in Hrun;
       [|revert Hrun; intros [= ->]|discriminate]).
    + destruct (Sf _ _ _ _ _ Hp1 Hf) as (f & rest2 & -> & Hwff & Hastf & Hp2).
      assert (H := IHtl pl (GMulDiv t ws Mul f) rest2
                     (BinaryOpNode node0 MULTIPLY rhs) p2 Hwf).
      cbn [wf_term ast_term render_term multiplicative_type multiplicative_char] in H.
      rewrite Hwft, Hws, Hwff, Hast, Hastf in H.
      replace (render_term_place pl ++ render_term t
               ++ ws ++ String "*" (render_factor f ++ rest2))
        with (render_term_place pl
              ++ (render_term t ++ ws ++ String "*" (render_factor f)) ++ rest2)
        by now norm_strings.
      apply H; try reflexivity; try assumption.
      rewrite <- Hp2. f_equal. now norm_strings.
    + assert (H := IHf (AfterMultiplicative pl t ws Mul) rest1 p1).
      cbn [wf_factor_place render_factor_place multiplicative_char] in H.
      unfold converts_term in H. rewrite Hwf, Hwft, Hast, Hws in H.
      replace ((render_term_place pl ++ render_term t ++ ws ++ "*") ++ rest1)
        with (render_term_place pl ++ render_term t ++ ws ++ String "*" rest1) in H
        by now norm_strings.
      apply H; try reflexivity; try assumption.
      rewrite <- Hp1. f_equal. now norm_strings.
    + destruct (Sf _ _ _ _ _ Hp1 Hf) as (f & rest2 & -> & Hwff & Hastf & Hp2).
      assert (H := IHtl pl (GMulDiv t ws Div f) rest2
                     (BinaryOpNode node0 DIVIDE rhs) p2 Hwf).
      cbn [wf_term ast_term render_term multiplicative_type multiplicative_char] in H.
      rewrite Hwft, Hws, Hwff, Hast, Hastf in H.
      replace (render_term_place pl ++ render_term t
               ++ ws ++ String "/" (render_factor f ++ rest2))
        with (render_term_place pl
              ++ (render_term t ++ ws ++ String "/" (render_factor f)) ++ rest2)
        by now norm_strings.
      apply H; try reflexivity; try assumption.
      rewrite <- Hp2. f_equal. now norm_strings.
    + assert (H := IHf (AfterMultiplicative pl t ws Div) rest1 p1).
      cbn [wf_factor_place render_factor_place multiplicative_char] in H.
      unfold converts_term in H. rewrite Hwf, Hwft, Hast, Hws in H.
      replace ((render_term_place pl ++ render_term t ++ ws ++ "/") ++ rest1)
        with (render_term_place pl ++ render_term t ++ ws ++ String "/" rest1) in H
        by now norm_strings.
      apply H; try reflexivity; try assumption.
      rewrite <- Hp1. f_equal. now norm_strings.
  - (* term *)
    intros pl rest q Hwf Hq Hrun. cbn [term] in Hrun.
    destruct (factor fuel q) as [[node0 p1]|e1|] eqn:Hf; cbn [bind] in Hrun;
      [|revert Hrun; intros [= ->]|discriminate].
    + destruct (Sf _ _ _ _ _ Hq Hf) as (f & rest1 & -> & Hwff & Hastf & Hp1).
      exact (IHtl pl (GFactor f) rest1 node0 p1 Hwf Hwff Hastf Hp1 Hrun).
    + exact (IHf (FactorOfTerm pl) rest q Hwf Hq Hf).
  - (* expr_loop *)
    intros pl e rest node0 q Hwf Hwfe Hast Hq Hrun.
    destruct (start_inv _ _ _ Hq)
      as [ws s1 -> Hws Hnul ->
         | ws literal rest1 v -> Hws Hne Hlit Hrest Hv ->
         | ws c op rest1 -> Hws Ht ->];
      try (cbn in Hrun; discriminate).
    pose proof (single_char_token_char c op Ht) as Hc.
    destruct op; try contradiction; subst c;
      cbn [expr_loop current_token type Token1] in Hrun; try discriminate;
      rewrite eat_at in Hrun by reflexivity;
      (destruct (start _ rest1) as [p1|e1|] eqn:Hp1; cbn [bind] in Hrun;
       [|lexical_contradiction Hrun|discriminate]);
      (destruct (term fuel p1) as [[rhs p2]|e1|] eqn:Hf; cbn [bind] in Hrun;
       [|revert Hrun; intros [= ->]|discriminate]).
    + destruct (St _ _ _ _ _ Hp1 Hf) as (t & rest2 & -> & Hwft & Hastt & Hp2).
      assert (H := IHel pl (GAddSub e ws Add t) rest2
                     (BinaryOpNode node0 PLUS rhs) p2 Hwf).
      cbn [wf_expr ast_expr render_expr additive_type additive_char] in H.
      rewrite Hwfe, Hws, Hwft, Hast, Hastt in H.
      replace (render_expr_place pl ++ render_expr e
               ++ ws ++ String "+" (render_term t ++ rest2))
        with (render_expr_place pl
              ++ (render_expr e ++ ws ++ String "+" (render_term t)) ++ rest2)
        by now norm_strings.
      apply H; try reflexivity; try assumption.
      rewrite <- Hp2. f_equal. now norm_strings.
    + assert (H := IHt (AfterAdditive pl e ws Add) rest1 p1).
      cbn [wf_term_place render_term_place additive_char] in H.
      unfold converts_expr in H. rewrite Hwf, Hwfe, Hast, Hws in H.
      replace ((render_expr_place pl ++ render_expr e ++ ws ++ "+") ++ rest1)
        with (render_expr_place pl ++ render_expr e ++ ws ++ String "+" rest1) in H
        by now norm_strings.
      apply H; try reflexivity; try assumption.
      rewrite <- Hp1. f_equal. now norm_strings.
    + destruct (St _ _ _ _ _ Hp1 Hf) as (t & rest2 & -> & Hwft & Hastt & Hp2).
      assert (H := IHel pl (GAddSub e ws Sub t) rest2
                     (BinaryOpNode node0 MINUS rhs) p2 Hwf).
      cbn [wf_expr ast_expr render_expr additive_type additive_char] in H.
      rewrite Hwfe, Hws, Hwft, Hast, Hastt in H.
      replace (render_expr_place pl ++ render_expr e
               ++ ws ++ String "-" (render_term t ++ rest2))
        with (render_expr_place pl
              ++ (render_expr e ++ ws ++ String "-" (render_term t)) ++ rest2)
        by now norm_strings.
      apply H; try reflexivity; try assumption.
      rewrite <- Hp2. f_equal. now norm_strings.
    + assert (H := IHt (AfterAdditive pl e ws Sub) rest1 p1).
      cbn [wf_term_place render_term_place additive_char] in H.
      unfold converts_expr in H. rewrite Hwf, Hwfe, Hast, Hws in H.
      replace ((render_expr_place pl ++ render_expr e ++ ws ++ "-") ++ rest1)
        with (render_expr_place pl ++ render_expr e ++ ws ++ String "-" rest1) in H
        by now norm_strings.
      apply H; try reflexivity; try assumption.
      rewrite <- Hp1. f_equal. now norm_strings.
  - (* expr *)
    intros pl rest q Hwf Hq Hrun. cbn [expr] in Hrun.
    destruct (term fuel q) as [[node0 p1]|e1|] eqn:Hf; cbn [bind] in Hrun;
      [|revert Hrun; intros [= ->]|discriminate].
    + destruct (St _ _ _ _ _ Hq Hf) as (t & rest1 & -> & Hwft & Hastt & Hp1).
      exact (IHel pl (GTerm t) rest1 node0 p1 Hwf Hwft Hastt Hp1 Hrun).
    + exact (IHt (TermOfExpr pl) rest q Hwf Hq Hf).
Qed.

Lemma parse_text_invalid_syntax (text : string) :
  parse_text text = Throw InvalidSyntax -> no_operand_at text.
Proof.
  unfold parse_text, parse. rewrite new_Parser_start.
  destruct (start "" text) as [p|e1|] eqn:Hp; cbn [bind]; try discriminate.
  - destruct (expr (parse_fuel p) p) as [[node p']|e1|] eqn:He; cbn [bind];
      try discriminate.
    + destruct (negb _); cbn [bind]; discriminate.
    + intros [= ->].
      destruct (rules_invalid (parse_fuel p)) as (_ & _ & _ & _ & H).
      exact (H AtStart text p eq_refl Hp He).
  - intros [= ->]. exfalso. exact (start_not_invalid_syntax _ _ Hp).
Qed.

Lemma compile_and_evaluate_invalid_syntax (text : string) :
  compile_and_evaluate text = Throw (CompilationError InvalidSyntax) ->
  parse_text text = Throw InvalidSyntax.
Proof.
  rewrite compile_and_evaluate_parse_text.
  destruct (parse_text text) as [node|e|] eqn:Hp; cbn [bind]; try discriminate.
  - destruct (evaluate node) as [v|e|] eqn:Hv; try discriminate.
    pose proof (evaluate_operators_ok node (parse_text_operators_ok text node Hp)
                  e Hv) as ->.
    discriminate.
  - intros H.
    destruct (parse_text_throws_inv text e Hp) as [[He|[He|[(c & _ & He)|[He|He]]]]|He];
      subst e; first [reflexivity | discriminate].
Qed.

(** X19: "Invalid syntax" is reported for exactly the texts that have a place
    where an operand is expected (the start of the line, after an opening
    parenthesis, after a unary sign, after a binary operator that follows its
    left operand; each at any depth of nesting, the text before the place
    being well-formed with literals that convert) at which, after optional
    whitespace, the input ends or a NUL character stands, or a multiplication
    sign, a division sign or a closing parenthesis stands. *)
Theorem invalid_syntax_places (text : string) :
  compile_and_evaluate text = Throw (CompilationError InvalidSyntax)
  <-> no_operand_at text.
Proof.
  split.
  - intros H. now apply parse_text_invalid_syntax, compile_and_evaluate_invalid_syntax.
  - intros (p & ws & rest & -> & Hwf & Hws & Hrest).
    apply factor_place_throws; [exact Hwf|].
    apply orb_true_iff in Hrest. destruct Hrest as [Hnul|Hno].
    + rewrite (start_at_nul _ ws rest Hws Hnul). cbn [bind].
      apply (eventually_S _ _ 0). intros n _. reflexivity.
    + destruct rest as [|c junk]; [discriminate|].
      now apply factor_no_operand.
Qed.

Lemma invalid_syntax_places_witness :
  no_operand_at "2 * (3 + ) - 1".
Proof.
  exact (proj1 (invalid_syntax_places "2 * (3 + ) - 1") eq_refl).
Defined.
